(** * Diagram trees: a heap-level model of the geometry core

    The TypeScript source builds diagrams as objects that refer to each other
    ([children] maps names to Diagram objects, [paths] maps names to Path
    objects) and every public method first clones the receiver and then
    assigns to fields of the clone.  The model below keeps that shape: a heap
    of objects addressed by references, methods written in a state and error
    monad over the heap, with the assignments of the source as heap writes.

    Numbers are the scalar type [R] of a [Number] instance; the class
    [Vector2] of linear_algebra.js is not among the sources, so its methods
    are the operations of the classes [Vector2Arith] and [Vector2Rotate].
    IEEE doubles (the numbers of the running program) are one instance.

    [copy] clones through [JSON.parse(JSON.stringify(this))].  A document
    keeps the shape, the names, the colours and every finite number other
    than -0; what it makes of the other numbers is [JSON_number].

    The recursive methods take a bound [n] on the depth they may descend to
    and run out of fuel below it; every statement about them is for a tree
    of height at most [n], on which they return. *)

From Stdlib Require Import Floats ZArith Lia.
From stdpp Require Import base list strings pretty.

Set Warnings "-register-all,-inexact-float".

(** ** Numbers and vectors *)

(** What the source uses of JavaScript numbers. *)
Class Number (R : Type) := {
  zero : R;                 (* the literal 0 *)
  Infinity : R;             (* Infinity *)
  neg : R → R;              (* unary minus *)
  Math_min : R → R → R;     (* Math.min on two arguments *)
  Math_max : R → R → R;     (* Math.max on two arguments *)
  (* what JSON.parse(JSON.stringify(a)) makes of the number a; a second
     round trip changes nothing more *)
  JSON_number : R → R;
  JSON_number_twice : ∀ a, JSON_number (JSON_number a) = JSON_number a;
}.

(** [new Vector2(x, y)] with its two public fields. *)
Record Vector2 (R : Type) := mkVector2 { x : R; y : R }.
Arguments mkVector2 {R} _ _.
Arguments x {R} _.
Arguments y {R} _.

(** Modelled from the spec: the methods of Vector2 (linear_algebra.js is
    missing), "add, subtract, scale"; [Vector2_add p v] is [p.add(v)]. *)
Class Vector2Arith (R : Type) := {
  Vector2_add : Vector2 R → Vector2 R → Vector2 R;
  Vector2_sub : Vector2 R → Vector2 R → Vector2 R;
  Vector2_scale : Vector2 R → R → Vector2 R;
}.

(** Modelled from the spec: Vector2's "rotate-about-origin";
    [Vector2_rotate p a] is [p.rotate(a)]. *)
Class Vector2Rotate (R : Type) := {
  Vector2_rotate : Vector2 R → R → Vector2 R;
}.

(** ** The node kinds *)

Module DiagramType.
Inductive t := Polygon | Curve | Diagram.
End DiagramType.

(** ** JavaScript objects used as string-keyed maps

    The own properties of an object in the order [for ... in], [JSON.stringify]
    and [Object.keys] enumerate them: first the keys that are array indices
    (canonical decimal numerals below 2^32 - 1) in ascending numeric order,
    then all other keys in the order they were first assigned.  Assigning to
    a key that exists replaces its value and keeps its place.

    The objects are plain ones, [{}]: their prototype is [Object.prototype],
    which has no enumerable property, so that [for ... in] enumerates their
    own properties and nothing else.  The one assignment that makes no own
    property is to the key ["__proto__"], see [obj_set]. *)

Definition digit (c : Ascii.ascii) : option N :=
  let n := Ascii.N_of_ascii c in
  if decide (48 ≤ n ∧ n ≤ 57)%N then Some (n - 48)%N else None.

Fixpoint digits (s : string) (acc : N) : option N :=
  match s with
  | EmptyString => Some acc
  | String c s' =>
      match digit c with
      | Some d => digits s' (10 * acc + d)%N
      | None => None
      end
  end.

(** The number a key stands for, if the key is an array index. *)
Definition array_index (k : string) : option N :=
  match digits k 0 with
  | Some n => if decide (pretty n = k ∧ (n < 4294967295)%N) then Some n else None
  | None => None
  end.

Fixpoint obj_get {V : Type} (k : string) (o : list (string * V)) : option V :=
  match o with
  | [] => None
  | (k', v) :: o' => if decide (k' = k) then Some v else obj_get k o'
  end.

Definition obj_keys {V : Type} (o : list (string * V)) : list string := o.*1.

(** [o[k] = v] for a key the object has. *)
Fixpoint obj_replace {V : Type} (k : string) (v : V) (o : list (string * V))
  : list (string * V) :=
  match o with
  | [] => []
  | (k', v') :: o' =>
      if decide (k' = k) then (k', v) :: o' else (k', v') :: obj_replace k v o'
  end.

(** [o[k] = v] for a new key [k] that is the array index [i]. *)
Fixpoint obj_insert_index {V : Type} (i : N) (k : string) (v : V)
    (o : list (string * V)) : list (string * V) :=
  match o with
  | [] => [(k, v)]
  | (k', v') :: o' =>
      match array_index k' with
      | Some j =>
          if decide (j < i)%N then (k', v') :: obj_insert_index i k v o'
          else (k, v) :: o
      | None => (k, v) :: o
      end
  end.

(** [o[k] = v] on a plain object [{}], as [children] and [paths] are.  A
    key the object has keeps its place and gets the value.  A new key
    becomes an own property, with one exception: the key ["__proto__"] is
    an accessor of [Object.prototype], so the assignment calls its setter,
    which makes [v] the prototype of [o] and gives [o] no own property.
    The list holds the own properties of [o]: it is as it was.  The
    prototype is not kept: after such an assignment the list tells what
    [JSON.stringify], and so [copy], see of [o], not what [for ... in]
    enumerates. *)
Definition obj_set {V : Type} (k : string) (v : V) (o : list (string * V))
  : list (string * V) :=
  if decide (k ∈ obj_keys o) then obj_replace k v o
  else if decide (k = "__proto__") then o
  else match array_index k with
       | Some i => obj_insert_index i k v o
       | None => o ++ [(k, v)]
       end.

(** The assignment [o[k] = v] gives [o] an own property [k], or changes
    the one it has. *)
Definition own_after_set {V : Type} (k : string) (o : list (string * V)) : Prop :=
  k ≠ "__proto__" ∨ k ∈ obj_keys o.

(** ** Heap objects *)

(** A reference is the index of its object in the heap. *)
Abbreviation ref := nat.

Section Objects.
Context {R : Type} {num : Number R}.
Context {arith : Vector2Arith R} {rot : Vector2Rotate R}.

(** [class Path { constructor(public points : Vector2[]) }].  Vector2
    values are never assigned to after construction and the [points]
    arrays are only ever replaced as a whole, so both are values here. *)
Record Path := mkPath { points : list (Vector2 R) }.

(** [class Diagram]. *)
Record Diagram := mkDiagram {
  type : DiagramType.t;
  children : list (string * ref);
  paths : list (string * ref);
  origin : Vector2 R;
  color_stroke : option string;
  color_fill : option string;
}.

Inductive object := ODiagram (d : Diagram) | OPath (p : Path).

(** The heap: the objects allocated so far, a reference being the index
    of its object. *)
Local Abbreviation Heap := (list object).

(** Field assignments on a Diagram object. *)
Definition with_children (d : Diagram) (cs : list (string * ref)) : Diagram :=
  mkDiagram (type d) cs (paths d) (origin d) (color_stroke d) (color_fill d).
Definition with_paths (d : Diagram) (ps : list (string * ref)) : Diagram :=
  mkDiagram (type d) (children d) ps (origin d) (color_stroke d) (color_fill d).
Definition with_origin (d : Diagram) (o : Vector2 R) : Diagram :=
  mkDiagram (type d) (children d) (paths d) o (color_stroke d) (color_fill d).
Definition with_color_stroke (d : Diagram) (c : option string) : Diagram :=
  mkDiagram (type d) (children d) (paths d) (origin d) c (color_fill d).
Definition with_color_fill (d : Diagram) (c : option string) : Diagram :=
  mkDiagram (type d) (children d) (paths d) (origin d) (color_stroke d) c.

(** ** The monad: heap state, thrown errors, fuel *)

Inductive Result (A : Type) :=
| Ok (a : A) (h : Heap)     (* normal completion *)
| Throw (msg : string)      (* a thrown Error, with its message *)
| OutOfFuel.                  (* the fuel of the model ran out *)
Global Arguments Ok {A} _ _.
Global Arguments Throw {A} _.
Global Arguments OutOfFuel {A}.

Definition M (A : Type) : Type := Heap → Result A.

Global Instance M_ret : MRet M := λ A a h, Ok a h.
Global Instance M_bind : MBind M := λ A B f m h,
  match m h with
  | Ok a h' => f a h'
  | Throw e => Throw e
  | OutOfFuel => OutOfFuel
  end.

Definition throw {A : Type} (msg : string) : M A := λ _, Throw msg.
Definition out_of_fuel {A : Type} : M A := λ _, OutOfFuel.

(** [new C(...)]: the new object gets the next free reference. *)
Definition new_object (o : object) : M ref := λ h, Ok (length h) (h ++ [o]).

Definition read (a : ref) : M object := λ h,
  match h !! a with
  | Some o => Ok o h
  | None => Throw "TypeError"
  end.

Definition assign (a : ref) (o : object) : M unit := λ h, Ok tt (<[a := o]> h).

Definition read_Diagram (a : ref) : M Diagram :=
  o ← read a;
  match o with ODiagram d => mret d | OPath _ => throw "TypeError" end.

Definition read_Path (a : ref) : M Path :=
  o ← read a;
  match o with OPath p => mret p | ODiagram _ => throw "TypeError" end.

(** [for (let a of l) body] and [for (let k in o) body]. *)
Fixpoint for_each {A : Type} (l : list A) (body : A → M unit) : M unit :=
  match l with
  | [] => mret tt
  | a :: l' => body a;; for_each l' body
  end.

Definition mapM {A B : Type} (f : A → M B) : list A → M (list B) :=
  fix go (l : list A) : M (list B) :=
    match l with
    | [] => mret []
    | a :: l' => b ← f a; bs ← go l'; mret (b :: bs)
    end.

(** A loop that updates local variables: the state [S] is the tuple of
    the variables the body assigns to. *)
Fixpoint foldM {A S : Type} (body : S → A → M S) (l : list A) (s : S) : M S :=
  match l with
  | [] => mret s
  | a :: l' => s' ← body s a; foldM body l' s'
  end.

(** [this.children[c]], [this.children[c] = r], and the same for paths. *)
Definition get_child (this : ref) (c : string) : M ref :=
  d ← read_Diagram this;
  match obj_get c (children d) with
  | Some r => mret r
  | None => throw "TypeError"
  end.

Definition set_child (this : ref) (c : string) (r : ref) : M unit :=
  d ← read_Diagram this;
  assign this (ODiagram (with_children d (obj_set c r (children d)))).

Definition get_path (this : ref) (p : string) : M ref :=
  d ← read_Diagram this;
  match obj_get p (paths d) with
  | Some r => mret r
  | None => throw "TypeError"
  end.

Definition set_path (this : ref) (p : string) (r : ref) : M unit :=
  d ← read_Diagram this;
  assign this (ODiagram (with_paths d (obj_set p r (paths d)))).

(** ** Path *)

Definition Path_new (pts : list (Vector2 R)) : M ref :=
  new_object (OPath (mkPath pts)).

Definition Path_copy (this : ref) : M ref :=
  p ← read_Path this;
  let newpoints := map (λ p, mkVector2 (x p) (y p)) (points p) in
  Path_new newpoints.

Definition get_parametric_point (t : R) (this : ref) : M (Vector2 R) :=
  p ← read_Path this;
  if decide (2 < length (points p))
  then throw "Get Parametric Point For n>2 is Not Implemented yet"
  else
    match last (points p), head (points p) with
    | Some end_, Some start =>
        let dir := Vector2_sub end_ start in
        mret (Vector2_add start (Vector2_scale dir t))
    | _, _ => throw "TypeError"
    end.

Definition Path_translate (v : Vector2 R) (this : ref) : M ref :=
  newp ← Path_copy this;
  p ← read_Path newp;
  assign newp (OPath (mkPath (map (λ p, Vector2_add p v) (points p))));;
  mret newp.

Definition Path_rotate (angle : R) (pivot : Vector2 R) (this : ref) : M ref :=
  newp ← Path_copy this;
  p ← read_Path newp;
  assign newp
    (OPath (mkPath (map (λ p, Vector2_add (Vector2_rotate (Vector2_sub p pivot) angle) pivot) (points p))));;
  mret newp.

(** ** JSON documents of diagrams

    [JSON.stringify(this)] writes out everything that can be reached from
    [this]: a finite tree of plain values.  Properties holding [undefined]
    are left out and read back as [undefined], which is [None] here. *)

Inductive tree :=
| Node (ty : DiagramType.t)
       (cs : list (string * tree))
       (ps : list (string * list (Vector2 R)))
       (o : Vector2 R)
       (stroke fill : option string).

Definition t_type (t : tree) := let 'Node ty _ _ _ _ _ := t in ty.
Definition t_children (t : tree) := let 'Node _ cs _ _ _ _ := t in cs.
Definition t_paths (t : tree) := let 'Node _ _ ps _ _ _ := t in ps.
Definition t_origin (t : tree) := let 'Node _ _ _ o _ _ := t in o.
Definition t_stroke (t : tree) := let 'Node _ _ _ _ s _ := t in s.
Definition t_fill (t : tree) := let 'Node _ _ _ _ _ f := t in f.

(** A Vector2 in a document: its two numbers, as JSON keeps them. *)
Definition JSON_vector (p : Vector2 R) : Vector2 R :=
  mkVector2 (JSON_number (x p)) (JSON_number (y p)).

(** On a structure that refers back to itself JSON.stringify throws a
    TypeError; in the model such a heap exhausts every amount of fuel. *)
Fixpoint JSON_stringify (n : nat) (this : ref) : M tree :=
  match n with
  | 0 => out_of_fuel
  | S n' =>
      d ← read_Diagram this;
      cs ← mapM (λ kc, t ← JSON_stringify n' kc.2; mret (kc.1, t)) (children d);
      ps ← mapM (λ kp, p ← read_Path kp.2;
                       mret (kp.1, map JSON_vector (points p)))
                (paths d);
      mret (Node (type d) cs ps (JSON_vector (origin d))
                 (color_stroke d) (color_fill d))
  end.

(** [JSON.parse]: every object of the document is a new object. *)
Fixpoint JSON_parse (t : tree) : M ref :=
  match t with
  | Node ty cs ps o stroke fill =>
      cs' ← mapM (λ kt, r ← JSON_parse kt.2; mret (kt.1, r)) cs;
      ps' ← mapM (λ kp, r ← Path_new kp.2; mret (kp.1, r)) ps;
      new_object (ODiagram (mkDiagram ty cs' ps' o stroke fill))
  end.

(** ** Diagram *)

(** [new Diagram(type_)], with the field initialisers of the class. *)
Definition Diagram_new (type_ : DiagramType.t) : M ref :=
  new_object
    (ODiagram (mkDiagram type_ [] [] (mkVector2 zero zero) None None)).

(** A missing array element is [undefined], which as a property key is
    the string "undefined". *)
Definition property_key (name : option string) : string :=
  default "undefined" name.

Definition add_childs (childs : list ref) (names : list string) (this : ref)
  : M unit :=
  for_each (imap pair childs)
    (λ '(i, child), set_child this (property_key (names !! i)) child).

Definition add_paths (paths_ : list ref) (names : list string) (this : ref)
  : M unit :=
  d ← read_Diagram this;
  match type d with
  | DiagramType.Diagram => throw "Diagram cannot have paths"
  | _ =>
      for_each (imap pair paths_)
        (λ '(i, path), set_path this (property_key (names !! i)) path)
  end.

Fixpoint copy (n : nat) (this : ref) : M ref :=
  match n with
  | 0 => out_of_fuel
  | S n' =>
      json ← JSON_stringify n this;
      newd ← JSON_parse json;
      d ← read_Diagram newd;
      for_each (obj_keys (children d))
        (λ c, child ← get_child newd c;
              r ← copy n' child;
              set_child newd c r);;
      d ← read_Diagram newd;
      for_each (obj_keys (paths d))
        (λ p, path ← get_path newd p;
              r ← Path_copy path;
              set_path newd p r);;
      mret newd
  end.

Definition set_color_fill (this : ref) (color : string) : M unit :=
  d ← read_Diagram this;
  assign this (ODiagram (with_color_fill d (Some color))).

Definition set_color_stroke (this : ref) (color : string) : M unit :=
  d ← read_Diagram this;
  assign this (ODiagram (with_color_stroke d (Some color))).

Definition set_origin (this : ref) (o : Vector2 R) : M unit :=
  d ← read_Diagram this;
  assign this (ODiagram (with_origin d o)).

Fixpoint fill (n : nat) (color : string) (this : ref) : M ref :=
  match n with
  | 0 => out_of_fuel
  | S n' =>
      newd ← copy n this;
      d ← read_Diagram newd;
      match type d with
      | DiagramType.Polygon => set_color_fill newd color
      | DiagramType.Curve => mret tt
      | DiagramType.Diagram =>
          for_each (obj_keys (children d))
            (λ c, child ← get_child newd c;
                  _ ← fill n' color child;
                  mret tt)
      end;;
      mret newd
  end.

Fixpoint stroke (n : nat) (color : string) (this : ref) : M ref :=
  match n with
  | 0 => out_of_fuel
  | S n' =>
      newd ← copy n this;
      d ← read_Diagram newd;
      match type d with
      | DiagramType.Polygon => set_color_stroke newd color
      | DiagramType.Curve => set_color_stroke newd color
      | DiagramType.Diagram =>
          for_each (obj_keys (children d))
            (λ c, child ← get_child newd c;
                  _ ← stroke n' color child;
                  mret tt)
      end;;
      mret newd
  end.

(** The local variables [minx], [miny], [maxx], [maxy] of
    [bounding_box]. *)
Record Extent := mkExtent { minx : R; miny : R; maxx : R; maxy : R }.

Definition Extent_start : Extent :=
  mkExtent Infinity Infinity (neg Infinity) (neg Infinity).

(** The body of the loop over the points of a path. *)
Definition Extent_point (b : Extent) (point : Vector2 R) : Extent :=
  mkExtent (Math_min (minx b) (x point)) (Math_min (miny b) (y point))
           (Math_max (maxx b) (x point)) (Math_max (maxy b) (y point)).

(** The body of the loop over the boxes of the children. *)
Definition Extent_box (b : Extent) (box : Vector2 R * Vector2 R) : Extent :=
  let '(min, max) := box in
  mkExtent (Math_min (minx b) (x min)) (Math_min (miny b) (y min))
           (Math_max (maxx b) (x max)) (Math_max (maxy b) (y max)).

Definition Extent_corners (b : Extent) : Vector2 R * Vector2 R :=
  (mkVector2 (minx b) (miny b), mkVector2 (maxx b) (maxy b)).

Fixpoint bounding_box (n : nat) (this : ref) : M (Vector2 R * Vector2 R) :=
  match n with
  | 0 => out_of_fuel
  | S n' =>
      d ← read_Diagram this;
      match type d with
      | DiagramType.Polygon =>
          b ← foldM (λ b p, path ← get_path this p;
                            pa ← read_Path path;
                            mret (fold_left Extent_point (points pa) b))
                    (obj_keys (paths d)) Extent_start;
          mret (Extent_corners b)
      | DiagramType.Curve =>
          b ← foldM (λ b p, path ← get_path this p;
                            pa ← read_Path path;
                            mret (fold_left Extent_point (points pa) b))
                    (obj_keys (paths d)) Extent_start;
          mret (Extent_corners b)
      | DiagramType.Diagram =>
          b ← foldM (λ b c, child ← get_child this c;
                            box ← bounding_box n' child;
                            mret (Extent_box b box))
                    (obj_keys (children d)) Extent_start;
          mret (Extent_corners b)
      end
  end.

Fixpoint translate (n : nat) (v : Vector2 R) (this : ref) : M ref :=
  match n with
  | 0 => out_of_fuel
  | S n' =>
      newd ← copy n this;
      d ← read_Diagram newd;
      set_origin newd (Vector2_add (origin d) v);;
      d ← read_Diagram newd;
      for_each (obj_keys (children d))
        (λ c, child ← get_child newd c;
              r ← translate n' v child;
              set_child newd c r);;
      d ← read_Diagram newd;
      for_each (obj_keys (paths d))
        (λ p, path ← get_path newd p;
              r ← Path_translate v path;
              set_path newd p r);;
      mret newd
  end.

Definition position (n : nat) (v : Vector2 R) (this : ref) : M ref :=
  d ← read_Diagram this;
  let dv := Vector2_sub v (origin d) in
  newd ← translate n dv this;
  mret newd.

Fixpoint rotate (n : nat) (angle : R) (pivot : option (Vector2 R))
    (this : ref) : M ref :=
  match n with
  | 0 => out_of_fuel
  | S n' =>
      newd ← copy n this;
      d ← read_Diagram newd;
      let pivot := match pivot with Some p => p | None => origin d end in
      for_each (obj_keys (children d))
        (λ c, child ← get_child newd c;
              r ← rotate n' angle (Some pivot) child;
              set_child newd c r);;
      d ← read_Diagram newd;
      for_each (obj_keys (paths d))
        (λ p, path ← get_path newd p;
              r ← Path_rotate angle pivot path;
              set_path newd p r);;
      mret newd
  end.

(** ** polygon *)

Definition assert (condition : bool) (message : string) : M unit :=
  if condition then mret tt else throw message.

Definition polygon (points : list (Vector2 R)) (names : list string) : M ref :=
  assert (bool_decide (3 ≤ length points)) "Polygon must have at least 3 points";;
  paths ← mapM (λ i, match points !! i, points !! (i + 1) with
                     | Some p, Some q => Path_new [p; q]
                     | _, _ => throw "TypeError"
                     end)
               (seq 0 (length points - 1));
  let path_names := map (λ i : nat, "path" +:+ pretty i) (seq 0 (length paths)) in
  let imax := Nat.min (length path_names) (length names) in
  let path_names :=
    fold_left (λ pn i, match names !! i with
                       | Some name => <[i := name]> pn
                       | None => pn
                       end)
              (seq 0 imax) path_names in
  polygon ← Diagram_new DiagramType.Polygon;
  add_paths paths path_names polygon;;
  mret polygon.

End Objects.

Abbreviation Heap := (list object).

(** ** Instances of the number and vector classes *)

(** IEEE 754 doubles, the numbers of JavaScript.  [Math.min] and [Math.max]
    as ECMAScript defines them on two arguments: NaN if either is NaN, and
    -0 counts as smaller than +0. *)
Module Double.
Definition is_neg_zero (a : float) : bool :=
  PrimFloat.is_zero a && PrimFloat.get_sign a.

Definition min (a b : float) : float :=
  if PrimFloat.is_nan a || PrimFloat.is_nan b then PrimFloat.nan
  else if PrimFloat.ltb a b then a
  else if PrimFloat.ltb b a then b
  else if is_neg_zero a then a else b.

Definition max (a b : float) : float :=
  if PrimFloat.is_nan a || PrimFloat.is_nan b then PrimFloat.nan
  else if PrimFloat.ltb a b then b
  else if PrimFloat.ltb b a then a
  else if is_neg_zero a then b else a.

(** [JSON.stringify] writes NaN and the infinities as [null] and -0 as
    [0]; [null] read where a number is expected (by [+], [-], [*],
    [Math.min], [Math.max] and by [JSON.stringify] again) counts as 0, and
    is 0 here. *)
Definition JSON_double (a : float) : float :=
  if PrimFloat.is_nan a || PrimFloat.is_infinity a then PrimFloat.zero
  else if PrimFloat.is_zero a then PrimFloat.zero
  else a.

Global Instance number : Number float.
Proof.
  refine {| zero := PrimFloat.zero;
            Infinity := PrimFloat.infinity;
            neg := PrimFloat.opp;
            Math_min := min;
            Math_max := max;
            JSON_number := JSON_double;
            JSON_number_twice := _ |}.
  intros a. unfold JSON_double at 2 3.
  destruct (PrimFloat.is_nan a || PrimFloat.is_infinity a) eqn:E1;
    [reflexivity|].
  destruct (PrimFloat.is_zero a) eqn:E2; [reflexivity|].
  unfold JSON_double. rewrite E1, E2. reflexivity.
Defined.

(** Modelled from the spec: Vector2's add, subtract and scale, taken
    componentwise. *)
Global Instance arith : Vector2Arith float := {|
  Vector2_add p q := mkVector2 (PrimFloat.add (x p) (x q)) (PrimFloat.add (y p) (y q));
  Vector2_sub p q := mkVector2 (PrimFloat.sub (x p) (x q)) (PrimFloat.sub (y p) (y q));
  Vector2_scale p s := mkVector2 (PrimFloat.mul (x p) s) (PrimFloat.mul (y p) s);
|}.

(** Modelled from the spec: Vector2's rotate-about-origin.  ECMAScript
    leaves [Math.cos] and [Math.sin] implementation-approximated; here they
    are their Taylor polynomials of degree 12 and 13, good for small angles
    and exact at 0 (cos 0 = 1, sin 0 = 0).  No theorem rests on what they
    compute elsewhere: they complete the instance the examples run on. *)
Definition cos (a : float) : float :=
  let a2 := PrimFloat.mul a a in
  (1 - a2 / 2 * (1 - a2 / 12 * (1 - a2 / 30 * (1 - a2 / 56 *
    (1 - a2 / 90 * (1 - a2 / 132))))))%float.

Definition sin (a : float) : float :=
  let a2 := PrimFloat.mul a a in
  (a * (1 - a2 / 6 * (1 - a2 / 20 * (1 - a2 / 42 * (1 - a2 / 72 *
    (1 - a2 / 110 * (1 - a2 / 156)))))))%float.

Global Instance rot : Vector2Rotate float := {|
  Vector2_rotate p a :=
    mkVector2 (PrimFloat.sub (PrimFloat.mul (x p) (cos a)) (PrimFloat.mul (y p) (sin a)))
              (PrimFloat.add (PrimFloat.mul (x p) (sin a)) (PrimFloat.mul (y p) (cos a)));
|}.
End Double.


(** ** What a reference stands for

    [repr_on P h a t]: in the heap [h] the reference [a] is a Diagram whose
    unfolding is the tree [t], and every object met on the way (nodes and
    paths) has a reference in [P].  Objects have unique property names, and
    their [children] and [paths] are plain objects with the properties
    listed. *)

Section Representation.
Context {R : Type}.
Implicit Types (h : list (object (R:=R))) (t : tree (R:=R)) (P : ref → Prop).

Fixpoint height (t : tree (R:=R)) : nat :=
  match t with
  | Node _ cs _ _ _ _ => S (foldr (λ kt m, Nat.max (height kt.2) m) 0 cs)
  end.

Definition path_on P h (kr : string * ref) (kp : string * list (Vector2 R))
  : Prop :=
  kr.1 = kp.1 ∧ P kr.2 ∧ h !! kr.2 = Some (OPath (mkPath kp.2)).

Inductive repr_on P h : ref → tree (R:=R) → Prop :=
| repr_on_node a d t :
    P a →
    h !! a = Some (ODiagram d) →
    type d = t_type t →
    origin d = t_origin t →
    color_stroke d = t_stroke t →
    color_fill d = t_fill t →
    NoDup (obj_keys (children d)) →
    NoDup (obj_keys (paths d)) →
    Forall2 (λ kr kt, kr.1 = kt.1 ∧ repr_on P h kr.2 kt.2)
            (children d) (t_children t) →
    Forall2 (path_on P h) (paths d) (t_paths t) →
    repr_on P h a t.

Definition child_on P h (kr : string * ref) (kt : string * tree (R:=R))
  : Prop :=
  kr.1 = kt.1 ∧ repr_on P h kr.2 kt.2.

(** The object at [a] alone, its children and paths being in [P]. *)
Definition node_on P h (a : ref) t : Prop :=
  ∃ d, h !! a = Some (ODiagram d) ∧
       type d = t_type t ∧ origin d = t_origin t ∧
       color_stroke d = t_stroke t ∧ color_fill d = t_fill t ∧
       NoDup (obj_keys (children d)) ∧ NoDup (obj_keys (paths d)) ∧
       Forall2 (child_on P h) (children d) (t_children t) ∧
       Forall2 (path_on P h) (paths d) (t_paths t).

Definition repr h (a : ref) t : Prop := repr_on (λ _, True) h a t.

(** The tree of a reference, read off the heap. *)
Fixpoint tree_of (n : nat) (a : ref) : M (R:=R) (tree (R:=R)) :=
  match n with
  | 0 => out_of_fuel
  | S n' =>
      d ← read_Diagram a;
      cs ← mapM (λ kc, t ← tree_of n' kc.2; mret (kc.1, t)) (children d);
      ps ← mapM (λ kp, p ← read_Path kp.2; mret (kp.1, points p)) (paths d);
      mret (Node (type d) cs ps (origin d) (color_stroke d) (color_fill d))
  end.

(** A tree all of whose objects were allocated after the heap had
    [L] objects. *)
Definition new_since (L : nat) h (a : ref) t : Prop :=
  repr_on (λ a, L ≤ a) h a t.

(** Property names are unique at every node. *)
Inductive wf : tree (R:=R) → Prop :=
| wf_node t :
    NoDup (t_children t).*1 → NoDup (t_paths t).*1 →
    Forall (λ kt, wf kt.2) (t_children t) →
    wf t.

(** Trees with one attribute replaced, and maps over the entries of
    [children] and [paths]. *)
Definition t_with_children t cs :=
  Node (t_type t) cs (t_paths t) (t_origin t) (t_stroke t) (t_fill t).
Definition t_with_paths t ps :=
  Node (t_type t) (t_children t) ps (t_origin t) (t_stroke t) (t_fill t).
Definition t_with_origin t o :=
  Node (t_type t) (t_children t) (t_paths t) o (t_stroke t) (t_fill t).
Definition t_with_stroke t c :=
  Node (t_type t) (t_children t) (t_paths t) (t_origin t) c (t_fill t).
Definition t_with_fill t c :=
  Node (t_type t) (t_children t) (t_paths t) (t_origin t) (t_stroke t) c.

Definition on_trees (F : tree (R:=R) → tree (R:=R))
    (cs : list (string * tree (R:=R))) : list (string * tree (R:=R)) :=
  map (λ kt, (kt.1, F kt.2)) cs.

Definition on_points (G : list (Vector2 R) → list (Vector2 R))
    (ps : list (string * list (Vector2 R))) : list (string * list (Vector2 R)) :=
  map (λ kp, (kp.1, G kp.2)) ps.

(** The outcome all node-producing methods share: a result [k], the old
    heap kept as it was, and the result a tree of new objects. *)
Definition returns_new (m : M (R:=R) ref) h t : Prop :=
  ∃ k h', m h = Ok k h' ∧ h `prefix_of` h' ∧ new_since (length h) h' k t.
End Representation.

(** ** Trees after a method call

    The tree a method's result stands for, as a function of the tree of
    the clone the method starts from, which is [JSON_tree] of the tree of
    its receiver. *)

Section Outcomes.
Context {R : Type} {num : Number R}.
Context {arith : Vector2Arith R} {rot : Vector2Rotate R}.
Implicit Types (t : tree (R:=R)).

(** The document of a tree read back: every number as JSON keeps it.
    This is the tree [copy] returns. *)
Fixpoint JSON_tree t : tree :=
  match t with
  | Node ty cs ps o s f =>
      Node ty
           (map (λ kt, (kt.1, JSON_tree kt.2)) cs)
           (map (λ kp, (kp.1, map JSON_vector kp.2)) ps)
           (JSON_vector o) s f
  end.

(** [fill] assigns [color_fill] on a Polygon and nothing else. *)
Definition filled (color : string) t : tree :=
  match t_type t with
  | DiagramType.Polygon => t_with_fill t (Some color)
  | DiagramType.Curve => t
  | DiagramType.Diagram => t
  end.

(** [stroke] assigns [color_stroke] on a Polygon or Curve and nothing
    else. *)
Definition stroked (color : string) t : tree :=
  match t_type t with
  | DiagramType.Polygon => t_with_stroke t (Some color)
  | DiagramType.Curve => t_with_stroke t (Some color)
  | DiagramType.Diagram => t
  end.

(** Every origin and every point of every path moved by [v]. *)
Fixpoint shift (v : Vector2 R) t : tree :=
  match t with
  | Node ty cs ps o s f =>
      Node ty
           (map (λ kt, (kt.1, shift v kt.2)) cs)
           (map (λ kp, (kp.1, map (λ p, Vector2_add p v) kp.2)) ps)
           (Vector2_add o v) s f
  end.

(** A point turned by [angle] about [pivot]. *)
Definition turn_point (angle : R) (pivot p : Vector2 R) : Vector2 R :=
  Vector2_add (Vector2_rotate (Vector2_sub p pivot) angle) pivot.

(** Every point of every path turned about the one [pivot], the
    origins left where they are. *)
Fixpoint turn (angle : R) (pivot : Vector2 R) t : tree :=
  match t with
  | Node ty cs ps o s f =>
      Node ty
           (map (λ kt, (kt.1, turn angle pivot kt.2)) cs)
           (map (λ kp, (kp.1, map (turn_point angle pivot) kp.2)) ps)
           o s f
  end.
End Outcomes.

(** ** Bounding boxes, stated on trees *)

Section Boxes.
Context {R : Type} {num : Number R}.
Implicit Types (t : tree (R:=R)).

(** What [bounding_box] computes, read off the tree of its receiver. *)
Fixpoint bbox (t : tree (R:=R)) : Vector2 R * Vector2 R :=
  match t with
  | Node ty cs ps _ _ _ =>
      match ty with
      | DiagramType.Polygon | DiagramType.Curve =>
          Extent_corners
            (fold_left (λ b kp, fold_left Extent_point kp.2 b) ps Extent_start)
      | DiagramType.Diagram =>
          Extent_corners
            (fold_left (λ b kt, Extent_box b (bbox kt.2)) cs Extent_start)
      end
  end.







(** All points of all paths of a tree, the nodes in preorder. *)
Fixpoint all_points (t : tree (R:=R)) : list (Vector2 R) :=
  match t with
  | Node _ cs ps _ _ _ =>
      concat ps.*2 ++ concat (map (λ kt, all_points kt.2) cs)
  end.

(** All origins of a tree, the nodes in preorder. *)
Fixpoint all_origins (t : tree (R:=R)) : list (Vector2 R) :=
  match t with
  | Node _ cs _ o _ _ => o :: concat (map (λ kt, all_origins kt.2) cs)
  end.

(** Two trees of one shape (same types and names at every node) with the
    same origin at every node. *)
Inductive same_origins : tree (R:=R) → tree (R:=R) → Prop :=
| same_origins_node t t' :
    t_type t = t_type t' →
    t_origin t = t_origin t' →
    Forall2 (λ kt kt', kt.1 = kt'.1 ∧ same_origins kt.2 kt'.2)
            (t_children t) (t_children t') →
    same_origins t t'.
End Boxes.

(** ** Names given to children and paths *)

(** The entries [add_childs] and [add_paths] assign, in order: item [i]
    under the key [names[i]]. *)
Definition given_entries (items : list ref) (names : list string)
  : list (string * ref) :=
  imap (λ i item, (property_key (names !! i), item)) items.

(** Assigning a list of entries to a property list, one after the other. *)
Definition obj_set_all {V : Type} (entries o : list (string * V))
  : list (string * V) :=
  fold_left (λ o kv, obj_set kv.1 kv.2 o) entries o.

(** The last entry given under the name [s], if any. *)
Definition last_given {V : Type} (s : string) (entries : list (string * V))
  : option V :=
  snd <$> last (filter (λ kv, kv.1 = s) entries).

(** [path0], [path1], ... *)
Definition default_names (n : nat) : list string :=
  map (λ i : nat, "path" +:+ pretty i) (seq 0 n).

(** The default names with a prefix of them overridden by [names]. *)
Definition polygon_names (n : nat) (names : list string) : list string :=
  let imax := Nat.min n (length names) in
  take imax names ++ drop imax (default_names n).

(** The segments joining each point to the next one. *)
Definition polygon_paths {R : Type} (points : list (Vector2 R))
  : list (list (Vector2 R)) :=
  zip_with (λ p q, [p; q]) points (tail points).

(** The object a call of [polygon] makes, [first] being the reference of
    its first path. *)
Definition polygon_object {R : Type} {num : Number R}
    (points : list (Vector2 R)) (names : list string) (first : ref)
  : Diagram (R:=R) :=
  let n := length points - 1 in
  mkDiagram DiagramType.Polygon []
            (obj_set_all (zip (polygon_names n names) (seq first n)) [])
            (mkVector2 zero zero) None None.

(** ** The node-producing operations as one family *)

Section Operations.
Context {R : Type} {num : Number R}.
Context {arith : Vector2Arith R} {rot : Vector2Rotate R}.

Inductive operation :=
| Fill (color : string)
| Stroke (color : string)
| Translate (v : Vector2 R)
| Position (v : Vector2 R)
| Rotate (angle : R) (pivot : option (Vector2 R)).

Definition apply_operation (n : nat) (op : operation) (this : ref) : M (R:=R) ref :=
  match op with
  | Fill color => fill n color this
  | Stroke color => stroke n color this
  | Translate v => translate n v this
  | Position v => position n v this
  | Rotate angle pivot => rotate n angle pivot this
  end.

(** The tree of the result, from the tree of the receiver: every method
    works on the clone, [position] taking [dv] from the receiver itself. *)
Definition outcome (op : operation) (t : tree (R:=R)) : tree (R:=R) :=
  let c := JSON_tree t in
  match op with
  | Fill color => filled color c
  | Stroke color => stroked color c
  | Translate v => shift v c
  | Position v => shift (Vector2_sub v (t_origin t)) c
  | Rotate angle pivot => turn angle (default (t_origin c) pivot) c
  end.
End Operations.

(** ** Notions used in the proofs *)

Section ProofNotions.
Context {R : Type}.
Implicit Types (h : list (object (R:=R))) (t : tree (R:=R)).

(** [this.fld[c]] and [this.fld[c] = r] for a field [fld] that holds a
    property list, [upd] being the assignment to the field. *)
Definition get_entry (fld : Diagram (R:=R) → list (string * ref))
    (this : ref) (c : string) : M (R:=R) ref :=
  d ← read_Diagram this;
  match obj_get c (fld d) with
  | Some r => mret r
  | None => throw "TypeError"
  end.

Definition set_entry (fld : Diagram (R:=R) → list (string * ref))
    (upd : Diagram (R:=R) → list (string * ref) → Diagram (R:=R))
    (this : ref) (c : string) (r : ref) : M (R:=R) unit :=
  d ← read_Diagram this;
  assign this (ODiagram (upd d (obj_set c r (fld d)))).

(** [h'] has every object of [h], the one at [k] possibly changed. *)
Definition unchanged_but (k : ref) h h' : Prop :=
  length h ≤ length h' ∧ ∀ a o, a ≠ k → h !! a = Some o → h' !! a = Some o.

(** References of objects allocated since the heap had [L] objects,
    the node [k] itself left out. *)
Definition below (L : nat) (k : ref) : ref → Prop := λ a, L ≤ a ∧ a ≠ k.

(** What parsing one document yields: a new node at [k], the last object
    of the heap, with everything below it allocated before it. *)
Definition parsed h t (k : ref) h' : Prop :=
  h `prefix_of` h' ∧ length h ≤ k ∧ length h' = S k ∧
  node_on (λ a, length h ≤ a ∧ a < k) h' k t.

(** What [copy] leaves behind, for the methods that go on to assign to
    the clone: the clone [k] is a new node whose children and paths are new
    objects other than [k]. *)
Definition cloned h t (k : ref) h' : Prop :=
  h `prefix_of` h' ∧ length h ≤ k ∧ node_on (below (length h) k) h' k t.
End ProofNotions.

(** ** Anchors *)

(** [enum Anchor]: each member is the string the source gives it. *)
Module Anchor.

End Anchor.

(** The arithmetic on numbers: [a + b], [a - b], [a * b], [a / b] and the
    literal 2. *)
Class NumberArith (R : Type) := {
  Number_add : R → R → R;
  Number_sub : R → R → R;
  Number_mul : R → R → R;
  Number_div : R → R → R;
  two : R;
}.

Global Instance Double_arith : NumberArith float := {|
  Number_add := PrimFloat.add;
  Number_sub := PrimFloat.sub;
  Number_mul := PrimFloat.mul;
  Number_div := PrimFloat.div;
  two := 2%float;
|}.

Section Anchors.
Context {R : Type} {num : Number R} {ops : NumberArith R}.


End Anchors.

(** ** What no method changes

    The outline of a tree: its types, the names of children and paths in
    their order, the colours, and how many points every path has. *)

Inductive Outline :=
| OutlineNode (ty : DiagramType.t)
              (cs : list (string * Outline))
              (ps : list (string * nat))
              (stroke fill : option string).

Fixpoint outline {R : Type} (t : tree (R:=R)) : Outline :=
  match t with
  | Node ty cs ps _ s f =>
      OutlineNode ty
        (map (λ kt, (kt.1, outline kt.2)) cs)
        (map (λ kp, (kp.1, length kp.2)) ps)
        s f
  end.

(** The entries [add_childs] and [add_paths] assign, for items of any
    kind: item [i] under the key [names[i]]. *)
Definition named {A : Type} (names : list string) (items : list A)
  : list (string * A) :=
  imap (λ i item, (property_key (names !! i), item)) items.

(** ** Plots of data (shapes_graph.ts)

    The plotting functions are written against a later [Diagram] than
    the one above; of the code they call, [curve], [diagram_combine], the
    methods [stroke], [fill] and [transform] of that [Diagram], and [V2] are
    not among the sources and are parameters here. *)

(** The comparisons [a <= b] and [a >= b] of numbers. *)
Class NumberOrder (R : Type) := {
  Number_le : R → R → bool;
  Number_ge : R → R → bool;
}.

Global Instance Double_order : NumberOrder float := {|
  Number_le := PrimFloat.leb;
  Number_ge a b := PrimFloat.leb b a;
|}.

(** A property of an object that its type marks optional: it may be
    missing, be there with the value [undefined], or have a value. *)
Inductive property (A : Type) :=
| absent
| undefined
| value (a : A).
Arguments absent {A}.
Arguments undefined {A}.
Arguments value {A} _.

(** [type axes_options]; the fields are in a module of their own, since
    [bbox] is a name already. *)
Module Axes.
Record axes_options (R : Type) := mk_axes_options {
  xrange : R * R;
  yrange : R * R;
  bbox : property (Vector2 R * Vector2 R);
  xticks : property (list R);
  yticks : property (list R);
  n : property R;
}.
Arguments mk_axes_options {R} _ _ _ _ _ _.
Arguments xrange {R} _.
Arguments yrange {R} _.
Arguments bbox {R} _.
Arguments xticks {R} _.
Arguments yticks {R} _.
Arguments n {R} _.
End Axes.
Abbreviation axes_options := Axes.axes_options.

(** One property of [{...below, ...above}]: that of [above] where [above]
    has the property, whatever its value, and that of [below] otherwise. *)
Definition spread_property {A : Type} (below above : property A) : property A :=
  match above with
  | absent => below
  | _ => above
  end.

(** [{...defaults, ...given}], [given] being possibly [undefined]. *)
Definition spread {R : Type} (defaults : axes_options R)
    (given : option (axes_options R)) : axes_options R :=
  match given with
  | None => defaults
  | Some o =>
      Axes.mk_axes_options (Axes.xrange o) (Axes.yrange o)
        (spread_property (Axes.bbox defaults) (Axes.bbox o))
        (spread_property (Axes.xticks defaults) (Axes.xticks o))
        (spread_property (Axes.yticks defaults) (Axes.yticks o))
        (spread_property (Axes.n defaults) (Axes.n o))
  end.

Section Plots.
Context {R : Type} {ops : NumberArith R} {ord : NumberOrder R}.

(** The exported variable [default_axes_options], with the value it has
    when the functions below are called. *)
Variable default_axes_options : axes_options R.

(** The code that is not among the sources. *)
Variable V2 : R → R → Vector2 R.
Variable D : Type.
Variable curve : list (Vector2 R) → D.
Variable diagram_combine : list D → D.
Variable D_stroke : D → string → D.
Variable D_fill : D → string → D.
Variable D_transform : D → (Vector2 R → Vector2 R) → D.

Definition axes_transform (given : option (axes_options R))
  : Vector2 R → Vector2 R :=
  let opt := spread default_axes_options given in
  let bbox :=
    match Axes.bbox opt with
    | value b => b
    | _ =>
        let '(xmin, xmax) := Axes.xrange opt in
        let '(ymin, ymax) := Axes.yrange opt in
        (V2 xmin ymin, V2 xmax ymax)
    end in
  let '(lowerleft, upperright) := bbox in
  let '(xmin, xmax) := Axes.xrange opt in
  let '(ymin, ymax) := Axes.yrange opt in
  λ v,
    let x_ :=
      Number_add (x lowerleft)
        (Number_mul (Number_div (Number_sub (x v) xmin) (Number_sub xmax xmin))
                    (Number_sub (x upperright) (x lowerleft))) in
    let y_ :=
      Number_add (y lowerleft)
        (Number_mul (Number_div (Number_sub (y v) ymin) (Number_sub ymax ymin))
                    (Number_sub (y upperright) (y lowerleft))) in
    V2 x_ y_.

(** [is_inside] of the loop of [plotv]. *)
Definition is_inside (opt : axes_options R) (p : Vector2 R) : bool :=
  let '(xmin, xmax) := Axes.xrange opt in
  let '(ymin, ymax) := Axes.yrange opt in
  Number_ge (x p) xmin && Number_le (x p) xmax &&
  Number_ge (y p) ymin && Number_le (y p) ymax.

(** The body of the loop of [plotv], on the variables [segments] and
    [current_segment]. *)
Definition plotv_step (opt : axes_options R)
    (st : list (list (Vector2 R)) * list (Vector2 R)) (p : Vector2 R)
  : list (list (Vector2 R)) * list (Vector2 R) :=
  let '(segments, current_segment) := st in
  if negb (is_inside opt p) then
    (if bool_decide (1 < length current_segment)
     then segments ++ [current_segment] else segments,
     [])
  else (segments, current_segment ++ [p]).

(** [segments] when [plotv] is done with it: after the loop and the
    [if] that follows the loop. *)
Definition plotv_segments (opt : axes_options R) (data : list (Vector2 R))
  : list (list (Vector2 R)) :=
  let '(segments, current_segment) := fold_left (plotv_step opt) data ([], []) in
  if bool_decide (1 < length current_segment)
  then segments ++ [current_segment] else segments.

Definition plotv (data : list (Vector2 R)) (given : option (axes_options R)) : D :=
  let opt := spread default_axes_options given in
  let segments := plotv_segments opt data in
  let path_diagrams := map curve segments in
  let d :=
    match path_diagrams with
    | [d] => d
    | _ => D_fill (D_stroke (diagram_combine path_diagrams) "black") "none"
    end in
  D_transform d (axes_transform (Some opt)).

(** [plot]: [inl] is the message of the Error it throws, [inr] what it
    returns.  Past the test both arrays have the same length, so that
    [ydata[i]] is a number for every [i] of [xdata.map]. *)
Definition plot (xdata ydata : list R) (given : option (axes_options R))
  : string + D :=
  if bool_decide (length xdata ≠ length ydata)
  then inl "xdata and ydata must have the same length"
  else
    let vdata := zip_with V2 xdata ydata in
    inr (plotv vdata given).

(** A run of [l]: two or more consecutive points inside the range, with
    no point inside the range right before or right after them. *)
Definition run_of (opt : axes_options R) (l s : list (Vector2 R)) : Prop :=
  2 ≤ length s ∧ Forall (λ p, is_inside opt p = true) s ∧
  ∃ before after,
    l = before ++ s ++ after ∧
    (∀ p, last before = Some p → is_inside opt p = false) ∧
    (∀ p, head after = Some p → is_inside opt p = false).

(** What holds of [segments] and [current_segment] when the loop of
    [plotv] is past the points [l]. *)
Definition runs_seen (opt : axes_options R) (l : list (Vector2 R))
    (st : list (list (Vector2 R)) * list (Vector2 R)) : Prop :=
  Forall (λ p, is_inside opt p = true) st.2 ∧
  (∃ before, l = before ++ st.2 ∧
             ∀ p, last before = Some p → is_inside opt p = false) ∧
  ∀ s, s ∈ st.1 →
    2 ≤ length s ∧ Forall (λ p, is_inside opt p = true) s ∧
    ∃ before p after,
      l = before ++ s ++ p :: after ∧
      (∀ p, last before = Some p → is_inside opt p = false) ∧
      is_inside opt p = false.

(** The [if] that follows the loop. *)
Definition plotv_last (st : list (list (Vector2 R)) * list (Vector2 R))
  : list (list (Vector2 R)) :=
  if bool_decide (1 < length st.2) then st.1 ++ [st.2] else st.1.
End Plots.

(** ** Examples, in doubles *)

Module Examples.
Definition V (a b : float) : Vector2 float := mkVector2 a b.

(** [polygon([V(0,0), V(1,0), V(0,1)])] *)
Definition triangle : M ref := polygon [V 0 0; V 1 0; V 0 1] [].

(** A Curve with the one path from (0,0) to (1,1), built with the
    constructor and [add_paths]. *)
Definition open_curve : M ref :=
  curve ← Diagram_new DiagramType.Curve;
  path ← Path_new [V 0 0; V 1 1];
  add_paths [path] ["path0"] curve;;
  mret curve.

(** A Group with two children, the triangle and the curve. *)
Definition group : M ref :=
  p ← triangle;
  c ← open_curve;
  g ← Diagram_new DiagramType.Diagram;
  add_childs [p; c] ["polygon"; "curve"] g;;
  mret g.

(** The heap [group] leaves when run on the empty heap, the Group being
    its object 5. *)
Definition group_heap : list (object (R:=float)) :=
  [ OPath (mkPath [V 0 0; V 1 0]);
    OPath (mkPath [V 1 0; V 0 1]);
    ODiagram (mkDiagram DiagramType.Polygon [] [("path0", 0); ("path1", 1)]
                        (V 0 0) None None);
    ODiagram (mkDiagram DiagramType.Curve [] [("path0", 4)] (V 0 0) None None);
    OPath (mkPath [V 0 0; V 1 1]);
    ODiagram (mkDiagram DiagramType.Diagram [("polygon", 2); ("curve", 3)] []
                        (V 0 0) None None) ].

Definition triangle_tree : tree (R:=float) :=
  Node DiagramType.Polygon []
       [("path0", [V 0 0; V 1 0]); ("path1", [V 1 0; V 0 1])]
       (V 0 0) None None.

Definition curve_tree : tree (R:=float) :=
  Node DiagramType.Curve [] [("path0", [V 0 0; V 1 1])] (V 0 0) None None.

Definition group_tree : tree (R:=float) :=
  Node DiagramType.Diagram [("polygon", triangle_tree); ("curve", curve_tree)]
       [] (V 0 0) None None.

(** An empty Group moved to (Infinity, 0) and then given the triangle as
    its child: its origin is (Infinity, 0), its points are finite. *)
Definition far_group : M ref :=
  g ← Diagram_new DiagramType.Diagram;
  far ← translate 1 (V infinity 0) g;
  p ← triangle;
  add_childs [p] ["polygon"] far;;
  mret far.

(** The heap [far_group] leaves when run on the empty heap, the Group
    being its object 1. *)
Definition far_group_heap : list (object (R:=float)) :=
  [ ODiagram (mkDiagram DiagramType.Diagram [] [] (V 0 0) None None);
    ODiagram (mkDiagram DiagramType.Diagram [("polygon", 4)] []
                        (V infinity 0) None None);
    OPath (mkPath [V 0 0; V 1 0]);
    OPath (mkPath [V 1 0; V 0 1]);
    ODiagram (mkDiagram DiagramType.Polygon [] [("path0", 2); ("path1", 3)]
                        (V 0 0) None None) ].

Definition far_group_tree : tree (R:=float) :=
  Node DiagramType.Diagram [("polygon", triangle_tree)] [] (V infinity 0)
       None None.

(** The tree of the result of a program run on the empty heap. *)
Definition observe (n : nat) (m : M (R:=float) ref) : option (tree (R:=float)) :=
  match (r ← m; tree_of n r) [] with
  | Ok t _ => Some t
  | _ => None
  end.

(** The origin of the result of a program run on the empty heap. *)
Definition origin_after (m : M (R:=float) ref) : option (Vector2 float) :=
  match (r ← m; d ← read_Diagram r; mret (origin d)) [] with
  | Ok o _ => Some o
  | _ => None
  end.

(** All points of the result of a program run on the empty heap. *)
Definition points_after (n : nat) (m : M (R:=float) ref)
  : option (list (Vector2 float)) :=
  all_points <$> observe n m.

(** [triangle.translate(V(3.3, 0))], with its origin at (3.3, 0). *)
Definition moved_triangle : M ref :=
  t ← triangle;
  translate 1 (V 3.3 0) t.

(** [triangle.translate(V(Infinity, 0))], with its origin at
    (Infinity, 0). *)
Definition infinite_triangle : M ref :=
  t ← triangle;
  translate 1 (V infinity 0) t.

(** [default_axes_options] as the source sets it. *)
Definition default_axes_options : axes_options float :=
  Axes.mk_axes_options ((-2)%float, 2%float) ((-2)%float, 2%float)
                       undefined undefined undefined (value 100%float).

(** Stand-ins for the drawing functions of the later [Diagram], to run
    the plotting functions on: a diagram is the list of its curves, and
    colours are not kept. *)
Definition drawing : Type := list (list (Vector2 float)).
Definition draw_curve (points : list (Vector2 float)) : drawing := [points].
Definition draw_combine (ds : list drawing) : drawing := concat ds.
Definition draw_colour (d : drawing) (color : string) : drawing := d.
Definition draw_transform (d : drawing) (f : Vector2 float → Vector2 float)
  : drawing :=
  map (map f) d.

Definition draw_plot (xdata ydata : list float) : string + drawing :=
  plot default_axes_options V drawing draw_curve draw_combine
       draw_colour draw_colour draw_transform xdata ydata None.
End Examples.

(** * Proofs *)

(** ** Running the monad *)

Section MonadFacts.
Context {R : Type}.
Implicit Types (h : list (object (R:=R))).

Lemma bind_Ok {A B} (m : M (R:=R) A) (f : A → M B) h a h' :
  m h = Ok a h' → (m ≫= f) h = f a h'.
Proof. intros E. unfold mbind, M_bind. by rewrite E. Qed.

Lemma bind_Throw {A B} (m : M (R:=R) A) (f : A → M B) h e :
  m h = Throw e → (m ≫= f) h = Throw e.
Proof. intros E. unfold mbind, M_bind. by rewrite E. Qed.

Lemma read_Diagram_Ok h a d :
  h !! a = Some (ODiagram d) → read_Diagram a h = Ok d h.
Proof. intros E. unfold read_Diagram, read, mbind, M_bind. by rewrite E. Qed.

Lemma read_Path_Ok h a p :
  h !! a = Some (OPath p) → read_Path a h = Ok p h.
Proof. intros E. unfold read_Path, read, mbind, M_bind. by rewrite E. Qed.

Lemma mapM_cons {A B} (f : A → M (R:=R) B) a l :
  mapM f (a :: l) = (b ← f a; bs ← mapM f l; mret (b :: bs)).
Proof. done. Qed.

Lemma for_each_cons {A} (body : A → M (R:=R) unit) a l :
  for_each (a :: l) body = (body a;; for_each l body).
Proof. done. Qed.

Lemma foldM_cons {A S} (body : S → A → M (R:=R) S) a l s :
  foldM body (a :: l) s = (s' ← body s a; foldM body l s').
Proof. done. Qed.

Lemma mapM_read {A B} (f : A → M (R:=R) B) l l' h :
  Forall2 (λ a b, f a h = Ok b h) l l' → mapM f l h = Ok l' h.
Proof.
  induction 1 as [|a b l l' E _ IH]; [done|].
  rewrite mapM_cons, (bind_Ok _ _ _ _ _ E).
  by rewrite (bind_Ok _ _ _ _ _ IH).
Qed.
End MonadFacts.

(** ** Property lists *)

Example array_index_examples :
  array_index "0" = Some 0%N ∧ array_index "12" = Some 12%N ∧
  array_index "012" = None ∧ array_index "path0" = None ∧
  array_index "" = None ∧ array_index "4294967295" = None.
Proof. vm_compute. repeat split. Qed.

Example obj_set_order :
  obj_set "1" 10 (obj_set "b" 20 (obj_set "2" 30 (obj_set "a" 40 []))) =
    [("1", 10); ("2", 30); ("a", 40); ("b", 20)] ∧
  obj_set "a" 50 [("1", 10); ("a", 40); ("b", 20)] =
    [("1", 10); ("a", 50); ("b", 20)] ∧
  obj_set "__proto__" 60 [("1", 10); ("a", 40)] = [("1", 10); ("a", 40)].
Proof. vm_compute. repeat split. Qed.

Section ObjectFacts.
Context {V : Type}.
Implicit Types (o : list (string * V)).

Lemma obj_get_app_fresh k o1 o2 :
  k ∉ obj_keys o1 → obj_get k (o1 ++ o2) = obj_get k o2.
Proof.
  induction o1 as [|[k' v] o1 IH]; [done|].
  unfold obj_keys. rewrite fmap_cons, not_elem_of_cons. simpl. intros [Hne Hnin].
  rewrite decide_False; [|done]. by apply IH.
Qed.

Lemma obj_replace_app_fresh k v o1 o2 :
  k ∉ obj_keys o1 → obj_replace k v (o1 ++ o2) = o1 ++ obj_replace k v o2.
Proof.
  induction o1 as [|[k' v'] o1 IH]; [done|].
  unfold obj_keys. rewrite fmap_cons, not_elem_of_cons. simpl. intros [Hne Hnin].
  rewrite decide_False; [|done]. f_equal. by apply IH.
Qed.

Lemma obj_get_first k v o : obj_get k ((k, v) :: o) = Some v.
Proof. simpl. by rewrite decide_True. Qed.

Lemma obj_replace_first k v v' o : obj_replace k v' ((k, v) :: o) = (k, v') :: o.
Proof. simpl. by rewrite decide_True. Qed.

(** Where a key sits in a property list without repeated keys. *)
Lemma obj_get_middle k v o1 o2 :
  NoDup (obj_keys (o1 ++ (k, v) :: o2)) →
  obj_get k (o1 ++ (k, v) :: o2) = Some v.
Proof.
  unfold obj_keys. rewrite fmap_app, fmap_cons. simpl. intros Hnd.
  apply NoDup_app in Hnd as (_ & Hdisj & _).
  rewrite obj_get_app_fresh; [apply obj_get_first|].
  intros Hin. apply (Hdisj _ Hin). left.
Qed.

Lemma obj_set_middle k v v' o1 o2 :
  NoDup (obj_keys (o1 ++ (k, v) :: o2)) →
  obj_set k v' (o1 ++ (k, v) :: o2) = o1 ++ (k, v') :: o2.
Proof.
  intros Hnd. unfold obj_set. rewrite decide_True.
  - unfold obj_keys in Hnd. rewrite fmap_app, fmap_cons in Hnd. simpl in Hnd.
    apply NoDup_app in Hnd as (_ & Hdisj & _).
    rewrite obj_replace_app_fresh; [by rewrite obj_replace_first|].
    intros Hin. apply (Hdisj _ Hin). left.
  - unfold obj_keys. rewrite fmap_app, fmap_cons. simpl.
    apply elem_of_app. right. left.
Qed.

Lemma obj_get_None k o : k ∉ obj_keys o → obj_get k o = None.
Proof.
  induction o as [|[k' v] o IH]; [done|].
  unfold obj_keys. rewrite fmap_cons, not_elem_of_cons. simpl. intros [Hne Hnin].
  rewrite decide_False; [|done]. by apply IH.
Qed.

Lemma obj_get_replace k v s o :
  k ∈ obj_keys o →
  obj_get s (obj_replace k v o) = if decide (k = s) then Some v else obj_get s o.
Proof.
  induction o as [|[k' v'] o IH]; [by intros ?%elem_of_nil|].
  unfold obj_keys. rewrite fmap_cons. simpl. intros Hin.
  destruct (decide (k' = k)) as [->|Hne]; simpl.
  - by destruct (decide (k = s)).
  - destruct (decide (k' = s)) as [->|?]; [by rewrite decide_False|].
    apply IH. by apply elem_of_cons in Hin as [?|?].
Qed.

Lemma obj_get_insert_index i k v s o :
  k ∉ obj_keys o →
  obj_get s (obj_insert_index i k v o) =
    if decide (k = s) then Some v else obj_get s o.
Proof.
  induction o as [|[k' v'] o IH].
  { intros _. simpl. by destruct (decide (k = s)). }
  unfold obj_keys. rewrite fmap_cons, not_elem_of_cons. simpl. intros [Hne Hnin].
  destruct (array_index k') as [j|]; [destruct (decide (j < i)%N)|]; simpl.
  - destruct (decide (k' = s)) as [->|?]; [by rewrite decide_False|]. by apply IH.
  - by destruct (decide (k = s)).
  - by destruct (decide (k = s)).
Qed.

Lemma obj_get_snoc k v s o :
  k ∉ obj_keys o →
  obj_get s (o ++ [(k, v)]) = if decide (k = s) then Some v else obj_get s o.
Proof.
  induction o as [|[k' v'] o IH]; [done|].
  unfold obj_keys. rewrite fmap_cons, not_elem_of_cons. simpl. intros [Hne Hnin].
  destruct (decide (k' = s)) as [->|?]; [by rewrite decide_False|]. by apply IH.
Qed.

(** The assignment that sets the prototype. *)
Lemma obj_set_proto v o : "__proto__" ∉ obj_keys o → obj_set "__proto__" v o = o.
Proof.
  intros Hnin. unfold obj_set. rewrite decide_False by done.
  by rewrite decide_True.
Qed.

(** Reading after an assignment. *)
Lemma obj_get_set k v s o :
  own_after_set k o →
  obj_get s (obj_set k v o) = if decide (k = s) then Some v else obj_get s o.
Proof.
  intros Hown. unfold obj_set. destruct (decide (k ∈ obj_keys o)) as [Hin|Hnin].
  - by apply obj_get_replace.
  - rewrite decide_False by (by destruct Hown).
    destruct (array_index k); [by apply obj_get_insert_index|by apply obj_get_snoc].
Qed.

(** An assignment changes no other property. *)
Lemma obj_get_set_ne k v s o : k ≠ s → obj_get s (obj_set k v o) = obj_get s o.
Proof.
  intros Hne. unfold obj_set. destruct (decide (k ∈ obj_keys o)) as [Hin|Hnin].
  - rewrite obj_get_replace by done. by rewrite decide_False.
  - destruct (decide (k = "__proto__")); [done|].
    destruct (array_index k).
    + rewrite obj_get_insert_index by done. by rewrite decide_False.
    + rewrite obj_get_snoc by done. by rewrite decide_False.
Qed.

(** What is read after an assignment is the value assigned or what was
    read before. *)
Lemma obj_get_set_Some k v s o w :
  obj_get s (obj_set k v o) = Some w → (k = s ∧ w = v) ∨ obj_get s o = Some w.
Proof.
  destruct (decide (k = s)) as [->|Hne].
  - destruct (decide (s ∈ obj_keys o)) as [Hin|Hnin].
    + rewrite obj_get_set by (by right). rewrite decide_True by done.
      intros [= <-]. by left.
    + destruct (decide (s = "__proto__")) as [->|Hs].
      * rewrite obj_set_proto by done. by right.
      * rewrite obj_get_set by (by left). rewrite decide_True by done.
        intros [= <-]. by left.
  - rewrite obj_get_set_ne by done. by right.
Qed.

Lemma obj_keys_replace k v o : obj_keys (obj_replace k v o) = obj_keys o.
Proof.
  unfold obj_keys. induction o as [|[k' v'] o IH]; [done|].
  cbn [obj_replace]. destruct (decide (k' = k)); rewrite !fmap_cons; [done|].
  by rewrite IH.
Qed.

Lemma obj_keys_insert_index i k v o :
  obj_keys (obj_insert_index i k v o) ≡ₚ k :: obj_keys o.
Proof.
  unfold obj_keys. induction o as [|[k' v'] o IH]; [done|].
  cbn [obj_insert_index].
  destruct (array_index k') as [j|]; [destruct (decide (j < i)%N)|];
    rewrite !fmap_cons; [|done|done].
  rewrite IH. apply Permutation_swap.
Qed.

(** The keys after an assignment: the old ones, and the key assigned to if
    it is new and not ["__proto__"]. *)
Lemma obj_keys_set k v o :
  obj_keys (obj_set k v o) ≡ₚ
    if decide (k ∈ obj_keys o) then obj_keys o
    else if decide (k = "__proto__") then obj_keys o
    else k :: obj_keys o.
Proof.
  unfold obj_set. destruct (decide (k ∈ obj_keys o)).
  - by rewrite obj_keys_replace.
  - destruct (decide (k = "__proto__")); [done|].
    destruct (array_index k).
    + apply obj_keys_insert_index.
    + unfold obj_keys. rewrite fmap_app. simpl.
      by rewrite Permutation_app_comm.
Qed.

Lemma obj_set_NoDup k v o : NoDup (obj_keys o) → NoDup (obj_keys (obj_set k v o)).
Proof.
  intros Hnd. rewrite obj_keys_set. destruct (decide (k ∈ obj_keys o)); [done|].
  destruct (decide (k = "__proto__")); [done|]. by constructor.
Qed.

(** An assignment keeps the keys there are, and adds at most its own. *)
Lemma obj_keys_set_elem_of k v s o :
  s ∈ obj_keys (obj_set k v o) ↔ s ∈ obj_keys o ∨ (s = k ∧ own_after_set k o).
Proof.
  rewrite obj_keys_set. unfold own_after_set.
  destruct (decide (k ∈ obj_keys o)) as [Hin|Hnin].
  - split; [by left|]. intros [?|[-> _]]; done.
  - destruct (decide (k = "__proto__")) as [->|Hne].
    + split; [by left|]. intros [?|[-> [?|?]]]; done.
    + rewrite elem_of_cons. split; [intros [->|?]|intros [?|[-> _]]]; auto.
Qed.
End ObjectFacts.

(** ** Facts on the representation of trees *)

Section RepresentationFacts.
Context {R : Type}.
Implicit Types (h : list (object (R:=R))) (t : tree (R:=R)) (P Q : ref → Prop).

(** Induction on trees, with the hypothesis for every child. *)
Lemma tree_ind' (Q : tree (R:=R) → Prop) :
  (∀ ty cs ps o s f,
      Forall (λ kt, Q kt.2) cs → Q (Node ty cs ps o s f)) →
  ∀ t, Q t.
Proof.
  intros Hnode. fix IH 1. intros [ty cs ps o s f]. apply Hnode.
  induction cs as [|[k t] cs IHcs]; constructor; [apply IH | apply IHcs].
Qed.

Lemma height_child k t ty cs ps o s f :
  (k, t) ∈ cs → height t < height (Node ty cs ps o s f).
Proof.
  simpl. induction cs as [|[k' t'] cs IH]; [by intros ?%elem_of_nil|].
  intros [E|Hin]%elem_of_cons; simpl.
  - inversion E; subst. lia.
  - specialize (IH Hin). lia.
Qed.

Lemma height_pos t : 0 < height t.
Proof. destruct t. simpl. lia. Qed.

Lemma repr_on_node_on P h a t :
  repr_on P h a t ↔ P a ∧ node_on P h a t.
Proof.
  split.
  - intros [a' d t' HP Hd]. split; [done|]. exists d. unfold child_on. naive_solver.
  - intros (HP & d & Hd & ? & ? & ? & ? & ? & ? & ? & ?).
    by apply (repr_on_node P h a d t).
Qed.

(** A heap that agrees with [h] on the references in [P] represents the
    same trees there. *)
Lemma repr_on_agree P h h' :
  (∀ a o, P a → h !! a = Some o → h' !! a = Some o) →
  ∀ t a, repr_on P h a t → repr_on P h' a t.
Proof.
  intros Hagree. induction t as [ty cs ps o s f IH] using tree_ind'.
  intros a Hrepr. inversion Hrepr as [a' d t' HP Hd Hty Ho Hs Hf Hnc Hnp Hcs Hps]; subst.
  apply (repr_on_node P h' a d); auto.
  - simpl in Hcs |- *. clear -IH Hcs.
    induction Hcs as [|kr kt rs cs' [Hk Hr] _ IHcs]; constructor.
    + split; [done|]. apply Forall_inv in IH. by apply IH.
    + apply IHcs. by apply Forall_inv_tail in IH.
  - eapply Forall2_impl; [exact Hps|]. intros kr kp (? & ? & ?).
    split_and!; auto.
Qed.

Lemma repr_on_mono P Q h :
  (∀ a, P a → Q a) → ∀ t a, repr_on P h a t → repr_on Q h a t.
Proof.
  intros HPQ. induction t as [ty cs ps o s f IH] using tree_ind'.
  intros a Hrepr. inversion Hrepr as [a' d t' HP Hd Hty Ho Hs Hf Hnc Hnp Hcs Hps]; subst.
  apply (repr_on_node Q h a d); auto.
  - simpl in Hcs |- *. clear -IH Hcs.
    induction Hcs as [|kr kt rs cs' [Hk Hr] _ IHcs]; constructor.
    + split; [done|]. apply Forall_inv in IH. by apply IH.
    + apply IHcs. by apply Forall_inv_tail in IH.
  - eapply Forall2_impl; [exact Hps|]. intros kr kp (? & ? & ?).
    split_and!; auto.
Qed.

Lemma child_on_agree P h h' kr kt :
  (∀ a o, P a → h !! a = Some o → h' !! a = Some o) →
  child_on P h kr kt → child_on P h' kr kt.
Proof. intros Hagree [? ?]. split; [done|]. by eapply repr_on_agree. Qed.

Lemma path_on_agree P h h' kr kp :
  (∀ a o, P a → h !! a = Some o → h' !! a = Some o) →
  path_on P h kr kp → path_on P h' kr kp.
Proof. intros Hagree (? & ? & ?). split_and!; auto. Qed.

Lemma child_on_mono P Q h kr kt :
  (∀ a, P a → Q a) → child_on P h kr kt → child_on Q h kr kt.
Proof. intros HPQ [? ?]. split; [done|]. by eapply repr_on_mono. Qed.

Lemma path_on_mono P Q h kr kp :
  (∀ a, P a → Q a) → path_on P h kr kp → path_on Q h kr kp.
Proof. intros HPQ (? & ? & ?). split_and!; auto. Qed.

Lemma repr_on_prefix P h h' a t :
  h `prefix_of` h' → repr_on P h a t → repr_on P h' a t.
Proof.
  intros Hpre. apply repr_on_agree. intros a' o _ E. by eapply prefix_lookup_Some.
Qed.

Lemma repr_on_repr P h a t : repr_on P h a t → repr h a t.
Proof. by apply repr_on_mono. Qed.

(** Children and paths keep the property names of the object. *)
Lemma Forall2_child_on_keys P h rs (cs : list (string * tree (R:=R))) :
  Forall2 (child_on P h) rs cs → obj_keys rs = cs.*1.
Proof.
  unfold obj_keys. induction 1 as [|kr kt rs cs [Hk _] _ IH]; [done|].
  rewrite !fmap_cons. by f_equal.
Qed.

Lemma Forall2_path_on_keys P h rs (ps : list (string * list (Vector2 R))) :
  Forall2 (path_on P h) rs ps → obj_keys rs = ps.*1.
Proof.
  unfold obj_keys. induction 1 as [|kr kt rs cs [Hk _] _ IH]; [done|].
  rewrite !fmap_cons. by f_equal.
Qed.

Lemma repr_on_wf P h : ∀ t a, repr_on P h a t → wf t.
Proof.
  induction t as [ty cs ps o s f IH] using tree_ind'.
  intros a Hrepr. apply repr_on_node_on in Hrepr as (_ & d & Hd & _ & _ & _ & _ & Hnc & Hnp & Hcs & Hps).
  simpl in Hcs, Hps. constructor; simpl.
  - by rewrite <-(Forall2_child_on_keys _ _ _ _ Hcs).
  - by rewrite <-(Forall2_path_on_keys _ _ _ _ Hps).
  - clear -IH Hcs. induction Hcs as [|kr kt rs cs' [Hk Hr] _ IHcs]; constructor.
    + apply Forall_inv in IH. by eapply IH.
    + apply IHcs. by apply Forall_inv_tail in IH.
Qed.
End RepresentationFacts.

Lemma Forall2_impl_elem {A B} (P Q : A → B → Prop) l k :
  Forall2 P l k → (∀ x y, x ∈ l → y ∈ k → P x y → Q x y) → Forall2 Q l k.
Proof.
  induction 1 as [|x y l k HP _ IH]; intros HPQ; constructor.
  - apply HPQ; [left | left | done].
  - apply IH. intros x' y' ? ?. apply HPQ; by right.
Qed.

(** ** JSON.stringify *)

Section JSONFacts.
Context {R : Type} {num : Number R}.
Implicit Types (h : list (object (R:=R))) (t : tree (R:=R)) (P Q : ref → Prop).

Lemma JSON_vector_twice (p : Vector2 R) :
  JSON_vector (JSON_vector p) = JSON_vector p.
Proof. unfold JSON_vector. simpl. by rewrite !JSON_number_twice. Qed.

Lemma JSON_tree_twice : ∀ t, JSON_tree (JSON_tree t) = JSON_tree t.
Proof.
  induction t as [ty cs ps o s f IH] using tree_ind'. simpl.
  rewrite JSON_vector_twice. f_equal.
  - rewrite map_map. simpl.
    induction IH as [|[k t] cs Ht _ IHcs]; [done|].
    simpl in *. by rewrite Ht, IHcs.
  - rewrite map_map. simpl. apply map_ext. intros [k pts]. simpl. f_equal.
    rewrite map_map. apply map_ext. intros q. apply JSON_vector_twice.
Qed.

Lemma height_JSON_tree : ∀ t, height (JSON_tree t) = height t.
Proof.
  induction t as [ty cs ps o s f IH] using tree_ind'. simpl. f_equal.
  induction IH as [|[k t] cs Ht _ IHcs]; [done|].
  simpl in *. by rewrite Ht, IHcs.
Qed.

Lemma wf_JSON_tree : ∀ t, wf t → wf (JSON_tree t).
Proof.
  induction t as [ty cs ps o s f IH] using tree_ind'.
  intros Hwf. inversion Hwf as [t' Hnc Hnp Hwfs]; subst. simpl in Hnc, Hnp, Hwfs.
  constructor; simpl.
  - by rewrite <-list_fmap_compose.
  - by rewrite <-list_fmap_compose.
  - apply Forall_fmap. simpl.
    clear -IH Hwfs. induction cs as [|kt cs IHcs]; constructor.
    + apply (Forall_inv IH), (Forall_inv Hwfs).
    + apply IHcs; [exact (Forall_inv_tail IH)|exact (Forall_inv_tail Hwfs)].
Qed.

(** On the children of a document read back, reading back changes
    nothing. *)
Lemma on_trees_JSON_fixed (F : tree (R:=R) → tree (R:=R)) c :
  JSON_tree c = c →
  on_trees (λ x, F (JSON_tree x)) (t_children c) = on_trees F (t_children c).
Proof.
  destruct c as [ty cs ps o s f]. simpl. intros Hc. injection Hc as Hcs _ _.
  unfold on_trees. rewrite <-Hcs at 2. by rewrite map_map.
Qed.

Lemma on_trees_JSON_tree_children t :
  on_trees JSON_tree (t_children (JSON_tree t)) = t_children (JSON_tree t).
Proof.
  destruct t as [ty cs ps o s f]. unfold on_trees. simpl.
  rewrite !map_map. simpl. apply map_ext. intros [k t]. simpl.
  by rewrite JSON_tree_twice.
Qed.

Lemma JSON_stringify_repr P n : ∀ t a h,
  repr_on P h a t → height t ≤ n → JSON_stringify n a h = Ok (JSON_tree t) h.
Proof.
  induction n as [|n IH]; intros t a h Hrepr Hn.
  { pose proof (height_pos t). lia. }
  apply repr_on_node_on in Hrepr as (_ & d & Hd & Hty & Ho & Hs & Hf & _ & _ & Hcs & Hps).
  destruct t as [ty cs ps o s f]. simpl in Hty, Ho, Hs, Hf, Hcs, Hps. subst.
  cbn [JSON_stringify JSON_tree].
  rewrite (bind_Ok _ _ _ _ _ (read_Diagram_Ok _ _ _ Hd)).
  erewrite bind_Ok; cycle 1.
  { apply (mapM_read _ _ (map (λ kt, (kt.1, JSON_tree kt.2)) cs)).
    apply Forall2_fmap_r.
    eapply Forall2_impl_elem; [exact Hcs|].
    intros [k r] [k' t] _ Hin [Hk Hr]. simpl in Hk, Hr. subst k'. simpl.
    erewrite bind_Ok; [done|]. eapply IH; [exact Hr|].
    pose proof (height_child _ _ (type d) _ ps (origin d) (color_stroke d) (color_fill d) Hin).
    lia. }
  erewrite bind_Ok; cycle 1.
  { apply (mapM_read _ _ (map (λ kp, (kp.1, map JSON_vector kp.2)) ps)).
    apply Forall2_fmap_r.
    eapply Forall2_impl; [exact Hps|].
    intros [k r] [k' pts] (Hk & _ & Hr). simpl in Hk, Hr. subst k'. simpl.
    by rewrite (bind_Ok _ _ _ _ _ (read_Path_Ok _ _ _ Hr)). }
  done.
Qed.

(** Parsing the paths of a node: one new Path object each. *)
Lemma JSON_parse_paths (ps : list (string * list (Vector2 R))) : ∀ h,
  ∃ rs h',
    mapM (λ kp, r ← Path_new kp.2; mret (kp.1, r)) ps h = Ok rs h' ∧
    h `prefix_of` h' ∧
    Forall2 (path_on (λ a, length h ≤ a ∧ a < length h') h') rs ps.
Proof.
  induction ps as [|[k pts] ps IH]; intros h.
  { exists [], h. split_and!; [done|done|constructor]. }
  destruct (IH (h ++ [OPath (mkPath pts)])) as (rs & h' & E & Hpre & Hrs).
  exists ((k, length h) :: rs), h'.
  assert (h `prefix_of` h') as Hpre' by (etrans; [by apply prefix_app_r|done]).
  pose proof (prefix_length _ _ Hpre) as Hlen. rewrite length_app in Hlen. simpl in Hlen.
  split_and!; [|done|].
  - rewrite mapM_cons.
    erewrite bind_Ok; [|by erewrite bind_Ok].
    by rewrite (bind_Ok _ _ _ _ _ E).
  - constructor.
    + unfold path_on. simpl. split; [done|]. split; [lia|].
      eapply prefix_lookup_Some; [|exact Hpre].
      by rewrite lookup_app_r, Nat.sub_diag by lia.
    + eapply Forall2_impl; [exact Hrs|]. intros kr kp.
      apply path_on_mono. rewrite length_app. simpl. lia.
Qed.
End JSONFacts.

(** ** JSON.parse *)

Section JSONParse.
Context {R : Type}.
Implicit Types (h : list (object (R:=R))) (t : tree (R:=R)) (P Q : ref → Prop).

Lemma JSON_parse_Node ty cs ps (o : Vector2 R) s f :
  JSON_parse (Node ty cs ps o s f) =
    (cs' ← mapM (λ kt, r ← JSON_parse kt.2; mret (kt.1, r)) cs;
     ps' ← mapM (λ kp, r ← Path_new kp.2; mret (kp.1, r)) ps;
     new_object (ODiagram (mkDiagram ty cs' ps' o s f))).
Proof. done. Qed.

Lemma parsed_repr_on h t k h' :
  parsed h t k h' → repr_on (λ a, length h ≤ a ∧ a < length h') h' k t.
Proof.
  intros (Hpre & Hk & Hlen & d & Hd & ? & ? & ? & ? & ? & ? & Hcs & Hps).
  apply repr_on_node_on. split; [lia|]. exists d. split_and!; try done.
  - eapply Forall2_impl; [exact Hcs|]. intros ??. apply child_on_mono. lia.
  - eapply Forall2_impl; [exact Hps|]. intros ??. apply path_on_mono. lia.
Qed.

Lemma JSON_parse_children (cs : list (string * tree (R:=R))) :
  Forall (λ kt, ∀ h, ∃ k h', JSON_parse kt.2 h = Ok k h' ∧ parsed h kt.2 k h') cs →
  ∀ h, ∃ rs h',
    mapM (λ kt, r ← JSON_parse kt.2; mret (kt.1, r)) cs h = Ok rs h' ∧
    h `prefix_of` h' ∧
    Forall2 (child_on (λ a, length h ≤ a ∧ a < length h') h') rs cs.
Proof.
  induction 1 as [|[k t] cs Hhd _ IH]; intros h.
  { exists [], h. split_and!; [done|done|constructor]. }
  destruct (Hhd h) as (r & h1 & E1 & Hparsed). simpl in E1, Hparsed.
  destruct (IH h1) as (rs & h' & E & Hpre & Hrs).
  pose proof (parsed_repr_on _ _ _ _ Hparsed) as Hr.
  destruct Hparsed as (Hpre1 & Hk & Hlen1 & _).
  pose proof (prefix_length _ _ Hpre) as Hlen.
  exists ((k, r) :: rs), h'. split_and!.
  - rewrite mapM_cons.
    erewrite bind_Ok; [|by erewrite bind_Ok].
    by rewrite (bind_Ok _ _ _ _ _ E).
  - by etrans.
  - constructor.
    + split; [done|]. simpl. eapply repr_on_prefix; [exact Hpre|].
      eapply repr_on_mono; [|exact Hr]. simpl. lia.
    + eapply Forall2_impl; [exact Hrs|]. intros ??. apply child_on_mono. lia.
Qed.

Lemma JSON_parse_new : ∀ t, wf t → ∀ h,
  ∃ k h', JSON_parse t h = Ok k h' ∧ parsed h t k h'.
Proof.
  induction t as [ty cs ps o s f IH] using tree_ind'.
  intros Hwf h. inversion Hwf as [t' Hnc Hnp Hwfs]; subst. simpl in Hnc, Hnp, Hwfs.
  destruct (JSON_parse_children cs) with (h := h) as (rs & h1 & E1 & Hpre1 & Hrs).
  { clear -IH Hwfs. induction cs as [|kt cs IHcs]; constructor.
    - apply (Forall_inv IH), (Forall_inv Hwfs).
    - apply IHcs; [exact (Forall_inv_tail IH)|exact (Forall_inv_tail Hwfs)]. }
  destruct (JSON_parse_paths ps h1) as (qs & h2 & E2 & Hpre2 & Hqs).
  pose proof (prefix_length _ _ Hpre1) as Hlen1.
  pose proof (prefix_length _ _ Hpre2) as Hlen2.
  set (d := mkDiagram ty rs qs o s f).
  exists (length h2), (h2 ++ [ODiagram d]).
  assert (h2 `prefix_of` h2 ++ [ODiagram d]) as Hpre3 by apply prefix_app_r, reflexivity.
  split.
  - rewrite JSON_parse_Node, (bind_Ok _ _ _ _ _ E1), (bind_Ok _ _ _ _ _ E2). done.
  - split_and!.
    + by do 2 (etrans; [eassumption|]).
    + lia.
    + rewrite length_app. simpl. lia.
    + exists d. split_and!; try done.
      * by apply list_lookup_middle.
      * simpl. by rewrite (Forall2_child_on_keys _ _ _ _ Hrs).
      * simpl. by rewrite (Forall2_path_on_keys _ _ _ _ Hqs).
      * eapply Forall2_impl; [exact Hrs|]. intros ?? Hc.
        eapply child_on_agree; [|eapply child_on_mono; [|exact Hc]].
        -- intros a o' _ Ha. eapply prefix_lookup_Some; [exact Ha|]. by etrans.
        -- simpl. lia.
      * eapply Forall2_impl; [exact Hqs|]. intros ?? Hc.
        eapply path_on_agree; [|eapply path_on_mono; [|exact Hc]].
        -- intros a o' _ Ha. eapply prefix_lookup_Some; [exact Ha|]. done.
        -- simpl. lia.
Qed.
End JSONParse.

(** ** The loops that replace every entry of [children] or [paths]

    [for (let c in newd.children) { newd.children[c] = newd.children[c].m(..); }]
    and its twin on [paths] are one loop over a field [fld] of the object
    at [k], with [upd] the assignment to that field. *)

Section UpdateLoop.
Context {R : Type}.
Implicit Types (h : list (object (R:=R))) (d : Diagram (R:=R)).

Context (fld : Diagram (R:=R) → list (string * ref)).
Context (upd : Diagram (R:=R) → list (string * ref) → Diagram (R:=R)).
Hypothesis fld_upd : ∀ d l, fld (upd d l) = l.
Hypothesis upd_upd : ∀ d l l', upd (upd d l) l' = upd d l'.
Hypothesis upd_fld : ∀ d, upd d (fld d) = d.

Context {X : Type} (I : list (object (R:=R)) → ref → X → Prop).
Context (pre : X → Prop) (F : X → X) (f : ref → M (R:=R) ref) (k : ref).

Hypothesis I_stable : ∀ h h' r x, unchanged_but k h h' → I h r x → I h' r x.
Hypothesis f_spec : ∀ h r x,
  k < length h → I h r x → pre x →
  ∃ r' h', f r h = Ok r' h' ∧ h `prefix_of` h' ∧ I h' r' (F x).

Lemma unchanged_but_trans h1 h2 h3 :
  unchanged_but k h1 h2 → unchanged_but k h2 h3 → unchanged_but k h1 h3.
Proof. intros [? H12] [? H23]. split; [lia|]. eauto. Qed.

Lemma unchanged_but_prefix h h' : h `prefix_of` h' → unchanged_but k h h'.
Proof.
  intros Hpre. split; [by apply prefix_length|].
  intros a o _ Ha. by eapply prefix_lookup_Some.
Qed.

Lemma unchanged_but_insert h o : unchanged_but k h (<[k := o]> h).
Proof.
  split; [by rewrite length_insert|].
  intros a o' Hne Ha. by rewrite list_lookup_insert_ne.
Qed.

Lemma update_loop : ∀ todo done (xs : list (string * X)) d h,
  h !! k = Some (ODiagram d) →
  fld d = done ++ todo →
  NoDup (obj_keys (done ++ todo)) →
  Forall2 (λ kr kx, kr.1 = kx.1 ∧ I h kr.2 kx.2) todo xs →
  Forall (λ kx, pre kx.2) xs →
  ∃ todo' h',
    for_each (obj_keys todo)
      (λ c, x ← get_entry fld k c; r ← f x; set_entry fld upd k c r) h = Ok tt h' ∧
    unchanged_but k h h' ∧
    h' !! k = Some (ODiagram (upd d (done ++ todo'))) ∧
    Forall2 (λ kr kx, kr.1 = kx.1 ∧ I h' kr.2 (F kx.2)) todo' xs.
Proof.
  induction todo as [|[c r] todo IH]; intros done xs d h Hk Hfld Hnd Hxs Hpre.
  { apply Forall2_nil_inv_l in Hxs as ->. exists [], h. split_and!.
    - done.
    - split; [done|auto].
    - by rewrite <-Hfld, upd_fld.
    - constructor. }
  apply Forall2_cons_inv_l in Hxs as ([c' x] & xs' & [Hc Hx] & Hxs & ->).
  simpl in Hc, Hx. subst c'.
  apply Forall_cons in Hpre as [Hprex Hpre]. simpl in Hprex.
  assert (k < length h) as Hlt by (by eapply lookup_lt_Some).
  destruct (f_spec h r x Hlt Hx Hprex) as (r' & h1 & Ef & Hpre1 & Hr').
  pose proof (prefix_lookup_Some _ _ _ _ Hk Hpre1) as Hk1.
  set (d2 := upd d (done ++ (c, r') :: todo)).
  set (h2 := <[k := ODiagram d2]> h1).
  assert (unchanged_but k h h2) as Hun.
  { eapply unchanged_but_trans; [by apply unchanged_but_prefix|].
    apply unchanged_but_insert. }
  destruct (IH (done ++ [(c, r')]) xs' d2 h2) as (todo' & h' & E & Hun' & Hk' & Hxs').
  { apply list_lookup_insert_eq. by eapply lookup_lt_Some. }
  { unfold d2. by rewrite fld_upd, <-app_assoc. }
  { rewrite <-app_assoc. simpl.
    unfold obj_keys in *. rewrite fmap_app, fmap_cons in *. done. }
  { eapply Forall2_impl; [exact Hxs|]. intros ?? [? ?]. split; [done|].
    by eapply I_stable. }
  { done. }
  exists ((c, r') :: todo'), h'. split_and!.
  - change (obj_keys ((c, r) :: todo)) with (c :: obj_keys todo).
    rewrite for_each_cons.
    erewrite bind_Ok; [exact E|].
    erewrite bind_Ok; cycle 1.
    { unfold get_entry. rewrite (bind_Ok _ _ _ _ _ (read_Diagram_Ok _ _ _ Hk)).
      rewrite Hfld, obj_get_middle; [done|]. by rewrite <-Hfld in Hnd |- *. }
    rewrite (bind_Ok _ _ _ _ _ Ef).
    unfold set_entry. rewrite (bind_Ok _ _ _ _ _ (read_Diagram_Ok _ _ _ Hk1)).
    rewrite Hfld, obj_set_middle; [done|]. by rewrite <-Hfld in Hnd |- *.
  - by eapply unchanged_but_trans.
  - rewrite Hk'. unfold d2. by rewrite upd_upd, <-app_assoc.
  - constructor; [|done]. split; [done|]. simpl.
    eapply I_stable; [exact Hun'|]. eapply I_stable; [|exact Hr'].
    apply unchanged_but_insert.
Qed.
End UpdateLoop.

Lemma prefix_of_lookup {A} (l l' : list A) :
  (∀ i x, l !! i = Some x → l' !! i = Some x) → l `prefix_of` l'.
Proof.
  intros Hsub. exists (drop (length l) l').
  rewrite <-(take_drop (length l) l') at 1. f_equal.
  apply list_eq. intros i. destruct (l !! i) as [x|] eqn:E.
  - rewrite lookup_take_lt by (by eapply lookup_lt_Some). by apply Hsub.
  - apply lookup_ge_None in E. apply lookup_ge_None.
    rewrite length_take. lia.
Qed.

Section NodeLoops.
Context {R : Type}.
Implicit Types (h : list (object (R:=R))) (d : Diagram (R:=R)) (t : tree (R:=R)).

Lemma unchanged_but_prefix_of h h1 h' k :
  h `prefix_of` h1 → unchanged_but k h1 h' → length h ≤ k → h `prefix_of` h'.
Proof.
  intros Hpre [_ Hun] Hk. apply prefix_of_lookup. intros i o Hi.
  apply Hun; [|by eapply prefix_lookup_Some].
  apply lookup_lt_Some in Hi. lia.
Qed.

Lemma repr_on_below_unchanged L k h h' a t :
  unchanged_but k h h' → repr_on (below L k) h a t → repr_on (below L k) h' a t.
Proof.
  intros [_ Hun]. apply repr_on_agree. intros a' o [_ Hne]. by apply Hun.
Qed.

Lemma path_on_below_unchanged L k h h' kr kp :
  unchanged_but k h h' → path_on (below L k) h kr kp → path_on (below L k) h' kr kp.
Proof.
  intros [_ Hun]. apply path_on_agree. intros a' o [_ Hne]. by apply Hun.
Qed.

Lemma child_on_below_unchanged L k h h' kr kt :
  unchanged_but k h h' → child_on (below L k) h kr kt → child_on (below L k) h' kr kt.
Proof.
  intros [_ Hun]. apply child_on_agree. intros a' o [_ Hne]. by apply Hun.
Qed.

Lemma keys_on_trees (F : tree (R:=R) → tree (R:=R)) cs : (on_trees F cs).*1 = cs.*1.
Proof. unfold on_trees. induction cs as [|[??] cs IH]; [done|]. simpl. by f_equal. Qed.

Lemma keys_on_points G (ps : list (string * list (Vector2 R))) :
  (on_points G ps).*1 = ps.*1.
Proof. unfold on_points. induction ps as [|[??] ps IH]; [done|]. simpl. by f_equal. Qed.

(** The loop over [children] of the node [k], every child replaced by
    what [f] returns for it. *)
Lemma children_loop (pre : tree (R:=R) → Prop) (F : tree (R:=R) → tree (R:=R)) f L k h d t :
  (∀ h0 r x, repr h0 r x → pre x → returns_new (f r) h0 (F x)) →
  L ≤ k →
  h !! k = Some (ODiagram d) →
  node_on (below L k) h k t →
  Forall (λ kt, pre kt.2) (t_children t) →
  ∃ h',
    for_each (obj_keys (children d))
      (λ c, child ← get_child k c; r ← f child; set_child k c r) h = Ok tt h' ∧
    unchanged_but k h h' ∧
    node_on (below L k) h' k (t_with_children t (on_trees F (t_children t))).
Proof.
  intros Hf HL Hk (d' & Hk' & Hty & Ho & Hs & Hfl & Hnc & Hnp & Hcs & Hps) Hpre.
  assert (d' = d) as -> by congruence. clear Hk'.
  destruct (update_loop (R:=R) children with_children) with
    (I := λ h r x, repr_on (below L k) h r x) (pre := pre) (F := F) (f := f)
    (k := k) (todo := children d) (done := @nil (string * ref))
    (xs := t_children t) (d := d) (h := h)
    as (rs & h' & E & Hun & Hk' & Hrs); try done.
  { by intros []. }
  { intros. by eapply repr_on_below_unchanged. }
  { intros h0 r x Hlt Hr Hx.
    destruct (Hf h0 r x) as (r' & h1 & E & Hpre1 & Hnew); [by eapply repr_on_repr|done|].
    exists r', h1. split_and!; [done|done|].
    eapply repr_on_mono; [|exact Hnew]. unfold below. simpl. lia. }
  exists h'. split_and!; [exact E|done|].
  exists (with_children d rs). simpl in Hk'. split_and!; try done.
  - simpl. replace (obj_keys rs) with (obj_keys (children d)); [done|].
    rewrite (Forall2_child_on_keys _ _ _ _ Hcs).
    clear -Hrs. unfold obj_keys. induction Hrs as [|?? ?? [? _] _ IH]; [done|].
    rewrite !fmap_cons. by f_equal.
  - simpl. clear -Hrs. induction Hrs as [|[k1 r1] [k2 t2] ?? [? ?] _ IH]; constructor; [|done].
    by split.
  - simpl. eapply Forall2_impl; [exact Hps|]. intros ??.
    by apply path_on_below_unchanged.
Qed.
End NodeLoops.

(** ** The methods of Path *)

Section PathFacts.
Context {R : Type} {arith : Vector2Arith R} {rot : Vector2Rotate R}.
Implicit Types (h : list (object (R:=R))) (d : Diagram (R:=R)) (t : tree (R:=R)).

Lemma Vector2_eta (p : Vector2 R) : mkVector2 (x p) (y p) = p.
Proof. by destruct p. Qed.

Lemma map_Vector2_eta (pts : list (Vector2 R)) :
  map (λ p, mkVector2 (x p) (y p)) pts = pts.
Proof. induction pts as [|p pts IH]; [done|]. simpl. by rewrite Vector2_eta, IH. Qed.

Lemma insert_new {A} (l : list A) (a b : A) :
  <[length l := b]> (l ++ [a]) = l ++ [b].
Proof.
  replace (length l) with (length l + 0) at 1 by lia.
  by rewrite insert_app_r.
Qed.

Lemma Path_copy_Ok h r pts :
  h !! r = Some (OPath (mkPath pts)) →
  Path_copy r h = Ok (length h) (h ++ [OPath (mkPath pts)]).
Proof.
  intros Hr. unfold Path_copy.
  rewrite (bind_Ok _ _ _ _ _ (read_Path_Ok _ _ _ Hr)). simpl.
  by rewrite map_Vector2_eta.
Qed.

Lemma Path_translate_Ok v h r pts :
  h !! r = Some (OPath (mkPath pts)) →
  Path_translate v r h =
    Ok (length h) (h ++ [OPath (mkPath (map (λ p, Vector2_add p v) pts))]).
Proof.
  intros Hr. unfold Path_translate.
  rewrite (bind_Ok _ _ _ _ _ (Path_copy_Ok _ _ _ Hr)).
  erewrite bind_Ok; cycle 1.
  { apply read_Path_Ok. by apply list_lookup_middle. }
  unfold assign, mbind, M_bind, mret, M_ret. simpl. by rewrite insert_new.
Qed.

Lemma Path_rotate_Ok angle pivot h r pts :
  h !! r = Some (OPath (mkPath pts)) →
  Path_rotate angle pivot r h =
    Ok (length h)
       (h ++ [OPath (mkPath (map (λ p, Vector2_add (Vector2_rotate (Vector2_sub p pivot) angle) pivot) pts))]).
Proof.
  intros Hr. unfold Path_rotate.
  rewrite (bind_Ok _ _ _ _ _ (Path_copy_Ok _ _ _ Hr)).
  erewrite bind_Ok; cycle 1.
  { apply read_Path_Ok. by apply list_lookup_middle. }
  unfold assign, mbind, M_bind, mret, M_ret. simpl. by rewrite insert_new.
Qed.

(** The loop over [paths] of the node [k], with a Path method [f] that
    returns a new Path whose points are [G] of the old ones. *)
Lemma paths_loop (G : list (Vector2 R) → list (Vector2 R)) (f : ref → M ref) L k h d t :
  (∀ h0 r pts, h0 !! r = Some (OPath (mkPath pts)) →
               f r h0 = Ok (length h0) (h0 ++ [OPath (mkPath (G pts))])) →
  L ≤ k →
  h !! k = Some (ODiagram d) →
  node_on (below L k) h k t →
  ∃ h',
    for_each (obj_keys (paths d))
      (λ p, path ← get_path k p; r ← f path; set_path k p r) h = Ok tt h' ∧
    unchanged_but k h h' ∧
    node_on (below L k) h' k (t_with_paths t (on_points G (t_paths t))).
Proof.
  intros Hf HL Hk (d' & Hk' & Hty & Ho & Hs & Hfl & Hnc & Hnp & Hcs & Hps).
  assert (d' = d) as -> by congruence. clear Hk'.
  destruct (update_loop (R:=R) paths with_paths) with
    (I := λ h r pts, below L k r ∧ h !! r = Some (OPath (mkPath pts)))
    (pre := λ _ : list (Vector2 R), True) (F := G) (f := f)
    (k := k) (todo := paths d) (done := @nil (string * ref))
    (xs := t_paths t) (d := d) (h := h)
    as (rs & h' & E & Hun & Hk' & Hrs); try done.
  { by intros []. }
  { intros h0 h1 r pts [_ Hun] [[? ?] ?]. split; [done|]. by apply Hun. }
  { intros h0 r pts Hlt [_ Hr] _. exists (length h0), (h0 ++ [OPath (mkPath (G pts))]).
    split_and!.
    - by apply Hf.
    - by apply prefix_app_r.
    - unfold below. lia.
    - by apply list_lookup_middle. }
  { by apply Forall_true. }
  exists h'. split_and!; [exact E|done|].
  exists (with_paths d rs). simpl in Hk'. split_and!; try done.
  - simpl. replace (obj_keys rs) with (obj_keys (paths d)); [done|].
    rewrite (Forall2_path_on_keys _ _ _ _ Hps).
    clear -Hrs. unfold obj_keys. induction Hrs as [|?? ?? [? _] _ IH]; [done|].
    rewrite !fmap_cons. by f_equal.
  - simpl. eapply Forall2_impl; [exact Hcs|]. intros ??.
    by apply child_on_below_unchanged.
  - simpl. clear -Hrs. induction Hrs as [|[k1 r1] [k2 t2] ?? [? [? ?]] _ IH]; constructor; [|done].
    by split.
Qed.
End PathFacts.

(** ** copy *)

Section CopyFacts.
Context {R : Type} {num : Number R}.
Implicit Types (h : list (object (R:=R))) (d : Diagram (R:=R)) (t : tree (R:=R)).

Lemma height_children n t :
  height t ≤ S n → Forall (λ kt, height kt.2 ≤ n) (t_children t).
Proof.
  destruct t as [ty cs ps o s f]. intros Hn. apply Forall_forall.
  intros [k t] Hin. simpl in Hin |- *.
  pose proof (height_child _ _ ty _ ps o s f Hin). lia.
Qed.

Lemma on_trees_id (cs : list (string * tree (R:=R))) : on_trees (λ t, t) cs = cs.
Proof. unfold on_trees. induction cs as [|[??] cs IH]; [done|]. simpl. by f_equal. Qed.

Lemma on_points_id (ps : list (string * list (Vector2 R))) :
  on_points (λ pts, pts) ps = ps.
Proof. unfold on_points. induction ps as [|[??] ps IH]; [done|]. simpl. by f_equal. Qed.

Lemma t_with_children_same t : t_with_children t (t_children t) = t.
Proof. by destruct t. Qed.

Lemma t_with_paths_same t : t_with_paths t (t_paths t) = t.
Proof. by destruct t. Qed.

Lemma parsed_node_on h t k h' :
  parsed h t k h' → node_on (below (length h) k) h' k t.
Proof.
  intros (_ & _ & _ & d & Hd & ? & ? & ? & ? & ? & ? & Hcs & Hps).
  exists d. split_and!; try done.
  - eapply Forall2_impl; [exact Hcs|]. intros ??. apply child_on_mono.
    unfold below. lia.
  - eapply Forall2_impl; [exact Hps|]. intros ??. apply path_on_mono.
    unfold below. lia.
Qed.

Lemma node_on_new_since L h k t :
  L ≤ k → node_on (below L k) h k t → new_since L h k t.
Proof.
  intros HL (d & Hd & ? & ? & ? & ? & ? & ? & Hcs & Hps).
  apply repr_on_node_on. split; [done|]. exists d. split_and!; try done.
  - eapply Forall2_impl; [exact Hcs|]. intros ??. apply child_on_mono.
    unfold below. tauto.
  - eapply Forall2_impl; [exact Hps|]. intros ??. apply path_on_mono.
    unfold below. tauto.
Qed.

Lemma node_on_lookup P h k t :
  node_on P h k t → ∃ d, h !! k = Some (ODiagram d) ∧
    type d = t_type t ∧ origin d = t_origin t ∧
    color_stroke d = t_stroke t ∧ color_fill d = t_fill t.
Proof. intros (d & ? & ? & ? & ? & ? & _). by exists d. Qed.

Lemma copy_S n this :
  copy (R:=R) (S n) this =
    (json ← JSON_stringify (S n) this;
     newd ← JSON_parse json;
     d ← read_Diagram newd;
     for_each (obj_keys (children d))
       (λ c, child ← get_child newd c; r ← copy n child; set_child newd c r);;
     d ← read_Diagram newd;
     for_each (obj_keys (paths d))
       (λ p, path ← get_path newd p; r ← Path_copy path; set_path newd p r);;
     mret newd).
Proof. done. Qed.

Lemma cloned_returns_new (m : M (R:=R) ref) h t k h' :
  m h = Ok k h' → cloned h t k h' → returns_new m h t.
Proof.
  intros E (Hpre & Hk & Hnode). exists k, h'. split_and!; [done|done|].
  by apply node_on_new_since.
Qed.

Lemma cloned_result (res : Result (R:=R) ref) h t k h' :
  res = Ok k h' → cloned h t k h' →
  ∃ k h', res = Ok k h' ∧ h `prefix_of` h' ∧ new_since (length h) h' k t.
Proof.
  intros E (Hpre & Hk & Hnode). exists k, h'. split_and!; [done|done|].
  by apply node_on_new_since.
Qed.

Lemma copy_cloned n : ∀ t a h,
  repr h a t → height t ≤ n →
  ∃ k h', copy n a h = Ok k h' ∧ cloned h (JSON_tree t) k h'.
Proof.
  induction n as [|n IH]; intros t a h Hrepr Hn.
  { pose proof (height_pos t). lia. }
  set (c := JSON_tree t).
  assert (height c ≤ S n) as Hc by (unfold c; by rewrite height_JSON_tree).
  destruct (JSON_parse_new c (wf_JSON_tree _ (repr_on_wf _ _ _ _ Hrepr)) h)
    as (k & h1 & E2 & Hparsed).
  pose proof (parsed_node_on _ _ _ _ Hparsed) as Hnode1.
  destruct Hparsed as (Hpre1 & Hk & _ & _).
  destruct (node_on_lookup _ _ _ _ Hnode1) as (d1 & Hd1 & _).
  destruct (children_loop (λ x, height x ≤ n) JSON_tree (copy n) (length h) k h1 d1 c)
    as (h2 & E3 & Hun2 & Hnode2); [|done|done|done|by apply height_children|].
  { intros h0 r x Hr Hx. destruct (IH x r h0 Hr Hx) as (k' & h' & E & Hcl).
    by eapply cloned_returns_new. }
  unfold c in Hnode2 at 2. rewrite on_trees_JSON_tree_children in Hnode2.
  fold c in Hnode2. rewrite t_with_children_same in Hnode2.
  destruct (node_on_lookup _ _ _ _ Hnode2) as (d2 & Hd2 & _).
  destruct (paths_loop (λ pts, pts) Path_copy (length h) k h2 d2 c)
    as (h3 & E4 & Hun3 & Hnode3); [|done|done|done|].
  { intros. by apply Path_copy_Ok. }
  rewrite on_points_id, t_with_paths_same in Hnode3.
  exists k, h3. split.
  - rewrite copy_S.
    rewrite (bind_Ok _ _ _ _ _ (JSON_stringify_repr _ _ _ _ _ Hrepr Hn)).
    fold c. rewrite (bind_Ok _ _ _ _ _ E2).
    rewrite (bind_Ok _ _ _ _ _ (read_Diagram_Ok _ _ _ Hd1)).
    rewrite (bind_Ok _ _ _ _ _ E3).
    rewrite (bind_Ok _ _ _ _ _ (read_Diagram_Ok _ _ _ Hd2)).
    by rewrite (bind_Ok _ _ _ _ _ E4).
  - split_and!; [|done|done].
    eapply unchanged_but_prefix_of; [exact Hpre1| |done].
    by eapply unchanged_but_trans.
Qed.

Lemma copy_new n t a h :
  repr h a t → height t ≤ n → returns_new (copy n a) h (JSON_tree t).
Proof.
  intros Hrepr Hn. destruct (copy_cloned n t a h Hrepr Hn) as (k & h' & E & Hc).
  by eapply cloned_returns_new.
Qed.
End CopyFacts.

(** ** Assignments to the clone *)

Section MethodFacts.
Context {R : Type} {num : Number R}.
Context {arith : Vector2Arith R} {rot : Vector2Rotate R}.
Implicit Types (h : list (object (R:=R))) (d : Diagram (R:=R)) (t : tree (R:=R)).

(** Assigning to a field of the node [k] that is neither [children] nor
    [paths]. *)
Lemma node_on_assign L k h d d' t t' :
  h !! k = Some (ODiagram d) →
  node_on (below L k) h k t →
  children d' = children d → paths d' = paths d →
  t_children t' = t_children t → t_paths t' = t_paths t →
  type d' = t_type t' → origin d' = t_origin t' →
  color_stroke d' = t_stroke t' → color_fill d' = t_fill t' →
  node_on (below L k) (<[k := ODiagram d']> h) k t'.
Proof.
  intros Hk (d0 & Hk0 & _ & _ & _ & _ & Hnc & Hnp & Hcs & Hps) Ec Ep Etc Etp ? ? ? ?.
  assert (d0 = d) as -> by congruence. clear Hk0.
  exists d'. rewrite Ec, Ep, Etc, Etp. split_and!; try done.
  - apply list_lookup_insert_eq. by eapply lookup_lt_Some.
  - eapply Forall2_impl; [exact Hcs|]. intros ??.
    apply child_on_below_unchanged, unchanged_but_insert.
  - eapply Forall2_impl; [exact Hps|]. intros ??.
    apply path_on_below_unchanged, unchanged_but_insert.
Qed.

Lemma cloned_assign h t k h' d d' t' :
  cloned h t k h' →
  h' !! k = Some (ODiagram d) →
  children d' = children d → paths d' = paths d →
  t_children t' = t_children t → t_paths t' = t_paths t →
  type d' = t_type t' → origin d' = t_origin t' →
  color_stroke d' = t_stroke t' → color_fill d' = t_fill t' →
  cloned h t' k (<[k := ODiagram d']> h').
Proof.
  intros (Hpre & Hk & Hnode) Hd. intros. split_and!; [|done|by eapply node_on_assign].
  eapply unchanged_but_prefix_of; [exact Hpre|apply unchanged_but_insert|done].
Qed.

Lemma cloned_unchanged h t t' k h1 h2 :
  cloned h t k h1 → unchanged_but k h1 h2 →
  node_on (below (length h) k) h2 k t' → cloned h t' k h2.
Proof.
  intros (Hpre & Hk & _) Hun Hnode. split_and!; [|done|done].
  by eapply unchanged_but_prefix_of.
Qed.

(** A loop over [children] that calls [f] on every child and drops what
    it returns. *)
Lemma discard_loop (pre : tree (R:=R) → Prop) (f : ref → M (R:=R) ref) P k :
  (∀ h0 r x, repr h0 r x → pre x →
             ∃ r' h', f r h0 = Ok r' h' ∧ h0 `prefix_of` h') →
  ∀ todo done (xs : list (string * tree (R:=R))) d h,
  h !! k = Some (ODiagram d) →
  children d = done ++ todo →
  NoDup (obj_keys (children d)) →
  Forall2 (child_on P h) todo xs →
  Forall (λ kt, pre kt.2) xs →
  ∃ h',
    for_each (obj_keys todo)
      (λ c, child ← get_child k c; _ ← f child; mret tt) h = Ok tt h' ∧
    h `prefix_of` h'.
Proof.
  intros Hf. induction todo as [|[c r] todo IH]; intros done xs d h Hk Hfld Hnd Hxs Hpre.
  { by exists h. }
  apply Forall2_cons_inv_l in Hxs as ([c' x] & xs' & [Hc Hx] & Hxs & ->).
  simpl in Hc, Hx. subst c'.
  apply Forall_cons in Hpre as [Hprex Hpre]. simpl in Hprex.
  destruct (Hf h r x) as (r' & h1 & Ef & Hpre1); [by eapply repr_on_repr|done|].
  destruct (IH (done ++ [(c, r)]) xs' d h1) as (h' & E & Hpre').
  { by eapply prefix_lookup_Some. }
  { by rewrite <-app_assoc. }
  { done. }
  { eapply Forall2_impl; [exact Hxs|]. intros ??.
    apply child_on_agree. intros ?? _ ?. by eapply prefix_lookup_Some. }
  { done. }
  exists h'. split; [|by etrans].
  change (obj_keys ((c, r) :: todo)) with (c :: obj_keys todo).
  rewrite for_each_cons.
  erewrite bind_Ok; [exact E|].
  erewrite bind_Ok; cycle 1.
  { unfold get_child. rewrite (bind_Ok _ _ _ _ _ (read_Diagram_Ok _ _ _ Hk)).
    rewrite Hfld, obj_get_middle; [done|]. by rewrite <-Hfld. }
  by rewrite (bind_Ok _ _ _ _ _ Ef).
Qed.
End MethodFacts.

(** ** fill and stroke *)

Section FillStroke.
Context {R : Type} {num : Number R}.
Implicit Types (h : list (object (R:=R))) (d : Diagram (R:=R)) (t : tree (R:=R)).

Lemma fill_S n color this :
  fill (R:=R) (S n) color this =
    (newd ← copy (S n) this;
     d ← read_Diagram newd;
     match type d with
     | DiagramType.Polygon => set_color_fill newd color
     | DiagramType.Curve => mret tt
     | DiagramType.Diagram =>
         for_each (obj_keys (children d))
           (λ c, child ← get_child newd c; _ ← fill n color child; mret tt)
     end;;
     mret newd).
Proof. done. Qed.

Lemma stroke_S n color this :
  stroke (R:=R) (S n) color this =
    (newd ← copy (S n) this;
     d ← read_Diagram newd;
     match type d with
     | DiagramType.Polygon => set_color_stroke newd color
     | DiagramType.Curve => set_color_stroke newd color
     | DiagramType.Diagram =>
         for_each (obj_keys (children d))
           (λ c, child ← get_child newd c; _ ← stroke n color child; mret tt)
     end;;
     mret newd).
Proof. done. Qed.

Lemma returns_new_prefix (m : M (R:=R) ref) h t :
  returns_new m h t → ∃ r' h', m h = Ok r' h' ∧ h `prefix_of` h'.
Proof. intros (k & h' & ? & ? & _). by exists k, h'. Qed.

Lemma cloned_prefix h t k h1 h2 :
  cloned h t k h1 → h1 `prefix_of` h2 → cloned h t k h2.
Proof.
  intros (Hpre & Hk & d & Hd & ? & ? & ? & ? & ? & ? & Hcs & Hps) Hpre2.
  split_and!; [by etrans|done|]. exists d. split_and!; try done.
  - by eapply prefix_lookup_Some.
  - eapply Forall2_impl; [exact Hcs|]. intros ??.
    apply child_on_agree. intros ?? _ ?. by eapply prefix_lookup_Some.
  - eapply Forall2_impl; [exact Hps|]. intros ??.
    apply path_on_agree. intros ?? _ ?. by eapply prefix_lookup_Some.
Qed.

Lemma fill_new n color : ∀ t a h,
  repr h a t → height t ≤ n →
  returns_new (fill n color a) h (filled color (JSON_tree t)).
Proof.
  induction n as [|n IH]; intros t a h Hrepr Hn.
  { pose proof (height_pos t). lia. }
  destruct (copy_cloned (S n) t a h Hrepr Hn) as (k & h1 & E1 & Hc).
  rewrite <-height_JSON_tree in Hn. clear Hrepr.
  remember (JSON_tree t) as c eqn:Ec. clear Ec t. rename c into t.
  pose proof Hc as (_ & _ & Hnode).
  pose proof Hnode as (d & Hd & Hty & ? & ? & ? & Hnc & _ & Hcs & _).
  unfold returns_new.
  rewrite fill_S, (bind_Ok _ _ _ _ _ E1), (bind_Ok _ _ _ _ _ (read_Diagram_Ok _ _ _ Hd)).
  rewrite Hty.
  unfold filled. destruct (t_type t) eqn:Et.
  - eapply cloned_result.
    + unfold set_color_fill.
      erewrite bind_Ok; [done|].
      by rewrite (bind_Ok _ _ _ _ _ (read_Diagram_Ok _ _ _ Hd)).
    + eapply cloned_assign; try done. simpl. by rewrite Hty, Et.
  - by eapply cloned_result.
  - destruct (discard_loop (λ x : tree (R:=R), height x ≤ n) (fill n color) (below (length h) k) k) with
      (todo := children d) (done := @nil (string * ref)) (xs := t_children t)
      (d := d) (h := h1) as (h2 & E2 & Hpre2); try done.
    { intros h0 r x Hr Hx. eapply returns_new_prefix. by apply IH. }
    { by apply height_children. }
    eapply cloned_result; [by rewrite (bind_Ok _ _ _ _ _ E2)|].
    by eapply cloned_prefix.
Qed.

Lemma stroke_new n color : ∀ t a h,
  repr h a t → height t ≤ n →
  returns_new (stroke n color a) h (stroked color (JSON_tree t)).
Proof.
  induction n as [|n IH]; intros t a h Hrepr Hn.
  { pose proof (height_pos t). lia. }
  destruct (copy_cloned (S n) t a h Hrepr Hn) as (k & h1 & E1 & Hc).
  rewrite <-height_JSON_tree in Hn. clear Hrepr.
  remember (JSON_tree t) as c eqn:Ec. clear Ec t. rename c into t.
  pose proof Hc as (_ & _ & Hnode).
  pose proof Hnode as (d & Hd & Hty & ? & ? & ? & Hnc & _ & Hcs & _).
  unfold returns_new.
  rewrite stroke_S, (bind_Ok _ _ _ _ _ E1), (bind_Ok _ _ _ _ _ (read_Diagram_Ok _ _ _ Hd)).
  rewrite Hty.
  unfold stroked. destruct (t_type t) eqn:Et.
  - eapply cloned_result.
    + unfold set_color_stroke.
      erewrite bind_Ok; [done|].
      by rewrite (bind_Ok _ _ _ _ _ (read_Diagram_Ok _ _ _ Hd)).
    + eapply cloned_assign; try done. simpl. by rewrite Hty, Et.
  - eapply cloned_result.
    + unfold set_color_stroke.
      erewrite bind_Ok; [done|].
      by rewrite (bind_Ok _ _ _ _ _ (read_Diagram_Ok _ _ _ Hd)).
    + eapply cloned_assign; try done. simpl. by rewrite Hty, Et.
  - destruct (discard_loop (λ x : tree (R:=R), height x ≤ n) (stroke n color) (below (length h) k) k) with
      (todo := children d) (done := @nil (string * ref)) (xs := t_children t)
      (d := d) (h := h1) as (h2 & E2 & Hpre2); try done.
    { intros h0 r x Hr Hx. eapply returns_new_prefix. by apply IH. }
    { by apply height_children. }
    eapply cloned_result; [by rewrite (bind_Ok _ _ _ _ _ E2)|].
    by eapply cloned_prefix.
Qed.
End FillStroke.

(** ** translate, position, rotate *)

Section Transforms.
Context {R : Type} {num : Number R}.
Context {arith : Vector2Arith R} {rot : Vector2Rotate R}.
Implicit Types (h : list (object (R:=R))) (d : Diagram (R:=R)) (t : tree (R:=R)).

Lemma translate_S n v this :
  translate (R:=R) (S n) v this =
    (newd ← copy (S n) this;
     d ← read_Diagram newd;
     set_origin newd (Vector2_add (origin d) v);;
     d ← read_Diagram newd;
     for_each (obj_keys (children d))
       (λ c, child ← get_child newd c; r ← translate n v child; set_child newd c r);;
     d ← read_Diagram newd;
     for_each (obj_keys (paths d))
       (λ p, path ← get_path newd p; r ← Path_translate v path; set_path newd p r);;
     mret newd).
Proof. done. Qed.

Lemma rotate_S n angle pivot this :
  rotate (R:=R) (S n) angle pivot this =
    (newd ← copy (S n) this;
     d ← read_Diagram newd;
     let pivot := match pivot with Some p => p | None => origin d end in
     for_each (obj_keys (children d))
       (λ c, child ← get_child newd c;
             r ← rotate n angle (Some pivot) child;
             set_child newd c r);;
     d ← read_Diagram newd;
     for_each (obj_keys (paths d))
       (λ p, path ← get_path newd p; r ← Path_rotate angle pivot path; set_path newd p r);;
     mret newd).
Proof. done. Qed.

Lemma shift_unfold v t :
  shift v t =
    t_with_paths
      (t_with_children (t_with_origin t (Vector2_add (t_origin t) v))
                       (on_trees (shift v) (t_children t)))
      (on_points (map (λ p, Vector2_add p v)) (t_paths t)).
Proof. by destruct t. Qed.

Lemma turn_unfold angle pivot t :
  turn angle pivot t =
    t_with_paths
      (t_with_children t (on_trees (turn angle pivot) (t_children t)))
      (on_points (map (turn_point angle pivot)) (t_paths t)).
Proof. by destruct t. Qed.

Lemma translate_new n v : ∀ t a h,
  repr h a t → height t ≤ n →
  returns_new (translate n v a) h (shift v (JSON_tree t)).
Proof.
  induction n as [|n IH]; intros t a h Hrepr Hn.
  { pose proof (height_pos t). lia. }
  destruct (copy_cloned (S n) t a h Hrepr Hn) as (k & h1 & E1 & Hc).
  rewrite <-height_JSON_tree in Hn. clear Hrepr.
  pose proof (JSON_tree_twice t) as Hfix.
  remember (JSON_tree t) as c eqn:Ec. clear Ec t. rename c into t.
  pose proof Hc as (_ & Hk & Hnode).
  pose proof Hnode as (d & Hd & Hty & Ho & ? & ? & _).
  (* newd.origin = newd.origin.add(v) *)
  set (d2 := with_origin d (Vector2_add (origin d) v)).
  set (h2 := <[k := ODiagram d2]> h1).
  set (t2 := t_with_origin t (Vector2_add (t_origin t) v)).
  assert (cloned h t2 k h2) as Hc2.
  { eapply cloned_assign; try done. simpl. by rewrite Ho. }
  assert (h2 !! k = Some (ODiagram d2)) as Hd2.
  { apply list_lookup_insert_eq. by eapply lookup_lt_Some. }
  (* the children *)
  destruct (children_loop (λ x : tree (R:=R), height x ≤ n)
              (λ x, shift v (JSON_tree x)) (translate n v)
              (length h) k h2 d2 t2)
    as (h3 & E3 & Hun3 & Hnode3);
    [by auto|done|done|exact (proj2 (proj2 Hc2))|exact (height_children n t Hn)|].
  change (t_children t2) with (t_children t) in Hnode3.
  rewrite (on_trees_JSON_fixed _ _ Hfix) in Hnode3.
  destruct (node_on_lookup _ _ _ _ Hnode3) as (d3 & Hd3 & _).
  (* the paths *)
  destruct (paths_loop (map (λ p, Vector2_add p v)) (Path_translate v)
              (length h) k h3 d3 _ (λ h0 r pts, Path_translate_Ok v h0 r pts) Hk Hd3 Hnode3)
    as (h4 & E4 & Hun4 & Hnode4).
  unfold returns_new. eapply cloned_result.
  - rewrite translate_S, (bind_Ok _ _ _ _ _ E1).
    rewrite (bind_Ok _ _ _ _ _ (read_Diagram_Ok _ _ _ Hd)).
    erewrite bind_Ok; cycle 1.
    { unfold set_origin. by rewrite (bind_Ok _ _ _ _ _ (read_Diagram_Ok _ _ _ Hd)). }
    fold d2 h2.
    rewrite (bind_Ok _ _ _ _ _ (read_Diagram_Ok _ _ _ Hd2)).
    rewrite (bind_Ok _ _ _ _ _ E3).
    rewrite (bind_Ok _ _ _ _ _ (read_Diagram_Ok _ _ _ Hd3)).
    by rewrite (bind_Ok _ _ _ _ _ E4).
  - rewrite shift_unfold.
    eapply cloned_unchanged; [exact Hc2| |exact Hnode4].
    by eapply unchanged_but_trans.
Qed.

Lemma rotate_new n angle : ∀ pivot t a h,
  repr h a t → height t ≤ n →
  returns_new (rotate n angle pivot a) h
              (turn angle (default (t_origin (JSON_tree t)) pivot) (JSON_tree t)).
Proof.
  induction n as [|n IH]; intros pivot t a h Hrepr Hn.
  { pose proof (height_pos t). lia. }
  destruct (copy_cloned (S n) t a h Hrepr Hn) as (k & h1 & E1 & Hc).
  rewrite <-height_JSON_tree in Hn. clear Hrepr.
  pose proof (JSON_tree_twice t) as Hfix.
  remember (JSON_tree t) as c eqn:Ec. clear Ec t. rename c into t.
  pose proof Hc as (_ & Hk & Hnode).
  pose proof Hnode as (d & Hd & Hty & Ho & ? & ? & _).
  set (p := default (t_origin t) pivot).
  assert (match pivot with Some p => p | None => origin d end = p) as Hp.
  { unfold p. rewrite Ho. by destruct pivot. }
  destruct (children_loop (λ x : tree (R:=R), height x ≤ n)
              (λ x, turn angle p (JSON_tree x))
              (rotate n angle (Some p)) (length h) k h1 d t)
    as (h3 & E3 & Hun3 & Hnode3); [|done|done|done|by apply height_children|].
  { intros h0 r x Hr Hx. apply (IH (Some p) x r h0 Hr Hx). }
  rewrite (on_trees_JSON_fixed _ _ Hfix) in Hnode3.
  destruct (node_on_lookup _ _ _ _ Hnode3) as (d3 & Hd3 & _).
  destruct (paths_loop (map (turn_point angle p)) (Path_rotate angle p)
              (length h) k h3 d3 _ (λ h0 r pts, Path_rotate_Ok angle p h0 r pts) Hk Hd3 Hnode3)
    as (h4 & E4 & Hun4 & Hnode4).
  unfold returns_new. eapply cloned_result.
  - rewrite rotate_S, (bind_Ok _ _ _ _ _ E1).
    rewrite (bind_Ok _ _ _ _ _ (read_Diagram_Ok _ _ _ Hd)).
    cbv zeta. rewrite Hp.
    rewrite (bind_Ok _ _ _ _ _ E3).
    rewrite (bind_Ok _ _ _ _ _ (read_Diagram_Ok _ _ _ Hd3)).
    by rewrite (bind_Ok _ _ _ _ _ E4).
  - rewrite turn_unfold.
    eapply cloned_unchanged; [exact Hc| |exact Hnode4].
    by eapply unchanged_but_trans.
Qed.

Lemma position_translate n v t a h :
  repr h a t →
  position n v a h = translate n (Vector2_sub v (t_origin t)) a h.
Proof.
  intros Hrepr. apply repr_on_node_on in Hrepr as (_ & d & Hd & _ & Ho & _).
  unfold position. rewrite (bind_Ok _ _ _ _ _ (read_Diagram_Ok _ _ _ Hd)).
  rewrite Ho. unfold mbind, M_bind.
  by destruct (translate n (Vector2_sub v (t_origin t)) a h).
Qed.
End Transforms.

(** ** bounding_box *)

Section BoundingBox.
Context {R : Type} {num : Number R}.
Implicit Types (h : list (object (R:=R))) (d : Diagram (R:=R)) (t : tree (R:=R)).

(** A loop that reads every entry of a field of the node [k] and updates
    local variables, the heap staying as it is. *)
Lemma foldM_entries {S X : Type} (fld : Diagram (R:=R) → list (string * ref))
    (I : ref → X → Prop) (g : S → X → S) (body : S → ref → M (R:=R) S) k h d :
  h !! k = Some (ODiagram d) →
  NoDup (obj_keys (fld d)) →
  (∀ s r x, I r x → body s r h = Ok (g s x) h) →
  ∀ todo done (xs : list (string * X)) s,
    fld d = done ++ todo →
    Forall2 (λ kr kx, kr.1 = kx.1 ∧ I kr.2 kx.2) todo xs →
    foldM (λ s c, r ← get_entry fld k c; body s r) (obj_keys todo) s h =
      Ok (fold_left (λ s kx, g s kx.2) xs s) h.
Proof.
  intros Hk Hnd Hbody. induction todo as [|[c r] todo IH]; intros done xs s Hfld Hxs.
  { by apply Forall2_nil_inv_l in Hxs as ->. }
  apply Forall2_cons_inv_l in Hxs as ([c' x] & xs' & [Hc Hx] & Hxs & ->).
  simpl in Hc, Hx. subst c'.
  change (obj_keys ((c, r) :: todo)) with (c :: obj_keys todo).
  rewrite foldM_cons. erewrite bind_Ok; cycle 1.
  { erewrite bind_Ok; [by apply Hbody|].
    unfold get_entry. rewrite (bind_Ok _ _ _ _ _ (read_Diagram_Ok _ _ _ Hk)).
    rewrite Hfld, obj_get_middle; [done|]. by rewrite <-Hfld. }
  simpl. apply (IH (done ++ [(c, r)])); [|done]. by rewrite <-app_assoc.
Qed.

Lemma bounding_box_S n this :
  bounding_box (R:=R) (S n) this =
    (d ← read_Diagram this;
     match type d with
     | DiagramType.Polygon =>
         b ← foldM (λ b p, path ← get_path this p;
                           pa ← read_Path path;
                           mret (fold_left Extent_point (points pa) b))
                   (obj_keys (paths d)) Extent_start;
         mret (Extent_corners b)
     | DiagramType.Curve =>
         b ← foldM (λ b p, path ← get_path this p;
                           pa ← read_Path path;
                           mret (fold_left Extent_point (points pa) b))
                   (obj_keys (paths d)) Extent_start;
         mret (Extent_corners b)
     | DiagramType.Diagram =>
         b ← foldM (λ b c, child ← get_child this c;
                           box ← bounding_box n child;
                           mret (Extent_box b box))
                   (obj_keys (children d)) Extent_start;
         mret (Extent_corners b)
     end).
Proof. done. Qed.

Lemma bounding_box_leaf_loop P h k d t :
  h !! k = Some (ODiagram d) →
  NoDup (obj_keys (paths d)) →
  Forall2 (path_on P h) (paths d) (t_paths t) →
  foldM (λ b p, path ← get_path k p;
                pa ← read_Path path;
                mret (fold_left Extent_point (points pa) b))
        (obj_keys (paths d)) Extent_start h =
    Ok (fold_left (λ b kp, fold_left Extent_point kp.2 b) (t_paths t) Extent_start) h.
Proof.
  intros Hk Hnd Hps.
  apply (foldM_entries paths
           (λ r pts, h !! r = Some (OPath (mkPath pts)))
           (λ b pts, fold_left Extent_point pts b)
           (λ b r, pa ← read_Path r; mret (fold_left Extent_point (points pa) b))
           k h d Hk Hnd) with (done := []); [|done|].
  - intros s r pts Hr. by rewrite (bind_Ok _ _ _ _ _ (read_Path_Ok _ _ _ Hr)).
  - eapply Forall2_impl; [exact Hps|]. by intros ?? (? & _ & ?).
Qed.

Lemma bounding_box_repr P n : ∀ t a h,
  repr_on P h a t → height t ≤ n → bounding_box n a h = Ok (bbox t) h.
Proof.
  induction n as [|n IH]; intros t a h Hrepr Hn.
  { pose proof (height_pos t). lia. }
  apply repr_on_node_on in Hrepr as (_ & d & Hd & Hty & _ & _ & _ & Hnc & Hnp & Hcs & Hps).
  rewrite bounding_box_S, (bind_Ok _ _ _ _ _ (read_Diagram_Ok _ _ _ Hd)), Hty.
  pose proof (height_children n t Hn) as Hh.
  pose proof (bounding_box_leaf_loop P h a d t Hd Hnp Hps) as Hleaf.
  destruct t as [ty cs ps o s f]. simpl in Hcs, Hps, Hh, Hleaf |- *. destruct ty.
  - by rewrite (bind_Ok _ _ _ _ _ Hleaf).
  - by rewrite (bind_Ok _ _ _ _ _ Hleaf).
  - erewrite bind_Ok; [done|].
    apply (foldM_entries children
             (λ r x, repr_on P h r x ∧ height x ≤ n)
             (λ b x, Extent_box b (bbox x))
             (λ b r, box ← bounding_box n r; mret (Extent_box b box))
             a h d Hd Hnc) with (done := []); [|done|].
    + intros b r x [Hr Hx]. by rewrite (bind_Ok _ _ _ _ _ (IH x r h Hr Hx)).
    + clear -Hcs Hh. induction Hcs as [|?? ?? [? ?] _ IHcs]; constructor.
      * split; [done|]. split; [done|]. by apply Forall_inv in Hh.
      * apply IHcs. by apply Forall_inv_tail in Hh.
Qed.
End BoundingBox.

(** ** Boxes of trees *)

Section BoxFacts.
Context {R : Type} {num : Number R}.
Implicit Types (h : list (object (R:=R))) (d : Diagram (R:=R)) (t : tree (R:=R)).








End BoxFacts.

(** ** Lists of assignments to an object *)

Section PropertyLists.
Context {V : Type}.
Implicit Types (o : list (string * V)).

Lemma obj_set_all_NoDup (entries : list (string * V)) : ∀ o,
  NoDup (obj_keys o) → NoDup (obj_keys (obj_set_all entries o)).
Proof.
  induction entries as [|[k v] entries IH]; intros o Hnd; [done|].
  simpl. apply IH. by apply obj_set_NoDup.
Qed.

Lemma last_given_cons s k v (entries : list (string * V)) :
  last_given s ((k, v) :: entries) =
    match last_given s entries with
    | Some r => Some r
    | None => if decide (k = s) then Some v else None
    end.
Proof.
  unfold last_given. rewrite filter_cons. simpl. destruct (decide (k = s)).
  - rewrite last_cons. by destruct (last _).
  - by destruct (last _).
Qed.

Lemma last_given_None s (entries : list (string * V)) :
  s ∉ entries.*1 → last_given s entries = None.
Proof.
  induction entries as [|[k v] entries IH]; [done|].
  rewrite fmap_cons, not_elem_of_cons. simpl. intros [Hne Hnin].
  rewrite last_given_cons, IH by done. by rewrite decide_False.
Qed.

(** Last write wins, for a name whose assignment makes an own property. *)
Lemma obj_get_set_all s (entries : list (string * V)) : ∀ o,
  own_after_set s o →
  obj_get s (obj_set_all entries o) =
    match last_given s entries with
    | Some r => Some r
    | None => obj_get s o
    end.
Proof.
  induction entries as [|[k v] entries IH]; intros o Hown; [done|].
  simpl. rewrite IH, last_given_cons.
  - destruct (last_given s entries); [done|].
    destruct (decide (k = s)) as [->|Hne].
    + rewrite obj_get_set by done. by rewrite decide_True.
    + by apply obj_get_set_ne.
  - destruct Hown as [?|Hin]; [by left|]. right.
    apply obj_keys_set_elem_of. by left.
Qed.

(** Assignments to other names change nothing under a name. *)
Lemma obj_get_set_all_ne s (entries : list (string * V)) : ∀ o,
  s ∉ entries.*1 → obj_get s (obj_set_all entries o) = obj_get s o.
Proof.
  induction entries as [|[k v] entries IH]; intros o Hnin; [done|].
  rewrite fmap_cons in Hnin. simpl in Hnin |- *.
  apply not_elem_of_cons in Hnin as [Hne Hnin].
  rewrite IH by done. by apply obj_get_set_ne.
Qed.

(** Last write wins for every name, where none of the names assigned to
    is ["__proto__"]. *)
Lemma obj_get_set_all_named s (entries : list (string * V)) o :
  "__proto__" ∉ entries.*1 →
  obj_get s (obj_set_all entries o) =
    match last_given s entries with
    | Some r => Some r
    | None => obj_get s o
    end.
Proof.
  intros Hproto. destruct (decide (s = "__proto__")) as [->|Hs].
  - rewrite obj_get_set_all_ne by done. by rewrite last_given_None.
  - apply obj_get_set_all. by left.
Qed.


(** Every property there is after the assignments was assigned or was
    there before. *)
Lemma obj_get_set_all_Some s (entries : list (string * V)) w : ∀ o,
  obj_get s (obj_set_all entries o) = Some w →
  (s, w) ∈ entries ∨ obj_get s o = Some w.
Proof.
  induction entries as [|[k v] entries IH]; intros o Hget; [by right|].
  simpl in Hget. apply IH in Hget as [Hin|Hget].
  - left. by right.
  - apply obj_get_set_Some in Hget as [[-> ->]|Hget]; [left; left|by right].
Qed.


(** Among entries with different names, a name stands for its one entry. *)
Lemma last_given_NoDup (entries : list (string * V)) : ∀ i k v,
  NoDup entries.*1 → entries !! i = Some (k, v) → last_given k entries = Some v.
Proof.
  induction entries as [|[k' v'] entries IH]; intros i k v Hnd Hi.
  { by rewrite lookup_nil in Hi. }
  rewrite fmap_cons in Hnd. simpl in Hnd. apply NoDup_cons in Hnd as [Hnin Hnd].
  rewrite last_given_cons. destruct i as [|i]; simpl in Hi.
  - injection Hi as -> ->. rewrite last_given_None by done. by rewrite decide_True.
  - by rewrite (IH i k v Hnd Hi).
Qed.

(** Entries with names that differ from each other, from those present
    and from ["__proto__"] add one key each. *)
Lemma obj_keys_set_all (entries : list (string * V)) : ∀ o,
  NoDup (obj_keys o ++ entries.*1) →
  "__proto__" ∉ entries.*1 →
  obj_keys (obj_set_all entries o) ≡ₚ obj_keys o ++ entries.*1.
Proof.
  induction entries as [|[k v] entries IH]; intros o Hnd Hproto.
  { simpl. by rewrite app_nil_r. }
  rewrite fmap_cons in Hnd, Hproto |- *. simpl in Hnd, Hproto |- *.
  apply not_elem_of_cons in Hproto as [Hne Hproto].
  assert (k ∉ obj_keys o) as Hk.
  { apply NoDup_app in Hnd as (_ & Hdisj & _). intros Hin.
    apply (Hdisj _ Hin). left. }
  assert (obj_keys (obj_set k v o) ≡ₚ k :: obj_keys o) as Hkeys.
  { rewrite obj_keys_set. rewrite decide_False by done.
    by rewrite decide_False. }
  rewrite IH.
  - rewrite Hkeys. simpl. by rewrite Permutation_middle.
  - rewrite Hkeys. simpl. by rewrite Permutation_middle.
  - done.
Qed.
End PropertyLists.

(** ** add_childs and add_paths *)

Section Attach.
Context {R : Type}.
Implicit Types (h : list (object (R:=R))) (d : Diagram (R:=R)).

Lemma set_child_Ok h this d k r :
  h !! this = Some (ODiagram d) →
  set_child this k r h =
    Ok tt (<[this := ODiagram (with_children d (obj_set k r (children d)))]> h).
Proof.
  intros Hd. unfold set_child.
  by rewrite (bind_Ok _ _ _ _ _ (read_Diagram_Ok _ _ _ Hd)).
Qed.

Lemma set_path_Ok h this d k r :
  h !! this = Some (ODiagram d) →
  set_path this k r h =
    Ok tt (<[this := ODiagram (with_paths d (obj_set k r (paths d)))]> h).
Proof.
  intros Hd. unfold set_path.
  by rewrite (bind_Ok _ _ _ _ _ (read_Diagram_Ok _ _ _ Hd)).
Qed.

Lemma for_each_indexed {A} (body : string → A → M (R:=R) unit)
    (names : list string) (items : list A) :
  ∀ j : nat → nat,
  for_each (imap (λ i item, (j i, item)) items)
    (λ '(i, item), body (property_key (names !! i)) item) =
  for_each (imap (λ i item, (property_key (names !! j i), item)) items)
    (λ kv, body kv.1 kv.2).
Proof.
  induction items as [|item items IH]; intros j; [done|].
  rewrite !imap_cons, !for_each_cons. unfold compose.
  by rewrite (IH (λ i, j (S i))).
Qed.

Lemma for_each_imap_pair {A} (body : string → A → M (R:=R) unit)
    (names : list string) (items : list A) :
  for_each (imap pair items)
    (λ '(i, item), body (property_key (names !! i)) item) =
  for_each (imap (λ i item, (property_key (names !! i), item)) items)
    (λ kv, body kv.1 kv.2).
Proof. exact (for_each_indexed body names items (λ i, i)). Qed.

Lemma set_children_all this (entries : list (string * ref)) : ∀ h d,
  h !! this = Some (ODiagram d) →
  for_each entries (λ kv, set_child this kv.1 kv.2) h =
    Ok tt (<[this := ODiagram (with_children d (obj_set_all entries (children d)))]> h).
Proof.
  induction entries as [|[k r] entries IH]; intros h d Hd.
  { simpl. rewrite list_insert_id; [done|]. by destruct d. }
  rewrite for_each_cons. simpl.
  rewrite (bind_Ok _ _ _ _ _ (set_child_Ok _ _ _ k r Hd)).
  rewrite (IH _ (with_children d (obj_set k r (children d)))).
  - by rewrite list_insert_insert_eq.
  - apply list_lookup_insert_eq. by eapply lookup_lt_Some.
Qed.

Lemma set_paths_all this (entries : list (string * ref)) : ∀ h d,
  h !! this = Some (ODiagram d) →
  for_each entries (λ kv, set_path this kv.1 kv.2) h =
    Ok tt (<[this := ODiagram (with_paths d (obj_set_all entries (paths d)))]> h).
Proof.
  induction entries as [|[k r] entries IH]; intros h d Hd.
  { simpl. rewrite list_insert_id; [done|]. by destruct d. }
  rewrite for_each_cons. simpl.
  rewrite (bind_Ok _ _ _ _ _ (set_path_Ok _ _ _ k r Hd)).
  rewrite (IH _ (with_paths d (obj_set k r (paths d)))).
  - by rewrite list_insert_insert_eq.
  - apply list_lookup_insert_eq. by eapply lookup_lt_Some.
Qed.

Lemma add_childs_Ok childs names this h d :
  h !! this = Some (ODiagram d) →
  add_childs childs names this h =
    Ok tt (<[this := ODiagram
               (with_children d
                  (obj_set_all (given_entries childs names) (children d)))]> h).
Proof.
  intros Hd. unfold add_childs, given_entries.
  rewrite (for_each_imap_pair (λ k r, set_child this k r) names childs).
  by apply set_children_all.
Qed.

Lemma add_paths_Ok paths_ names this h d :
  h !! this = Some (ODiagram d) →
  type d ≠ DiagramType.Diagram →
  add_paths paths_ names this h =
    Ok tt (<[this := ODiagram
               (with_paths d
                  (obj_set_all (given_entries paths_ names) (paths d)))]> h).
Proof.
  intros Hd Hty. unfold add_paths, given_entries.
  rewrite (bind_Ok _ _ _ _ _ (read_Diagram_Ok _ _ _ Hd)).
  rewrite (for_each_imap_pair (λ k r, set_path this k r) names paths_).
  destruct (type d); [by apply set_paths_all|by apply set_paths_all|done].
Qed.

Lemma add_paths_Throw paths_ names this h d :
  h !! this = Some (ODiagram d) →
  type d = DiagramType.Diagram →
  add_paths paths_ names this h = Throw "Diagram cannot have paths".
Proof.
  intros Hd Hty. unfold add_paths.
  by rewrite (bind_Ok _ _ _ _ _ (read_Diagram_Ok _ _ _ Hd)), Hty.
Qed.
End Attach.

(** ** polygon *)

Section PolygonFacts.
Context {R : Type} {num : Number R}.
Implicit Types (h : list (object (R:=R))) (d : Diagram (R:=R)) (points : list (Vector2 R)).

Lemma length_polygon_paths points :
  length (polygon_paths points) = length points - 1.
Proof.
  unfold polygon_paths. rewrite length_zip_with, length_tl. lia.
Qed.

Lemma polygon_paths_lookup points i p q :
  points !! i = Some p → points !! (i + 1) = Some q →
  polygon_paths points !! i = Some [p; q].
Proof.
  intros Hp Hq. unfold polygon_paths. rewrite lookup_zip_with, Hp. simpl.
  rewrite lookup_tail. replace (S i) with (i + 1) by lia. by rewrite Hq.
Qed.

Lemma polygon_segments points : ∀ m i h,
  i + m ≤ length points - 1 →
  mapM (λ i, match points !! i, points !! (i + 1) with
             | Some p, Some q => Path_new [p; q]
             | _, _ => throw "TypeError"
             end)
       (seq i m) h =
    Ok (seq (length h) m)
       (h ++ map (λ s, OPath (mkPath s)) (take m (drop i (polygon_paths points)))).
Proof.
  induction m as [|m IH]; intros i h Hm.
  { simpl. by rewrite app_nil_r. }
  destruct (lookup_lt_is_Some_2 points i) as [p Hp]; [lia|].
  destruct (lookup_lt_is_Some_2 points (i + 1)) as [q Hq]; [lia|].
  pose proof (polygon_paths_lookup points i p q Hp Hq) as Hseg.
  cbn [seq]. rewrite mapM_cons.
  erewrite bind_Ok; cycle 1.
  { rewrite Hp, Hq. reflexivity. }
  rewrite (bind_Ok _ _ _ _ _ (IH (S i) _ ltac:(lia))).
  rewrite length_app. simpl. replace (length h + 1) with (S (length h)) by lia.
  unfold mret, M_ret. f_equal.
  rewrite <-app_assoc. f_equal.
  by rewrite (drop_S _ _ _ Hseg).
Qed.

Lemma polygon_path_names (names defaults : list string) : ∀ imax,
  imax ≤ length names → imax ≤ length defaults →
  fold_left (λ pn i, match names !! i with
                     | Some name => <[i := name]> pn
                     | None => pn
                     end)
            (seq 0 imax) defaults =
    take imax names ++ drop imax defaults.
Proof.
  induction imax as [|m IH]; intros Hn Hd; [done|].
  rewrite seq_S, fold_left_app, IH by lia. simpl.
  destruct (lookup_lt_is_Some_2 names m) as [name Hname]; [lia|].
  destruct (lookup_lt_is_Some_2 defaults m) as [dflt Hdflt]; [lia|].
  rewrite Hname, (take_S_r _ _ _ Hname), (drop_S _ _ _ Hdflt).
  rewrite <-app_assoc. simpl.
  replace m with (length (take m names) + 0) at 1 by (rewrite length_take; lia).
  by rewrite insert_app_r.
Qed.

Lemma length_default_names n : length (default_names n) = n.
Proof. unfold default_names. by rewrite length_map, length_seq. Qed.

Lemma length_polygon_names n names : length (polygon_names n names) = n.
Proof.
  unfold polygon_names. cbv zeta.
  rewrite length_app, length_take, length_drop, length_default_names. lia.
Qed.

Lemma given_entries_zip (items : list ref) : ∀ names : list string,
  length items ≤ length names →
  given_entries items names = zip names items.
Proof.
  unfold given_entries.
  induction items as [|item items IH]; intros names Hlen; [by destruct names|].
  destruct names as [|name names]; [simpl in Hlen; lia|].
  rewrite imap_cons. simpl. f_equal. rewrite <-IH by (simpl in Hlen; lia).
  by apply imap_ext.
Qed.

Lemma polygon_Ok points names h :
  3 ≤ length points →
  polygon points names h =
    Ok (length h + (length points - 1))
       (h ++ map (λ s, OPath (mkPath s)) (polygon_paths points)
          ++ [ODiagram (polygon_object points names (length h))]).
Proof.
  intros Hlen. unfold polygon, assert.
  rewrite bool_decide_true by done.
  erewrite bind_Ok; [|reflexivity].
  rewrite (bind_Ok _ _ _ _ _ (polygon_segments points (length points - 1) 0 h ltac:(lia))).
  rewrite drop_0, firstn_all2 by (by rewrite length_polygon_paths).
  cbv zeta. rewrite !length_seq, length_map, length_seq.
  set (n := length points - 1).
  rewrite polygon_path_names by (rewrite ?length_map, ?length_seq; lia).
  fold (default_names n). change (take _ names ++ drop _ (default_names n))
    with (polygon_names n names).
  set (h1 := h ++ map (λ s, OPath (mkPath s)) (polygon_paths points)).
  assert (length h1 = length h + n) as Hh1.
  { unfold h1. by rewrite length_app, length_map, length_polygon_paths. }
  erewrite bind_Ok; [|reflexivity].
  erewrite bind_Ok; cycle 1.
  { apply add_paths_Ok; [by apply list_lookup_middle|done]. }
  unfold mret, M_ret. rewrite insert_new, Hh1. f_equal.
  unfold h1. rewrite <-app_assoc. do 3 f_equal.
  unfold polygon_object, with_paths. simpl. fold n. f_equal.
  rewrite given_entries_zip; [done|].
  by rewrite length_seq, length_polygon_names.
Qed.

Lemma polygon_Throw points names h :
  length points < 3 →
  polygon points names h = Throw "Polygon must have at least 3 points".
Proof.
  intros Hlen. unfold polygon, assert.
  rewrite bool_decide_false by lia. done.
Qed.
End PolygonFacts.

Lemma elem_of_concat_map {A B} (G : B → list A) (l : list B) b q :
  b ∈ l → q ∈ G b → q ∈ concat (map G l).
Proof.
  intros Hb Hq. induction Hb as [b l|b b' l _ IH]; simpl; apply elem_of_app; auto.
Qed.

(** ** Origins and points of trees *)

Section TreeFacts.
Context {R : Type} {num : Number R}.
Context {arith : Vector2Arith R} {rot : Vector2Rotate R}.
Implicit Types (h : list (object (R:=R))) (t : tree (R:=R)).

Lemma concat_map_points (g : Vector2 R → Vector2 R)
    (ps : list (string * list (Vector2 R))) :
  concat (map (λ kp, (kp.1, map g kp.2)) ps).*2 = map g (concat ps.*2).
Proof.
  induction ps as [|[k pts] ps IH]; [done|].
  simpl. rewrite map_app. f_equal. exact IH.
Qed.

Lemma concat_map_children {A} (F : tree (R:=R) → tree (R:=R))
    (G : tree (R:=R) → list A) (g : A → A) (cs : list (string * tree (R:=R))) :
  Forall (λ kt, G (F kt.2) = map g (G kt.2)) cs →
  concat (map (λ kt, G kt.2) (map (λ kt, (kt.1, F kt.2)) cs)) =
    map g (concat (map (λ kt, G kt.2) cs)).
Proof.
  induction 1 as [|[k t] cs Ht _ IH]; [done|].
  simpl in *. rewrite map_app. f_equal; [exact Ht|exact IH].
Qed.

Lemma all_points_shift v : ∀ t,
  all_points (shift v t) = map (λ p, Vector2_add p v) (all_points t).
Proof.
  induction t as [ty cs ps o s f IH] using tree_ind'. simpl.
  by rewrite map_app, concat_map_points, (concat_map_children _ all_points _ cs IH).
Qed.

Lemma all_origins_shift v : ∀ t,
  all_origins (shift v t) = map (λ o, Vector2_add o v) (all_origins t).
Proof.
  induction t as [ty cs ps o s f IH] using tree_ind'. simpl.
  by rewrite (concat_map_children _ all_origins _ cs IH).
Qed.

Lemma all_points_turn angle pivot : ∀ t,
  all_points (turn angle pivot t) = map (turn_point angle pivot) (all_points t).
Proof.
  induction t as [ty cs ps o s f IH] using tree_ind'. simpl.
  by rewrite map_app, concat_map_points, (concat_map_children _ all_points _ cs IH).
Qed.

Lemma same_origins_turn angle pivot : ∀ t, same_origins t (turn angle pivot t).
Proof.
  induction t as [ty cs ps o s f IH] using tree_ind'.
  constructor; [done|done|]. simpl.
  induction IH as [|[k t] cs Ht _ IHcs]; constructor; [by split|done].
Qed.

Lemma all_origins_turn angle pivot : ∀ t,
  all_origins (turn angle pivot t) = all_origins t.
Proof.
  induction t as [ty cs ps o s f IH] using tree_ind'. simpl. f_equal.
  induction IH as [|[k t] cs Ht _ IHcs]; [done|].
  simpl in *. by rewrite Ht, IHcs.
Qed.

Lemma height_shift v : ∀ t, height (shift v t) = height t.
Proof.
  induction t as [ty cs ps o s f IH] using tree_ind'. simpl. f_equal.
  induction IH as [|[k t] cs Ht _ IHcs]; [done|].
  simpl in *. by rewrite Ht, IHcs.
Qed.

Lemma all_origins_JSON_tree : ∀ t,
  all_origins (JSON_tree t) = map JSON_vector (all_origins t).
Proof.
  induction t as [ty cs ps o s f IH] using tree_ind'. simpl.
  by rewrite (concat_map_children _ all_origins _ cs IH).
Qed.

Lemma all_points_JSON_tree : ∀ t,
  all_points (JSON_tree t) = map JSON_vector (all_points t).
Proof.
  induction t as [ty cs ps o s f IH] using tree_ind'. simpl.
  by rewrite map_app, concat_map_points, (concat_map_children _ all_points _ cs IH).
Qed.

(** Where JSON keeps every origin, the tree read back has the origins of
    the tree written. *)
Lemma same_origins_JSON_tree : ∀ t,
  Forall (λ o, JSON_vector o = o) (all_origins t) →
  same_origins t (JSON_tree t).
Proof.
  induction t as [ty cs ps o s f IH] using tree_ind'. simpl.
  intros [Ho Hcs]%Forall_cons.
  constructor; [done|done|]. simpl.
  induction IH as [|[k t] cs Ht _ IHcs]; [constructor|].
  simpl in Hcs. apply Forall_app in Hcs as [Hhd Htl].
  constructor; [by split; [|apply Ht]|by apply IHcs].
Qed.

Lemma same_origins_trans : ∀ t1 t2 t3,
  same_origins t1 t2 → same_origins t2 t3 → same_origins t1 t3.
Proof.
  induction t1 as [ty cs ps o s f IH] using tree_ind'.
  intros t2 t3 H12 H23.
  inversion H12 as [? ? Ety12 Eo12 Hcs12]; subst.
  inversion H23 as [? ? Ety23 Eo23 Hcs23]; subst.
  constructor; [congruence|congruence|].
  simpl in *. clear -IH Hcs12 Hcs23.
  revert IH Hcs23. generalize (t_children t3).
  induction Hcs12 as [|kt1 kt2 cs1 cs2 [Hk12 Hs12] _ IHcs]; intros cs3 IH Hcs23.
  - inversion Hcs23. constructor.
  - apply Forall2_cons_inv_l in Hcs23 as (kt3 & cs3' & [Hk23 Hs23] & Hcs23 & ->).
    constructor.
    + split; [congruence|]. eapply (Forall_inv IH); eassumption.
    + apply IHcs; [exact (Forall_inv_tail IH)|done].
Qed.

(** Moving the clone of a tree by a vector that takes what JSON keeps of
    every origin and every point back to that origin or point gives the
    tree again. *)
Lemma shift_JSON_fixed z : ∀ t,
  (∀ q, q ∈ all_origins t ++ all_points t →
        Vector2_add (JSON_vector q) z = q) →
  shift z (JSON_tree t) = t.
Proof.
  induction t as [ty cs ps o s f IH] using tree_ind'. intros Hfix.
  cbn [JSON_tree shift]. rewrite !map_map.
  assert (Vector2_add (JSON_vector o) z = o) as -> by (apply Hfix; left).
  f_equal.
  - assert (∀ kt, kt ∈ cs → ∀ q, q ∈ all_origins kt.2 ++ all_points kt.2 →
                                 Vector2_add (JSON_vector q) z = q) as Hcs.
    { intros kt Hkt q Hq. apply Hfix. simpl.
      apply elem_of_app in Hq as [Hq|Hq].
      - right. apply elem_of_app. left.
        by apply (elem_of_concat_map (λ kt, all_origins kt.2) cs kt).
      - right. apply elem_of_app. right. apply elem_of_app. right.
        by apply (elem_of_concat_map (λ kt, all_points kt.2) cs kt). }
    clear Hfix. induction IH as [|[k t] cs Ht _ IHcs]; [done|].
    simpl. f_equal.
    + f_equal. apply Ht. apply (Hcs (k, t)). left.
    + apply IHcs. intros kt Hkt. apply Hcs. by right.
  - assert (∀ q, q ∈ concat ps.*2 → Vector2_add (JSON_vector q) z = q) as Hps.
    { intros q Hq. apply Hfix. simpl. right. apply elem_of_app. right.
      apply elem_of_app. by left. }
    clear -Hps. induction ps as [|[k pts] ps IHps]; [done|].
    simpl in *. f_equal.
    + f_equal. rewrite map_map. rewrite <-(map_id pts) at 2. apply map_ext_in.
      intros q Hq. apply Hps, elem_of_app. left. by apply list_elem_of_In.
    + apply IHps. intros q Hq. apply Hps, elem_of_app. by right.
Qed.

(** Where JSON keeps every point, the tree read back has the points of
    the tree written. *)
Lemma all_points_JSON_kept : ∀ t,
  Forall (λ q, JSON_vector q = q) (all_points t) →
  all_points (JSON_tree t) = all_points t.
Proof.
  intros t Hkept. rewrite all_points_JSON_tree.
  rewrite <-(map_id (all_points t)) at 2. by apply map_ext_Forall.
Qed.

Lemma t_origin_JSON_tree : ∀ t, t_origin (JSON_tree t) = JSON_vector (t_origin t).
Proof. by intros []. Qed.

Lemma t_origin_shift v : ∀ t, t_origin (shift v t) = Vector2_add (t_origin t) v.
Proof. by intros []. Qed.
End TreeFacts.

(** ** Properties of the methods *)

Section MethodProperties.
Context {R : Type} {num : Number R}.
Context {arith : Vector2Arith R} {rot : Vector2Rotate R}.
Implicit Types (h : list (object (R:=R))) (t : tree (R:=R)).

Lemma new_since_repr L h a t : new_since L h a t → repr h a t.
Proof. apply repr_on_repr. Qed.

Lemma apply_operation_new op n t a h :
  repr h a t → height t ≤ n →
  returns_new (apply_operation n op a) h (outcome op t).
Proof.
  intros Hrepr Hn. destruct op as [color|color|v|v|angle pivot]; simpl.
  - by apply fill_new.
  - by apply stroke_new.
  - by apply translate_new.
  - unfold returns_new. rewrite (position_translate _ _ _ _ _ Hrepr).
    by apply translate_new.
  - by apply rotate_new.
Qed.


(** C3, as amended.  For a diagram [d] all of whose coordinates the JSON
    round trip of [copy] keeps, [d.translate(v)] returns a tree whose root
    origin is [d.origin + v], in which the origin of every node and every
    point of every path of every node is the old one plus [v]. *)
Theorem translate_moves_origins_and_points (n : nat) (v : Vector2 R) h (d : ref) t :
  repr h d t →
  height t ≤ n →
  JSON_tree t = t →
  ∃ d' h' t',
    translate n v d h = Ok d' h' ∧
    repr h' d' t' ∧
    t' = shift v t ∧
    t_origin t' = Vector2_add (t_origin t) v ∧
    all_origins t' = map (λ o, Vector2_add o v) (all_origins t) ∧
    all_points t' = map (λ p, Vector2_add p v) (all_points t).
Proof.
  intros Hrepr Hn Hkept.
  destruct (translate_new n v t d h Hrepr Hn) as (d' & h' & E & _ & Hnew).
  rewrite Hkept in Hnew.
  exists d', h', (shift v t). split_and!; [done| |done| | |].
  - by eapply new_since_repr.
  - by destruct t.
  - apply all_origins_shift.
  - apply all_points_shift.
Qed.

(** C5, as amended.  For a diagram [d] all of whose path points the JSON
    round trip of [copy] keeps: with a pivot [p] supplied, every point [q]
    of every path at every depth of [d.rotate(a, p)] is
    [(q - p).rotate(a) + p], the one [p] for the whole tree; with the pivot
    left out, and the origin of [d] kept by the round trip as well, the
    pivot used throughout is the origin of [d].  (In general the result is
    the clone of [d] turned about [p], or about the origin of the
    clone.) *)
Theorem rotate_turns_every_point_about_one_pivot
    (n : nat) (angle : R) h (d : ref) t :
  repr h d t →
  height t ≤ n →
  Forall (λ q, JSON_vector q = q) (all_points t) →
  (∀ p, ∃ d' h' t',
      rotate n angle (Some p) d h = Ok d' h' ∧
      repr h' d' t' ∧
      t' = turn angle p (JSON_tree t) ∧
      all_points t' =
        map (λ q, Vector2_add (Vector2_rotate (Vector2_sub q p) angle) p)
            (all_points t)) ∧
  (JSON_vector (t_origin t) = t_origin t →
   ∃ d' h' t',
      rotate n angle None d h = Ok d' h' ∧
      repr h' d' t' ∧
      t' = turn angle (t_origin t) (JSON_tree t) ∧
      all_points t' =
        map (λ q, Vector2_add
                    (Vector2_rotate (Vector2_sub q (t_origin t)) angle)
                    (t_origin t))
            (all_points t)).
Proof.
  intros Hrepr Hn Hkept. split.
  - intros p.
    destruct (rotate_new n angle (Some p) t d h Hrepr Hn) as (d' & h' & E & _ & Hnew).
    simpl in Hnew.
    exists d', h', (turn angle p (JSON_tree t)). split_and!; [done| |done|].
    + by eapply new_since_repr.
    + by rewrite all_points_turn, all_points_JSON_kept.
  - intros Horigin.
    destruct (rotate_new n angle None t d h Hrepr Hn) as (d' & h' & E & _ & Hnew).
    simpl in Hnew. rewrite t_origin_JSON_tree, Horigin in Hnew.
    exists d', h', (turn angle (t_origin t) (JSON_tree t)).
    split_and!; [done| |done|].
    + by eapply new_since_repr.
    + by rewrite all_points_turn, all_points_JSON_kept.
Qed.

(** C9, as amended.  For a diagram [d] all of whose origins the JSON round
    trip of [copy] keeps, whatever the pivot, supplied or not, every node of
    [d.rotate(a, p)] has the origin of the node of [d] it comes from. *)
Theorem rotate_keeps_every_origin
    (n : nat) (angle : R) (pivot : option (Vector2 R)) h (d : ref) t :
  repr h d t →
  height t ≤ n →
  Forall (λ o, JSON_vector o = o) (all_origins t) →
  ∃ d' h' t',
    rotate n angle pivot d h = Ok d' h' ∧
    repr h' d' t' ∧
    same_origins t t' ∧
    all_origins t' = all_origins t.
Proof.
  intros Hrepr Hn Hkept.
  destruct (rotate_new n angle pivot t d h Hrepr Hn) as (d' & h' & E & _ & Hnew).
  eexists d', h', _. split_and!; [done| | |].
  - by eapply new_since_repr.
  - eapply same_origins_trans; [by apply same_origins_JSON_tree|].
    apply same_origins_turn.
  - rewrite all_origins_turn, all_origins_JSON_tree.
    rewrite <-(map_id (all_origins t)) at 2. apply map_ext_in.
    intros o Ho. rewrite Forall_forall in Hkept. apply Hkept.
    by apply list_elem_of_In.
Qed.
End MethodProperties.

Section FurtherProperties.
Context {R : Type} {num : Number R}.
Context {arith : Vector2Arith R} {rot : Vector2Rotate R}.
Implicit Types (h : list (object (R:=R))) (t : tree (R:=R)).

(** C4, as amended.  [d.position(v)] is [d.translate(v - d.origin)].  Its
    result is the clone of [d] moved by [v - d.origin]: its origin is
    [o' + (v - d.origin)], [o'] being the origin of [d] as the JSON round
    trip of [copy] leaves it, and so it is [v] where that sum is [v].
    Positioning the result at [v] again gives the clone of the result moved
    by [v - o1], [o1] being the origin of the result: its origin is
    [o1' + (v - o1)], and it is the same tree, with the same origin and the
    same bounding box, where [q' + (v - o1) = q] for every origin and every
    point [q] of the result. *)
Theorem position_is_translate_and_repeats
    (n : nat) (v : Vector2 R) h (d : ref) t :
  repr h d t →
  height t ≤ n →
  let dv := Vector2_sub v (t_origin t) in
  let t1 := shift dv (JSON_tree t) in
  let z := Vector2_sub v (t_origin t1) in
  let t2 := shift z (JSON_tree t1) in
  position n v d h = translate n dv d h ∧
  ∃ d1 h1 d2 h2,
    position n v d h = Ok d1 h1 ∧
    repr h1 d1 t1 ∧
    t_origin t1 = Vector2_add (JSON_vector (t_origin t)) dv ∧
    (Vector2_add (JSON_vector (t_origin t)) dv = v → t_origin t1 = v) ∧
    position n v d1 h1 = Ok d2 h2 ∧
    repr h2 d2 t2 ∧
    t_origin t2 = Vector2_add (JSON_vector (t_origin t1)) z ∧
    bounding_box n d1 h1 = Ok (bbox t1) h1 ∧
    bounding_box n d2 h2 = Ok (bbox t2) h2 ∧
    ((∀ q, q ∈ all_origins t1 ++ all_points t1 →
           Vector2_add (JSON_vector q) z = q) →
     t2 = t1).
Proof.
  intros Hrepr Hn dv t1 z t2.
  pose proof (position_translate n v t d h Hrepr) as Epos. fold dv in Epos.
  split; [done|].
  destruct (translate_new n dv t d h Hrepr Hn) as (d1 & h1 & E1 & _ & Hnew1).
  apply new_since_repr in Hnew1. fold t1 in Hnew1.
  assert (t_origin t1 = Vector2_add (JSON_vector (t_origin t)) dv) as Ho1.
  { unfold t1. by rewrite t_origin_shift, t_origin_JSON_tree. }
  assert (height t1 ≤ n) as Hn1.
  { unfold t1. by rewrite height_shift, height_JSON_tree. }
  pose proof (position_translate n v t1 d1 h1 Hnew1) as Epos2. fold z in Epos2.
  destruct (translate_new n z t1 d1 h1 Hnew1 Hn1) as (d2 & h2 & E2 & _ & Hnew2).
  apply new_since_repr in Hnew2. fold t2 in Hnew2.
  assert (height t2 ≤ n) as Hn2.
  { unfold t2. by rewrite height_shift, height_JSON_tree. }
  exists d1, h1, d2, h2. split_and!.
  - by rewrite Epos.
  - done.
  - done.
  - intros Hexact. by rewrite Ho1.
  - by rewrite Epos2.
  - done.
  - unfold t2. by rewrite t_origin_shift, t_origin_JSON_tree.
  - by eapply bounding_box_repr.
  - by eapply bounding_box_repr.
  - apply shift_JSON_fixed.
Qed.



(** C7, as amended.  [polygon(points, names)] throws its validation error
    exactly when there are fewer than 3 points.  Otherwise, provided the
    names it ends up with (the default names path0, path1, ... with a prefix
    overridden by [names]) are all different and none of them is
    ["__proto__"], it returns a new Polygon with exactly [len(points) - 1]
    paths, the path under name [i] running from point [i] to point
    [i + 1], and so none from the last point to the first. *)
Theorem polygon_validates_and_joins_consecutive_points
    (points : list (Vector2 R)) (names : list string) h :
  (polygon points names h = Throw "Polygon must have at least 3 points" ↔
   length points < 3) ∧
  (3 ≤ length points →
   NoDup (polygon_names (length points - 1) names) →
   "__proto__" ∉ polygon_names (length points - 1) names →
   ∃ k h' o,
     polygon points names h = Ok k h' ∧
     h `prefix_of` h' ∧
     length h ≤ k ∧
     h' !! k = Some (ODiagram o) ∧
     type o = DiagramType.Polygon ∧
     children o = [] ∧
     origin o = mkVector2 zero zero ∧
     color_stroke o = None ∧
     color_fill o = None ∧
     length (paths o) = length points - 1 ∧
     ∀ i p q,
       points !! i = Some p → points !! (i + 1) = Some q →
       ∃ name r,
         polygon_names (length points - 1) names !! i = Some name ∧
         obj_get name (paths o) = Some r ∧
         length h ≤ r ∧
         h' !! r = Some (OPath (mkPath [p; q]))).
Proof.
  split.
  - split.
    + intros E. destruct (decide (length points < 3)) as [|Hge]; [done|].
      rewrite polygon_Ok in E by lia. discriminate E.
    + apply polygon_Throw.
  - intros Hlen Hnd Hproto. set (n := length points - 1) in *.
    set (h1 := h ++ map (λ s, OPath (mkPath s)) (polygon_paths points)).
    set (o := polygon_object points names (length h)).
    set (entries := zip (polygon_names n names) (seq (length h) n)).
    assert (length h1 = length h + n) as Hh1.
    { unfold h1. by rewrite length_app, length_map, length_polygon_paths. }
    assert (paths o = obj_set_all entries []) as Hpaths by done.
    assert (entries.*1 = polygon_names n names) as Hkeys.
    { unfold entries. apply fst_zip. by rewrite length_seq, length_polygon_names. }
    exists (length h + n), (h1 ++ [ODiagram o]), o.
    split_and!; try done.
    + rewrite polygon_Ok by done. unfold h1. by rewrite <-app_assoc.
    + unfold h1. rewrite <-app_assoc. by apply prefix_app_r.
    + lia.
    + rewrite <-Hh1. by apply list_lookup_middle.
    + rewrite Hpaths.
      rewrite <-(length_fmap fst), (obj_keys_set_all entries []).
      * simpl. by rewrite Hkeys, length_polygon_names.
      * simpl. by rewrite Hkeys.
      * by rewrite Hkeys.
    + intros i p q Hp Hq.
      assert (i < n) as Hi.
      { apply lookup_lt_Some in Hq. unfold n. lia. }
      destruct (lookup_lt_is_Some_2 (polygon_names n names) i) as [name Hname].
      { by rewrite length_polygon_names. }
      exists name, (length h + i). split_and!; [done| |lia|].
      * rewrite Hpaths, obj_get_set_all.
        { rewrite (last_given_NoDup entries i name (length h + i)); [done| |].
          - by rewrite Hkeys.
          - unfold entries. rewrite lookup_zip_with, Hname. simpl.
            by rewrite lookup_seq_lt. }
        left. intros ->. by apply Hproto, (list_elem_of_lookup_2 _ i).
      * rewrite lookup_app_l by (rewrite Hh1; lia).
        unfold h1. rewrite lookup_app_r by lia.
        replace (length h + i - length h) with i by lia.
        by rewrite list_lookup_fmap, (polygon_paths_lookup points i p q Hp Hq).
Qed.
End FurtherProperties.

(** C8.  [get_parametric_point(t)] throws its unsupported-operation error
    exactly when the path has more than 2 points; on a path of at most 2
    points whose first point is [s] and whose last point is [e] it returns
    [s + (e - s) * t]; and on the path from (0,0) to (4,2), in doubles,
    [get_parametric_point(0.5)] is (2,1). *)
Theorem get_parametric_point_interpolates
    {R : Type} {arith : Vector2Arith R}
    (h : list (object (R:=R))) (this : ref) (pts : list (Vector2 R)) (t : R) :
  h !! this = Some (OPath (mkPath pts)) →
  (get_parametric_point t this h =
     Throw "Get Parametric Point For n>2 is Not Implemented yet" ↔
   2 < length pts) ∧
  (∀ s e, length pts ≤ 2 → head pts = Some s → last pts = Some e →
          get_parametric_point t this h =
            Ok (Vector2_add s (Vector2_scale (Vector2_sub e s) t)) h) ∧
  get_parametric_point 0.5%float 0
    [OPath (mkPath [mkVector2 0%float 0%float; mkVector2 4%float 2%float])] =
    Ok (mkVector2 2%float 1%float)
       [OPath (mkPath [mkVector2 0%float 0%float; mkVector2 4%float 2%float])].
Proof.
  intros Hp. unfold get_parametric_point at 1 2.
  rewrite (bind_Ok _ _ _ _ _ (read_Path_Ok _ _ _ Hp)). simpl.
  split_and!.
  - destruct (decide (2 < length pts)) as [Hgt|Hle]; [done|].
    split; [|done]. intros E. exfalso.
    destruct (last pts), (head pts); discriminate E.
  - intros s e Hlen Hs He.
    rewrite decide_False by lia. by rewrite He, Hs.
  - reflexivity.
Qed.

(** ** Further properties of the methods *)

Section TreeColours.
Context {R : Type} {num : Number R}.
Implicit Types (t : tree (R:=R)).

Lemma t_type_JSON_tree t : t_type (JSON_tree t) = t_type t.
Proof. by destruct t. Qed.

Lemma JSON_tree_filled c t : JSON_tree (filled c t) = filled c (JSON_tree t).
Proof. by destruct t as [[] cs ps o s f]. Qed.

Lemma JSON_tree_stroked c t : JSON_tree (stroked c t) = stroked c (JSON_tree t).
Proof. by destruct t as [[] cs ps o s f]. Qed.

Lemma height_filled c t : height (filled c t) = height t.
Proof. by destruct t as [[] cs ps o s f]. Qed.

Lemma height_stroked c t : height (stroked c t) = height t.
Proof. by destruct t as [[] cs ps o s f]. Qed.

Lemma filled_filled a b t : filled b (filled a t) = filled b t.
Proof. by destruct t as [[] cs ps o s f]. Qed.

Lemma stroked_stroked a b t : stroked b (stroked a t) = stroked b t.
Proof. by destruct t as [[] cs ps o s f]. Qed.

Lemma filled_stroked a b t : filled a (stroked b t) = stroked b (filled a t).
Proof. by destruct t as [[] cs ps o s f]. Qed.


End TreeColours.

Section Outlines.
Context {R : Type} {num : Number R}.
Context {arith : Vector2Arith R} {rot : Vector2Rotate R}.
Implicit Types (t : tree (R:=R)).

(** A map over the coordinates of a tree that keeps everything else. *)
Lemma outline_map (F : tree (R:=R) → tree (R:=R))
    (g : Vector2 R → Vector2 R) (go : Vector2 R → Vector2 R) :
  (∀ ty cs ps o s f,
      F (Node ty cs ps o s f) =
        Node ty (map (λ kt, (kt.1, F kt.2)) cs)
             (map (λ kp, (kp.1, map g kp.2)) ps) (go o) s f) →
  ∀ t, outline (F t) = outline t.
Proof.
  intros HF. induction t as [ty cs ps o s f IH] using tree_ind'.
  rewrite HF. simpl. f_equal.
  - rewrite map_map. simpl.
    induction IH as [|[k t] cs Ht _ IHcs]; [done|].
    simpl in *. by rewrite Ht, IHcs.
  - rewrite map_map. simpl. apply map_ext. intros [k pts]. simpl.
    by rewrite length_map.
Qed.

Lemma outline_JSON_tree t : outline (JSON_tree t) = outline t.
Proof. by apply (outline_map JSON_tree JSON_vector JSON_vector). Qed.

Lemma outline_shift v t : outline (shift v t) = outline t.
Proof.
  by apply (outline_map (shift v) (λ p, Vector2_add p v) (λ o, Vector2_add o v)).
Qed.

Lemma outline_turn angle pivot t : outline (turn angle pivot t) = outline t.
Proof.
  by apply (outline_map (turn angle pivot) (turn_point angle pivot) (λ o, o)).
Qed.
End Outlines.

Section Isolation.
Context {R : Type}.
Implicit Types (h : list (object (R:=R))) (t : tree (R:=R)).

(** Everything a tree of the heap [h] is made of is an object of [h]. *)
Lemma repr_on_allocated h : ∀ t a, repr h a t → repr_on (λ a, a < length h) h a t.
Proof.
  induction t as [ty cs ps o s f IH] using tree_ind'.
  intros a Hrepr.
  inversion Hrepr as [a' d t' _ Hd Hty Ho Hs Hf Hnc Hnp Hcs Hps]; subst.
  apply (repr_on_node _ h a d); auto.
  - by eapply lookup_lt_Some.
  - simpl in Hcs |- *. clear -IH Hcs.
    induction Hcs as [|kr kt rs cs' [Hk Hr] _ IHcs]; constructor.
    + split; [done|]. apply Forall_inv in IH. by apply IH.
    + apply IHcs. by apply Forall_inv_tail in IH.
  - eapply Forall2_impl; [exact Hps|]. intros kr kp (? & _ & Hp).
    split_and!; [done| |done]. by eapply lookup_lt_Some.
Qed.

(** An assignment to an object a tree is not made of leaves the tree as
    it is. *)
Lemma repr_on_insert_other (P : ref → Prop) h k o a t :
  ¬ P k → repr_on P h a t → repr (<[k := o]> h) a t.
Proof.
  intros Hk Hrepr. eapply repr_on_repr, repr_on_agree; [|exact Hrepr].
  intros a' o' HP Ha'. rewrite list_lookup_insert_ne; [done|].
  intros ->. by apply Hk.
Qed.

Lemma new_since_root L h a t : new_since L h a t → L ≤ a.
Proof. intros Hnew. by apply repr_on_node_on in Hnew as [? _]. Qed.

Lemma repr_root h a t : repr h a t → ∃ d, h !! a = Some (ODiagram d).
Proof. intros Hrepr. apply repr_on_node_on in Hrepr as (_ & d & ? & _). by exists d. Qed.
End Isolation.

Section MoreProperties.
Context {R : Type} {num : Number R}.
Context {arith : Vector2Arith R} {rot : Vector2Rotate R}.
Implicit Types (h : list (object (R:=R))) (t : tree (R:=R)).

(** One method call after another. *)
Lemma returns_new_bind (m : M (R:=R) ref) (f : ref → M (R:=R) ref) h t1 t2 :
  returns_new m h t1 →
  (∀ h1 r, repr h1 r t1 → returns_new (f r) h1 t2) →
  returns_new (r ← m; f r) h t2.
Proof.
  intros (r & h1 & E1 & Hpre1 & Hnew1) Hf.
  destruct (Hf h1 r (new_since_repr _ _ _ _ Hnew1)) as (k & h2 & E2 & Hpre2 & Hnew2).
  exists k, h2. split_and!.
  - by rewrite (bind_Ok _ _ _ _ _ E1).
  - by etrans.
  - eapply repr_on_mono; [|exact Hnew2]. simpl.
    pose proof (prefix_length _ _ Hpre1). lia.
Qed.

(** X1.  [copy] returns a deep clone: every object of the result, node or
    path, is allocated by the call; no object that existed is changed, so
    the receiver stands for the tree it stood for; and the clone stands for
    the tree of the receiver with its numbers as JSON keeps them, which is
    the same tree where JSON keeps them all. *)
Theorem copy_returns_an_independent_clone (n : nat) h (d : ref) t :
  repr h d t →
  height t ≤ n →
  ∃ d' h',
    copy n d h = Ok d' h' ∧
    new_since (length h) h' d' (JSON_tree t) ∧
    (∀ a o, h !! a = Some o → h' !! a = Some o) ∧
    repr h' d t ∧
    (JSON_tree t = t → repr h' d' t).
Proof.
  intros Hrepr Hn.
  destruct (copy_new n t d h Hrepr Hn) as (d' & h' & E & Hpre & Hnew).
  exists d', h'. split_and!; [done|done| | |].
  - intros a o Ha. by eapply prefix_lookup_Some.
  - by eapply repr_on_prefix.
  - intros <-. by eapply new_since_repr.
Qed.

(** X2.  A copy of a copy is a third object that stands for the same tree
    as the copy: after the first round trip through JSON a second one
    changes nothing. *)
Theorem copy_of_a_copy_is_the_same_tree (n : nat) h (d : ref) t :
  repr h d t →
  height t ≤ n →
  ∃ d1 h1 d2 h2,
    copy n d h = Ok d1 h1 ∧
    copy n d1 h1 = Ok d2 h2 ∧
    d ≠ d1 ∧ d1 ≠ d2 ∧ d ≠ d2 ∧
    repr h2 d1 (JSON_tree t) ∧
    repr h2 d2 (JSON_tree t).
Proof.
  intros Hrepr Hn.
  destruct (copy_new n t d h Hrepr Hn) as (d1 & h1 & E1 & Hpre1 & Hnew1).
  pose proof (new_since_repr _ _ _ _ Hnew1) as Hr1.
  assert (height (JSON_tree t) ≤ n) as Hn1 by (by rewrite height_JSON_tree).
  destruct (copy_new n _ d1 h1 Hr1 Hn1) as (d2 & h2 & E2 & Hpre2 & Hnew2).
  rewrite JSON_tree_twice in Hnew2.
  destruct (repr_root _ _ _ Hrepr) as (o & Ho%lookup_lt_Some).
  destruct (repr_root _ _ _ Hr1) as (o1 & Ho1%lookup_lt_Some).
  apply new_since_root in Hnew1 as Hd1. apply new_since_root in Hnew2 as Hd2.
  pose proof (prefix_length _ _ Hpre1).
  exists d1, h1, d2, h2. split_and!; [done|done|lia|lia|lia| |].
  - by eapply repr_on_prefix.
  - by eapply new_since_repr.
Qed.

(** X3.  [fill] and [stroke] change nothing below the root: what they
    return differs from what [copy] returns in one colour of the root at
    most, the fill on a Polygon, the stroke on a Polygon or a Curve; on a
    Group they return what [copy] returns. *)
Theorem fill_and_stroke_change_only_the_root_colour
    (n : nat) (color : string) h (d : ref) t :
  repr h d t →
  height t ≤ n →
  ∃ tc,
    returns_new (copy n d) h tc ∧
    returns_new (fill n color d) h
      (match t_type t with
       | DiagramType.Polygon => t_with_fill tc (Some color)
       | DiagramType.Curve | DiagramType.Diagram => tc
       end) ∧
    returns_new (stroke n color d) h
      (match t_type t with
       | DiagramType.Polygon | DiagramType.Curve => t_with_stroke tc (Some color)
       | DiagramType.Diagram => tc
       end).
Proof.
  intros Hrepr Hn. exists (JSON_tree t). split_and!.
  - by apply copy_new.
  - pose proof (fill_new n color t d h Hrepr Hn) as Hfill.
    unfold filled in Hfill. by rewrite t_type_JSON_tree in Hfill.
  - pose proof (stroke_new n color t d h Hrepr Hn) as Hstroke.
    unfold stroked in Hstroke. rewrite t_type_JSON_tree in Hstroke.
    by destruct (t_type t).
Qed.

(** X4.  Of two fills, or two strokes, the last one counts, and a fill and
    a stroke can be given in either order: the results stand for the same
    tree. *)
Theorem fill_and_stroke_compose (n : nat) (a b : string) h (d : ref) t :
  repr h d t →
  height t ≤ n →
  ∃ t1 t2 t3,
    returns_new (d1 ← fill n a d; fill n b d1) h t1 ∧
    returns_new (fill n b d) h t1 ∧
    returns_new (d1 ← stroke n a d; stroke n b d1) h t2 ∧
    returns_new (stroke n b d) h t2 ∧
    returns_new (d1 ← fill n a d; stroke n b d1) h t3 ∧
    returns_new (d1 ← stroke n b d; fill n a d1) h t3.
Proof.
  intros Hrepr Hn. set (c := JSON_tree t).
  assert (height c ≤ n) as Hc by (unfold c; by rewrite height_JSON_tree).
  exists (filled b c), (stroked b c), (stroked b (filled a c)).
  split_and!.
  - eapply returns_new_bind; [by apply fill_new|].
    intros h1 r Hr.
    replace (filled b c) with (filled b (JSON_tree (filled a c))).
    { apply fill_new; [done|]. by rewrite height_filled. }
    unfold c. by rewrite JSON_tree_filled, JSON_tree_twice, filled_filled.
  - by apply fill_new.
  - eapply returns_new_bind; [by apply stroke_new|].
    intros h1 r Hr.
    replace (stroked b c) with (stroked b (JSON_tree (stroked a c))).
    { apply stroke_new; [done|]. by rewrite height_stroked. }
    unfold c. by rewrite JSON_tree_stroked, JSON_tree_twice, stroked_stroked.
  - by apply stroke_new.
  - eapply returns_new_bind; [by apply fill_new|].
    intros h1 r Hr.
    replace (stroked b (filled a c)) with (stroked b (JSON_tree (filled a c))).
    { apply stroke_new; [done|]. by rewrite height_filled. }
    unfold c. by rewrite JSON_tree_filled, JSON_tree_twice.
  - eapply returns_new_bind; [by apply stroke_new|].
    intros h1 r Hr.
    replace (stroked b (filled a c)) with (filled a (JSON_tree (stroked b c))).
    { apply fill_new; [done|]. by rewrite height_stroked. }
    unfold c. by rewrite JSON_tree_stroked, JSON_tree_twice, filled_stroked.
Qed.


(** X6.  [add_paths] throws "Diagram cannot have paths" exactly on a
    Group, whatever the paths and names, also when there are none; on a
    Polygon or a Curve it returns.  [add_childs] asks nothing of the node: it
    returns on a Polygon and on a Curve as it does on a Group. *)
Theorem add_paths_throws_exactly_on_a_group
    (items : list ref) (names : list string) h (this : ref) (o : Diagram (R:=R)) :
  h !! this = Some (ODiagram o) →
  (add_paths items names this h = Throw "Diagram cannot have paths" ↔
   type o = DiagramType.Diagram) ∧
  (type o ≠ DiagramType.Diagram → ∃ h', add_paths items names this h = Ok tt h') ∧
  (∃ h', add_childs items names this h = Ok tt h').
Proof.
  intros Ho. split_and!.
  - split; [|by apply add_paths_Throw].
    intros E. destruct (type o) eqn:Ety; [exfalso..|done];
      rewrite (add_paths_Ok _ _ _ _ _ Ho) in E by (by rewrite Ety);
      discriminate E.
  - intros Hty. eexists. by apply add_paths_Ok.
  - eexists. by apply add_childs_Ok.
Qed.

(** X7.  [copy], [translate], [position] and [rotate] keep the outline of
    the tree: the type of every node, the names of its children and paths
    and their order, both colours, and the number of points of every path;
    this whatever the coordinates are. *)
Theorem moves_keep_the_outline
    (n : nat) (v : Vector2 R) (angle : R) (pivot : option (Vector2 R))
    h (d : ref) t :
  repr h d t →
  height t ≤ n →
  ∀ m, m ∈ [copy n; translate n v; position n v; rotate n angle pivot] →
       ∃ d' h' t',
         m d h = Ok d' h' ∧ repr h' d' t' ∧ outline t' = outline t.
Proof.
  intros Hrepr Hn m Hm.
  assert (∃ t', returns_new (m d) h t' ∧ outline t' = outline t)
    as (t' & (d' & h' & E & _ & Hnew) & Hout).
  { repeat (apply elem_of_cons in Hm as [->|Hm]).
    - eexists. split; [by apply copy_new|]. apply outline_JSON_tree.
    - eexists. split; [by apply translate_new|].
      by rewrite outline_shift, outline_JSON_tree.
    - eexists. split; [exact (apply_operation_new (Position v) n t d h Hrepr Hn)|].
      simpl. by rewrite outline_shift, outline_JSON_tree.
    - eexists. split; [by apply rotate_new|].
      by rewrite outline_turn, outline_JSON_tree.
    - by apply elem_of_nil in Hm. }
  exists d', h', t'. split_and!; [done| |done]. by eapply new_since_repr.
Qed.

(** X8.  What a method returns and its receiver have no object in
    common: an [add_childs] on the result leaves the receiver standing for
    its tree, and an [add_childs] on the receiver leaves the result standing
    for its tree.  This for [copy] and for every operation. *)
Theorem results_and_receivers_share_no_object
    (n : nat) (items : list ref) (names : list string) h (d : ref) t :
  repr h d t →
  height t ≤ n →
  ∀ m t', (m = copy n ∧ t' = JSON_tree t) ∨
          (∃ op, m = apply_operation n op ∧ t' = outcome op t) →
    ∃ d' h',
      m d h = Ok d' h' ∧
      repr h' d' t' ∧
      (∃ h2, add_childs items names d' h' = Ok tt h2 ∧
             repr h2 d t ∧ h2 !! d = h !! d) ∧
      (∃ h2, add_childs items names d h' = Ok tt h2 ∧ repr h2 d' t').
Proof.
  intros Hrepr Hn m t' Hm.
  assert (returns_new (m d) h t') as (d' & h' & E & Hpre & Hnew).
  { destruct Hm as [[-> ->]|(op & -> & ->)];
      [by apply copy_new|by apply apply_operation_new]. }
  pose proof (new_since_repr _ _ _ _ Hnew) as Hr'.
  pose proof (new_since_root _ _ _ _ Hnew) as Hd'.
  destruct (repr_root _ _ _ Hrepr) as (o & Ho).
  destruct (repr_root _ _ _ Hr') as (o' & Ho').
  pose proof (lookup_lt_Some _ _ _ Ho) as Hd.
  exists d', h'. split_and!; [done|done| |].
  - eexists. split_and!; [by apply add_childs_Ok| |].
    + apply (repr_on_insert_other (λ a, a < length h)); [lia|].
      eapply repr_on_prefix; [done|]. by apply repr_on_allocated.
    + rewrite list_lookup_insert_ne by lia.
      by rewrite Ho, (prefix_lookup_Some _ _ _ _ Ho Hpre).
  - pose proof (prefix_lookup_Some _ _ _ _ Ho Hpre) as Ho2.
    eexists. split; [by apply add_childs_Ok|].
    apply (repr_on_insert_other (λ a, length h ≤ a)); [lia|done].
Qed.
End MoreProperties.

Section PathProperties.
Context {R : Type} {arith : Vector2Arith R} {rot : Vector2Rotate R}.
Implicit Types (h : list (object (R:=R))).

(** X9.  [get_parametric_point] on the short paths: on a path without
    points it fails with a TypeError (the last point is [undefined]); on a
    path of one point [s] it returns [s + (s - s) * t]; and it changes
    nothing. *)
Theorem get_parametric_point_on_short_paths
    h (this : ref) (pts : list (Vector2 R)) (t : R) :
  h !! this = Some (OPath (mkPath pts)) →
  (pts = [] → get_parametric_point t this h = Throw "TypeError") ∧
  (∀ s, pts = [s] →
        get_parametric_point t this h =
          Ok (Vector2_add s (Vector2_scale (Vector2_sub s s) t)) h) ∧
  (∀ r h', get_parametric_point t this h = Ok r h' → h' = h).
Proof.
  intros Hp. unfold get_parametric_point.
  rewrite (bind_Ok _ _ _ _ _ (read_Path_Ok _ _ _ Hp)). simpl.
  split_and!.
  - by intros ->.
  - by intros s ->.
  - intros r h'. destruct (decide (2 < length pts)); [done|].
    destruct (last pts), (head pts); [|done..]. by intros [= _ ->].
Qed.

(** X10.  [copy], [translate] and [rotate] of a Path allocate one new Path,
    the result, and change no object there was; the result has the points
    of the receiver in their order, as many as there were: as they are,
    moved by [v], or turned by [angle] about [pivot]. *)
Theorem path_methods_return_a_new_path
    (v : Vector2 R) (angle : R) (pivot : Vector2 R)
    h (this : ref) (pts : list (Vector2 R)) :
  h !! this = Some (OPath (mkPath pts)) →
  ∀ m g, (m, g) ∈ [(Path_copy, λ q, q);
                   (Path_translate v, λ q, Vector2_add q v);
                   (Path_rotate angle pivot,
                    λ q, Vector2_add (Vector2_rotate (Vector2_sub q pivot) angle) pivot)] →
    ∃ h' pts',
      m this h = Ok (length h) h' ∧
      length h' = S (length h) ∧
      (∀ a o, h !! a = Some o → h' !! a = Some o) ∧
      h' !! length h = Some (OPath (mkPath pts')) ∧
      length pts' = length pts ∧
      ∀ i q, pts !! i = Some q → pts' !! i = Some (g q).
Proof.
  intros Hp m g Hm.
  assert (m this h = Ok (length h) (h ++ [OPath (mkPath (map g pts))])) as E.
  { repeat (apply elem_of_cons in Hm as [[= -> ->]|Hm]).
    - rewrite (Path_copy_Ok _ _ _ Hp). by rewrite map_id.
    - by apply Path_translate_Ok.
    - by apply Path_rotate_Ok.
    - by apply elem_of_nil in Hm. }
  exists (h ++ [OPath (mkPath (map g pts))]), (map g pts). split_and!.
  - done.
  - rewrite length_app. simpl. lia.
  - intros a o Ha. by apply lookup_app_l_Some.
  - by apply list_lookup_middle.
  - by rewrite length_map.
  - intros i q Hq. by rewrite list_lookup_fmap, Hq.
Qed.
End PathProperties.

Section AnchorProperties.
Context {R : Type} {num : Number R} {ops : NumberArith R}.
Implicit Types (h : list (object (R:=R))) (t : tree (R:=R)).

End AnchorProperties.


(** ** Attaching children and paths *)

Section ParallelAssignments.
Context {A B : Type} (Rel : string * A → string * B → Prop).
Hypothesis Rel_key : ∀ ka kb, Rel ka kb → ka.1 = kb.1.

Lemma Forall2_Rel_keys rs ts : Forall2 Rel rs ts → obj_keys rs = obj_keys ts.
Proof.
  unfold obj_keys. induction 1 as [|ka kb rs ts HR _ IH]; [done|].
  rewrite !fmap_cons. f_equal; [by apply Rel_key|done].
Qed.

Lemma obj_replace_Forall2 k a b rs ts :
  Rel (k, a) (k, b) → Forall2 Rel rs ts →
  Forall2 Rel (obj_replace k a rs) (obj_replace k b ts).
Proof.
  intros Hab. induction 1 as [|[k1 a1] [k2 b1] rs ts HR Hrest IH]; [constructor|].
  pose proof (Rel_key _ _ HR) as Hk. simpl in Hk. subst k2. simpl.
  destruct (decide (k1 = k)) as [->|]; constructor; auto.
Qed.

Lemma obj_insert_index_Forall2 i k a b rs ts :
  Rel (k, a) (k, b) → Forall2 Rel rs ts →
  Forall2 Rel (obj_insert_index i k a rs) (obj_insert_index i k b ts).
Proof.
  intros Hab. induction 1 as [|[k1 a1] [k2 b1] rs ts HR Hrest IH];
    [by repeat constructor|].
  pose proof (Rel_key _ _ HR) as Hk. simpl in Hk. subst k2. simpl.
  destruct (array_index k1) as [j|]; [destruct (decide (j < i)%N)|];
    repeat (constructor; auto).
Qed.

Lemma obj_set_Forall2 k a b rs ts :
  Rel (k, a) (k, b) → Forall2 Rel rs ts →
  Forall2 Rel (obj_set k a rs) (obj_set k b ts).
Proof.
  intros Hab Hrs. unfold obj_set.
  rewrite <-(Forall2_Rel_keys _ _ Hrs).
  destruct (decide (k ∈ obj_keys rs)); [by apply obj_replace_Forall2|].
  destruct (decide (k = "__proto__")); [done|].
  destruct (array_index k); [by apply obj_insert_index_Forall2|].
  apply Forall2_app; [done|by repeat constructor].
Qed.

Lemma obj_set_all_Forall2 es fs : Forall2 Rel es fs → ∀ rs ts,
  Forall2 Rel rs ts → Forall2 Rel (obj_set_all es rs) (obj_set_all fs ts).
Proof.
  unfold obj_set_all.
  induction 1 as [|[k a] [k' b] es fs HR _ IH]; intros rs ts Hrs; [done|].
  pose proof (Rel_key _ _ HR) as Hk. simpl in Hk. subst k'. simpl.
  apply IH. by apply obj_set_Forall2.
Qed.
End ParallelAssignments.

Lemma Forall2_imap {A B C D} (Q : A → B → Prop) (Rel : C → D → Prop) l1 l2 :
  Forall2 Q l1 l2 → ∀ (f : nat → A → C) (g : nat → B → D),
  (∀ i x y, Q x y → Rel (f i x) (g i y)) →
  Forall2 Rel (imap f l1) (imap g l2).
Proof.
  induction 1 as [|x y l1 l2 HQ _ IH]; intros f g Hfg; [constructor|].
  simpl. constructor; [by apply Hfg|]. apply IH. intros i. apply Hfg.
Qed.

Section Attaching.
Context {R : Type}.
Implicit Types (h : list (object (R:=R))) (t : tree (R:=R)).

(** A reference stands for one tree at most. *)
Lemma repr_on_functional P Q h : ∀ t a t',
  repr_on P h a t → repr_on Q h a t' → t = t'.
Proof.
  induction t as [ty cs ps o s f IH] using tree_ind'.
  intros a [ty' cs' ps' o' s' f'] H1 H2.
  inversion H1 as [a1 d1 t1 _ Hd1 Hty1 Ho1 Hs1 Hf1 _ _ Hcs1 Hps1]; subst.
  inversion H2 as [a2 d2 t2 _ Hd2 Hty2 Ho2 Hs2 Hf2 _ _ Hcs2 Hps2]; subst.
  assert (d2 = d1) as -> by congruence. simpl in *.
  f_equal; try congruence.
  - clear -IH Hcs1 Hcs2. revert cs' Hcs2.
    induction Hcs1 as [|kr [k t] rs cs [Hk Hr] _ IHcs]; intros cs' Hcs2.
    + by inversion Hcs2.
    + apply Forall2_cons_inv_l in Hcs2 as ([k' t'] & cs'' & [Hk' Hr'] & Hcs2 & ->).
      simpl in *. f_equal.
      * f_equal; [congruence|]. eapply (Forall_inv IH); eassumption.
      * apply IHcs; [exact (Forall_inv_tail IH)|done].
  - clear -Hps1 Hps2. revert ps' Hps2.
    induction Hps1 as [|kr [k pts] rs ps (Hk & _ & Hp) _ IHps]; intros ps' Hps2.
    + by inversion Hps2.
    + apply Forall2_cons_inv_l in Hps2 as ([k' pts'] & ps'' & (Hk' & _ & Hp') & Hps2 & ->).
      simpl in *. f_equal; [f_equal; congruence|by apply IHps].
Qed.

(** A tree does not hold its own root: all that lies below the root [g]
    is made of other objects. *)
Lemma repr_on_below_root h g T :
  repr h g T →
  ∀ t a, repr h a t → height t < height T → repr_on (λ a, a ≠ g) h a t.
Proof.
  intros HT. induction t as [ty cs ps o s f IH] using tree_ind'.
  intros a Hrepr Hlt.
  inversion Hrepr as [a' d t' _ Hd Hty Ho Hs Hf Hnc Hnp Hcs Hps]; subst.
  apply (repr_on_node _ h a d); auto.
  - intros ->. pose proof (repr_on_functional _ _ _ _ _ _ Hrepr HT) as <-. lia.
  - simpl in Hcs |- *.
    eapply Forall2_impl_elem; [exact Hcs|].
    intros [k r] [k' x] _ Hin [Hk Hr]. split; [done|]. simpl in Hk, Hr |- *.
    rewrite Forall_forall in IH. apply (IH _ Hin); [done|].
    pose proof (height_child _ _ ty _ ps o s f Hin). simpl in *. lia.
  - eapply Forall2_impl; [exact Hps|]. intros kr kp (? & _ & Hp).
    split_and!; [done| |done]. intros Hg.
    destruct (repr_root _ _ _ HT) as (dg & Hdg). congruence.
Qed.

Lemma node_on_below_root h g T : repr h g T → node_on (λ a, a ≠ g) h g T.
Proof.
  intros HT.
  pose proof HT as (_ & d & Hd & ? & ? & ? & ? & ? & ? & Hcs & Hps)%repr_on_node_on.
  exists d. split_and!; try done.
  - eapply Forall2_impl_elem; [exact Hcs|].
    intros [k r] [k' x] _ Hin [Hk Hr]. split; [done|]. simpl in Hk, Hr |- *.
    eapply repr_on_below_root; [done|done|].
    destruct T as [ty cs ps o s f]. by eapply height_child.
  - eapply Forall2_impl; [exact Hps|]. intros kr kp (? & _ & Hp).
    split_and!; [done| |done]. intros Hg. congruence.
Qed.

(** X13.  [add_childs] attaches trees: if none of the children holds the
    node itself and none of the names used is ["__proto__"], the node
    stands afterwards for its tree with other children.  Among them every
    name given stands for the tree of the last child given under it, and
    every other name for what it stood for; they are in the order of the
    assignments [children[names[i]] = childs[i]].  The children stand for
    the trees they stood for. *)
Theorem add_childs_attaches_trees
    (childs : list ref) (names : list string) (ts : list (tree (R:=R)))
    h (this : ref) t :
  repr h this t →
  Forall2 (λ c tc, repr_on (λ a, a ≠ this) h c tc) childs ts →
  "__proto__" ∉ (named names ts).*1 →
  ∃ h' cs,
    add_childs childs names this h = Ok tt h' ∧
    repr h' this (t_with_children t cs) ∧
    (∀ s, obj_get s cs =
            match last_given s (named names ts) with
            | Some tc => Some tc
            | None => obj_get s (t_children t)
            end) ∧
    cs = obj_set_all (named names ts) (t_children t) ∧
    Forall2 (repr h') childs ts.
Proof.
  intros Hrepr Hchilds Hproto.
  destruct (node_on_below_root _ _ _ Hrepr)
    as (d & Hd & Hty & Ho & Hs & Hf & Hnc & Hnp & Hcs & Hps).
  set (P := λ a : ref, a ≠ this) in *.
  set (d' := with_children d (obj_set_all (given_entries childs names) (children d))).
  assert (∀ a o, P a → h !! a = Some o → <[this := ODiagram d']> h !! a = Some o)
    as Hagree.
  { intros a o HP Ha. by rewrite list_lookup_insert_ne. }
  exists (<[this := ODiagram d']> h),
    (obj_set_all (named names ts) (t_children t)).
  split_and!; [| |intros s; by apply obj_get_set_all_named|done|].
  - by apply add_childs_Ok.
  - apply repr_on_node_on. split; [done|]. exists d'. split_and!; try done.
    + apply list_lookup_insert_eq. by eapply lookup_lt_Some.
    + simpl. by apply obj_set_all_NoDup.
    + simpl.
      eapply Forall2_impl; [apply (obj_set_all_Forall2 (child_on P h))|].
      * by intros ?? [? _].
      * unfold given_entries, named.
        eapply Forall2_imap; [exact Hchilds|]. intros i c tc Hc. by split.
      * exact Hcs.
      * intros kr kt Hc. eapply child_on_mono; [|by eapply child_on_agree]. done.
    + simpl. eapply Forall2_impl; [exact Hps|].
      intros kr kp Hp. eapply path_on_mono; [|by eapply path_on_agree]. done.
  - eapply Forall2_impl; [exact Hchilds|]. intros c tc Hc.
    eapply repr_on_repr, repr_on_agree; [exact Hagree|exact Hc].
Qed.

(** X14.  [add_paths] attaches paths: on a Polygon or a Curve, if none of
    the names used is ["__proto__"], the node stands afterwards for its
    tree with other paths.  Among them every name given stands for the
    points of the last path given under it, and every other name for what
    it stood for; they are in the order of the assignments
    [paths[names[i]] = paths[i]]. *)
Theorem add_paths_attaches_paths
    (paths_ : list ref) (names : list string) (pss : list (list (Vector2 R)))
    h (this : ref) t :
  repr h this t →
  t_type t ≠ DiagramType.Diagram →
  Forall2 (λ r pts, h !! r = Some (OPath (mkPath pts))) paths_ pss →
  "__proto__" ∉ (named names pss).*1 →
  ∃ h' ps,
    add_paths paths_ names this h = Ok tt h' ∧
    repr h' this (t_with_paths t ps) ∧
    (∀ s, obj_get s ps =
            match last_given s (named names pss) with
            | Some pts => Some pts
            | None => obj_get s (t_paths t)
            end) ∧
    ps = obj_set_all (named names pss) (t_paths t).
Proof.
  intros Hrepr Htype Hpaths Hproto.
  destruct (node_on_below_root _ _ _ Hrepr)
    as (d & Hd & Hty & Ho & Hs & Hf & Hnc & Hnp & Hcs & Hps).
  set (P := λ a : ref, a ≠ this) in *.
  set (d' := with_paths d (obj_set_all (given_entries paths_ names) (paths d))).
  assert (∀ a o, P a → h !! a = Some o → <[this := ODiagram d']> h !! a = Some o)
    as Hagree.
  { intros a o HP Ha. by rewrite list_lookup_insert_ne. }
  exists (<[this := ODiagram d']> h),
    (obj_set_all (named names pss) (t_paths t)).
  split_and!; [| |intros s; by apply obj_get_set_all_named|done].
  - apply add_paths_Ok; [done|]. by rewrite Hty.
  - apply repr_on_node_on. split; [done|]. exists d'. split_and!; try done.
    + apply list_lookup_insert_eq. by eapply lookup_lt_Some.
    + simpl. by apply obj_set_all_NoDup.
    + simpl. eapply Forall2_impl; [exact Hcs|].
      intros kr kt Hc. eapply child_on_mono; [|by eapply child_on_agree]. done.
    + simpl.
      eapply Forall2_impl; [apply (obj_set_all_Forall2 (path_on P h))|].
      * by intros ?? [? _].
      * unfold given_entries, named.
        eapply Forall2_imap; [exact Hpaths|]. intros i r pts Hr.
        split_and!; [done| |done]. unfold P. simpl. intros ->. congruence.
      * exact Hps.
      * intros kr kp Hp. eapply path_on_mono; [|by eapply path_on_agree]. done.
Qed.
End Attaching.

Section PolygonPaths.
Context {R : Type} {num : Number R} {arith : Vector2Arith R}.
Implicit Types (h : list (object (R:=R))).

(** X15.  Whatever the names, also where names repeat and paths are
    replaced: every path of the node [polygon] returns joins two
    consecutive points, so [get_parametric_point] returns on every one of
    them, with the point [p + (q - p) * t] of its segment. *)
Theorem every_path_of_a_polygon_can_be_evaluated
    (points : list (Vector2 R)) (names : list string) h :
  3 ≤ length points →
  ∃ k h' o,
    polygon points names h = Ok k h' ∧
    h' !! k = Some (ODiagram o) ∧
    ∀ name r,
      obj_get name (paths o) = Some r →
      ∃ i p q,
        points !! i = Some p ∧ points !! (i + 1) = Some q ∧
        h' !! r = Some (OPath (mkPath [p; q])) ∧
        ∀ t, get_parametric_point t r h' =
               Ok (Vector2_add p (Vector2_scale (Vector2_sub q p) t)) h'.
Proof.
  intros Hlen. set (n := length points - 1).
  set (h1 := h ++ map (λ s, OPath (mkPath s)) (polygon_paths points)).
  set (o := polygon_object points names (length h)).
  assert (length h1 = length h + n) as Hh1.
  { unfold h1. by rewrite length_app, length_map, length_polygon_paths. }
  exists (length h + n), (h1 ++ [ODiagram o]), o. split_and!.
  - rewrite polygon_Ok by done. unfold h1. by rewrite <-app_assoc.
  - rewrite <-Hh1. by apply list_lookup_middle.
  - intros name r Hget. unfold o, polygon_object in Hget. simpl in Hget.
    apply obj_get_set_all_Some in Hget as [Elast|Hget]; [|done].
    fold n in Elast. apply elem_of_zip_r, elem_of_seq in Elast.
    set (i := r - length h).
    destruct (lookup_lt_is_Some_2 points i) as [p Hp]; [unfold n in *; lia|].
    destruct (lookup_lt_is_Some_2 points (i + 1)) as [q Hq]; [unfold n in *; lia|].
    assert ((h1 ++ [ODiagram o]) !! r = Some (OPath (mkPath [p; q]))) as Hr.
    { rewrite lookup_app_l by lia. unfold h1. rewrite lookup_app_r by lia.
      fold i. by rewrite list_lookup_fmap, (polygon_paths_lookup points i p q Hp Hq). }
    exists i, p, q. split_and!; [done|done|done|].
    intros t. unfold get_parametric_point.
    by rewrite (bind_Ok _ _ _ _ _ (read_Path_Ok _ _ _ Hr)).
Qed.
End PolygonPaths.

(** ** Plots of data *)

Section Runs.
Context {R : Type} {ord : NumberOrder R}.
Variable opt : axes_options R.
Implicit Types (st : list (list (Vector2 R)) * list (Vector2 R)).
Implicit Types (l s rest before : list (Vector2 R)).

Lemma plotv_step_eq (st : list (list (Vector2 R)) * list (Vector2 R)) p :
  plotv_step opt st p =
    if negb (is_inside opt p) then
      (if bool_decide (1 < length st.2) then st.1 ++ [st.2] else st.1, [])
    else (st.1, st.2 ++ [p]).
Proof. by destruct st. Qed.

Lemma runs_seen_step l st p : runs_seen opt l st → runs_seen opt (l ++ [p]) ((plotv_step opt) st p).
Proof.
  destruct st as [segs cur]. intros (Hcur & (before & -> & Hbefore) & Hsegs).
  rewrite plotv_step_eq. unfold runs_seen. simpl in *.
  destruct (is_inside opt p) eqn:Hp; simpl.
  - split_and!.
    + apply Forall_app. split; [done|]. by constructor.
    + exists before. by rewrite <-app_assoc.
    + intros s Hs. destruct (Hsegs s Hs) as (? & ? & b & q & a & E & ? & ?).
      split_and!; [done|done|]. exists b, q, (a ++ [p]). split_and!; [|done|done].
      rewrite E. by rewrite <-!app_assoc.
  - split_and!.
    + constructor.
    + exists ((before ++ cur) ++ [p]). split; [by rewrite app_nil_r|].
      intros q. rewrite last_snoc. by intros [= <-].
    + intros s Hs.
      assert (s ∈ segs ∨ 1 < length cur ∧ s = cur) as [Hin|[Hlen ->]].
      { destruct (bool_decide (1 < length cur)) eqn:E; [|by left].
        apply bool_decide_eq_true in E.
        apply elem_of_app in Hs as [?|Hs]; [by left|].
        apply list_elem_of_singleton in Hs as ->. by right. }
      * destruct (Hsegs s Hin) as (? & ? & b & q & a & E & ? & ?).
        split_and!; [done|done|]. exists b, q, (a ++ [p]). split_and!; [|done|done].
        rewrite E. by rewrite <-!app_assoc.
      * split_and!; [lia|done|]. exists before, p, []. split_and!; [|done|done].
        by rewrite <-app_assoc.
Qed.

Lemma runs_seen_fold rest : ∀ l st,
  runs_seen opt l st → runs_seen opt (l ++ rest) (fold_left (plotv_step opt) rest st).
Proof.
  induction rest as [|p rest IH]; intros l st Hst; cbn [fold_left].
  - by rewrite app_nil_r.
  - replace (l ++ p :: rest) with ((l ++ [p]) ++ rest) by (by rewrite <-app_assoc).
    by apply IH, runs_seen_step.
Qed.

Lemma runs_done_sound l st s : runs_seen opt l st → s ∈ plotv_last st → run_of opt l s.
Proof.
  destruct st as [segs cur]. intros (Hcur & (before & -> & Hbefore) & Hsegs) Hs.
  unfold plotv_last in Hs. simpl in *.
  assert (s ∈ segs ∨ 1 < length cur ∧ s = cur) as [Hin|[Hlen ->]].
  { destruct (bool_decide (1 < length cur)) eqn:E; [|by left].
    apply bool_decide_eq_true in E.
    apply elem_of_app in Hs as [?|Hs]; [by left|].
    apply list_elem_of_singleton in Hs as ->. by right. }
  - destruct (Hsegs s Hin) as (? & ? & b & q & a & E & ? & ?).
    split_and!; [done|done|]. exists b, (q :: a). split_and!; [done|done|].
    by intros ? [= <-].
  - split_and!; [lia|done|]. exists before, []. split_and!; [by rewrite app_nil_r|done|done].
Qed.

(** Items that pass the test go to the current segment. *)
Lemma runs_fold_inside s : Forall (λ p, is_inside opt p = true) s → ∀ segs cur,
  fold_left (plotv_step opt) s (segs, cur) = (segs, cur ++ s).
Proof.
  induction 1 as [|p s Hp _ IH]; intros segs cur; cbn [fold_left].
  - by rewrite app_nil_r.
  - rewrite plotv_step_eq. simpl. rewrite Hp. simpl.
    by rewrite IH, <-app_assoc.
Qed.

(** A segment, once in [segments], stays. *)
Lemma runs_fold_keeps rest : ∀ st s,
  s ∈ st.1 → s ∈ (fold_left (plotv_step opt) rest st).1.
Proof.
  induction rest as [|p rest IH]; intros [segs cur] s Hs; [done|].
  cbn [fold_left]. apply IH. rewrite plotv_step_eq. simpl in *.
  destruct (is_inside opt p); simpl; [done|].
  destruct (bool_decide _); [apply elem_of_app; by left|done].
Qed.

Lemma runs_done_keeps st s : s ∈ st.1 → s ∈ plotv_last st.
Proof.
  unfold plotv_last. intros Hs.
  destruct (bool_decide _); [apply elem_of_app; by left|done].
Qed.

(** After an item that fails the test the current segment is empty. *)
Lemma runs_fold_before before : ∀ st,
  st.2 = [] →
  (∀ p, last before = Some p → is_inside opt p = false) →
  (fold_left (plotv_step opt) before st).2 = [].
Proof.
  induction before as [|p before IH] using rev_ind; intros st Hst Hlast; [done|].
  rewrite fold_left_app. cbn [fold_left]. rewrite plotv_step_eq.
  rewrite (Hlast p) by apply last_snoc. done.
Qed.

Lemma runs_done_complete l s :
  run_of opt l s → s ∈ plotv_last (fold_left (plotv_step opt) l ([], [])).
Proof.
  intros (Hlen & Hs & before & after & -> & Hbefore & Hafter).
  rewrite !fold_left_app.
  pose proof (runs_fold_before before ([], []) eq_refl Hbefore) as Hcur.
  destruct (fold_left (plotv_step opt) before ([], [])) as [segs cur]. simpl in Hcur.
  subst cur. rewrite (runs_fold_inside s Hs). simpl.
  destruct after as [|p after].
  - simpl. unfold plotv_last. simpl.
    rewrite bool_decide_eq_true_2 by lia. apply elem_of_app. right. by left.
  - cbn [fold_left]. apply runs_done_keeps, runs_fold_keeps.
    rewrite plotv_step_eq. simpl. rewrite (Hafter p eq_refl). simpl.
    rewrite bool_decide_eq_true_2 by lia. apply elem_of_app. right. by left.
Qed.

Lemma runs_seen_start : runs_seen opt [] ([], []).
Proof.
  split_and!; [constructor| |by intros ? ?%elem_of_nil].
  exists []. split; [done|]. by intros.
Qed.

Lemma runs_done_spec l s :
  s ∈ plotv_last (fold_left (plotv_step opt) l ([], [])) ↔ run_of opt l s.
Proof.
  split; [|apply runs_done_complete].
  apply runs_done_sound. apply (runs_seen_fold l [] _ runs_seen_start).
Qed.

(** All items pass the test: they are the one segment, if they are two
    at least. *)
Lemma runs_done_all_inside l :
  Forall (λ p, is_inside opt p = true) l → 2 ≤ length l →
  plotv_last (fold_left (plotv_step opt) l ([], [])) = [l].
Proof.
  intros Hl Hlen. rewrite (runs_fold_inside l Hl). unfold plotv_last. simpl.
  by rewrite bool_decide_eq_true_2 by lia.
Qed.
End Runs.

Section PlotProperties.
Context {R : Type} {ops : NumberArith R} {ord : NumberOrder R}.
Variable default_axes_options : axes_options R.
Variable V2 : R → R → Vector2 R.
Variable D : Type.
Variable curve : list (Vector2 R) → D.
Variable diagram_combine : list D → D.
Variable D_stroke : D → string → D.
Variable D_fill : D → string → D.
Variable D_transform : D → (Vector2 R → Vector2 R) → D.

Lemma plotv_segments_runs opt (data : list (Vector2 R)) :
  plotv_segments opt data = plotv_last (fold_left (plotv_step opt) data ([], [])).
Proof. unfold plotv_segments, plotv_last. by destruct (fold_left _ _ _). Qed.

(** X16.  The curves [plotv] draws are the runs of the data inside the
    range: a list of points is one of the segments exactly if it is made of
    two or more consecutive points of the data, all of them inside the
    range, with no point inside the range right before it or right after
    it. *)
Theorem plotv_segments_are_the_runs_inside_the_range
    (given : option (axes_options R)) (data s : list (Vector2 R)) :
  let opt := spread default_axes_options given in
  s ∈ plotv_segments opt data ↔
  2 ≤ length s ∧
  Forall (λ p, is_inside opt p = true) s ∧
  ∃ before after,
    data = before ++ s ++ after ∧
    (∀ p, last before = Some p → is_inside opt p = false) ∧
    (∀ p, head after = Some p → is_inside opt p = false).
Proof.
  intros opt. rewrite plotv_segments_runs. apply runs_done_spec.
Qed.

(** X17.  [plot] throws "xdata and ydata must have the same length"
    exactly if the lengths differ.  Given as many [y] as [x]: if the points
    [V2(x, y)] are two at least and all inside the range, it returns the one
    curve through all of them under the transformation of the axes, without
    a stroke or a fill of its own; if no two consecutive points are inside
    the range, also if there is one point or none, it returns the
    combination of no diagram at all, stroked black and filled none, under
    that transformation. *)
Theorem plot_draws_the_data_inside_the_range
    (xdata ydata : list R) (given : option (axes_options R)) :
  let plot := plot default_axes_options V2 D curve diagram_combine
                   D_stroke D_fill D_transform in
  let transform := axes_transform default_axes_options V2
                     (Some (spread default_axes_options given)) in
  let opt := spread default_axes_options given in
  let data := zip_with V2 xdata ydata in
  (plot xdata ydata given = inl "xdata and ydata must have the same length" ↔
   length xdata ≠ length ydata) ∧
  (length xdata = length ydata →
   2 ≤ length data →
   Forall (λ p, is_inside opt p = true) data →
   plot xdata ydata given = inr (D_transform (curve data) transform)) ∧
  (length xdata = length ydata →
   (∀ i p q, data !! i = Some p → data !! (i + 1) = Some q →
             is_inside opt p = false ∨ is_inside opt q = false) →
   plot xdata ydata given =
     inr (D_transform (D_fill (D_stroke (diagram_combine []) "black") "none")
                      transform)).
Proof.
  cbv zeta. unfold plot. split_and!.
  - destruct (bool_decide _) eqn:E.
    + by apply bool_decide_eq_true in E.
    + apply bool_decide_eq_false in E. split; [done|]. intros ?. by destruct E.
  - intros Hlen Hdata Hin.
    rewrite bool_decide_eq_false_2 by (intros ?; done).
    unfold plotv. rewrite plotv_segments_runs.
    by rewrite (runs_done_all_inside _ _ Hin Hdata).
  - intros Hlen Hnone.
    rewrite bool_decide_eq_false_2 by (intros ?; done).
    unfold plotv.
    assert (plotv_segments (spread default_axes_options given)
              (zip_with V2 xdata ydata) = []) as ->; [|done].
    apply elem_of_nil_inv. intros s Hs.
    rewrite plotv_segments_runs in Hs.
    apply runs_done_spec in Hs as (Hlen2 & Hall & before & after & E & _ & _).
    destruct s as [|p [|q s]]; [simpl in Hlen2; lia..|].
    apply Forall_cons in Hall as [Hp Hall]. apply Forall_cons in Hall as [Hq _].
    destruct (Hnone (length before) p q) as [Hp'|Hq']; [| |congruence|congruence].
    + rewrite E. by rewrite lookup_app_r, Nat.sub_diag by lia.
    + rewrite E. rewrite lookup_app_r by lia.
      by replace (length before + 1 - length before) with 1 by lia.
Qed.
End PlotProperties.

(** ** The methods on examples *)

Section ExampleFacts.
Import Examples.

Lemma group_runs : group [] = Ok 5 group_heap.
Proof. reflexivity. Qed.

Ltac prove_NoDup := apply (bool_decide_unpack _); vm_compute; exact I.

Lemma triangle_repr : repr group_heap 2 triangle_tree.
Proof.
  eapply repr_on_node; [done|reflexivity|reflexivity..| | | |].
  - prove_NoDup.
  - prove_NoDup.
  - constructor.
  - repeat constructor.
Qed.

Lemma curve_repr : repr group_heap 3 curve_tree.
Proof.
  eapply repr_on_node; [done|reflexivity|reflexivity..| | | |].
  - prove_NoDup.
  - prove_NoDup.
  - constructor.
  - repeat constructor.
Qed.

Lemma group_repr : repr group_heap 5 group_tree.
Proof.
  eapply repr_on_node; [done|reflexivity|reflexivity..| | | |].
  - prove_NoDup.
  - prove_NoDup.
  - repeat constructor.
    + apply triangle_repr.
    + apply curve_repr.
  - constructor.
Qed.

Lemma group_height : height group_tree ≤ 2.
Proof. vm_compute. lia. Qed.

Lemma group_kept : JSON_tree group_tree = group_tree.
Proof. vm_compute. reflexivity. Qed.

Lemma far_group_runs : far_group [] = Ok 1 far_group_heap.
Proof. vm_compute. reflexivity. Qed.

Lemma far_group_repr : repr far_group_heap 1 far_group_tree.
Proof.
  eapply repr_on_node; [done|reflexivity|reflexivity..| | | |].
  - prove_NoDup.
  - prove_NoDup.
  - repeat constructor.
    eapply repr_on_node; [done|reflexivity|reflexivity..| | | |].
    + prove_NoDup.
    + prove_NoDup.
    + constructor.
    + repeat constructor.
  - constructor.
Qed.

Lemma far_group_height : height far_group_tree ≤ 2.
Proof. vm_compute. lia. Qed.

Lemma far_group_points_kept :
  Forall (λ q, JSON_vector q = q) (all_points far_group_tree).
Proof. vm_compute. repeat (constructor; [vm_compute; reflexivity|]). constructor. Qed.

Lemma group_origins_kept :
  Forall (λ o, JSON_vector o = o) (all_origins group_tree).
Proof. vm_compute. repeat (constructor; [vm_compute; reflexivity|]). constructor. Qed.
End ExampleFacts.

Section OnExamples.
Import Examples.

(** C1.  On the Group of a triangle and a curve, [fill("red")] and
    [stroke("red")] return a copy in which no colour is set: the source
    calls [fill] and [stroke] on every child of the clone and drops what
    they return. *)
Theorem fill_and_stroke_on_a_group_colour_nothing :
  observe 2 group = Some group_tree ∧
  observe 2 (g ← group; fill 2 "red" g) = Some group_tree ∧
  observe 2 (g ← group; stroke 2 "red" g) = Some group_tree ∧
  t_fill triangle_tree = None ∧
  t_stroke triangle_tree = None ∧
  t_stroke curve_tree = None ∧
  observe 1 (p ← triangle; fill 1 "red" p) =
    Some (t_with_fill triangle_tree (Some "red")).
Proof. vm_compute. repeat split. Qed.


(** C3 fails on an origin JSON does not keep: the triangle with its origin
    at (Infinity, 0), moved by (1, 0), has its origin at (1, 0), because its
    clone has the origin (null, 0), which counts as (0, 0). *)
Lemma translate_loses_an_infinite_origin :
  origin_after infinite_triangle = Some (V infinity 0) ∧
  origin_after (d ← infinite_triangle; translate 1 (V 1 0) d) = Some (V 1 0) ∧
  Vector2_add (V infinity 0) (V 1 0) = V infinity 0 ∧
  V 1 0 ≠ V infinity 0.
Proof.
  split; [reflexivity|]. split; [reflexivity|]. split; [reflexivity|].
  intros E. apply (f_equal (λ v, PrimFloat.eqb (x v) 1)) in E.
  vm_compute in E. discriminate E.
Qed.

Lemma translate_moves_origins_and_points_witness :
  repr group_heap 5 group_tree ∧
  height group_tree ≤ 2 ∧
  JSON_tree group_tree = group_tree ∧
  ∃ d' h' t',
    translate 2 (V 1 2) 5 group_heap = Ok d' h' ∧
    repr h' d' t' ∧
    t' = shift (V 1 2) group_tree ∧
    t_origin t' = Vector2_add (t_origin group_tree) (V 1 2) ∧
    all_origins t' = map (λ o, Vector2_add o (V 1 2)) (all_origins group_tree) ∧
    all_points t' = map (λ p, Vector2_add p (V 1 2)) (all_points group_tree).
Proof.
  split; [exact group_repr|]. split; [exact group_height|].
  split; [exact group_kept|].
  exact (translate_moves_origins_and_points 2 (V 1 2) group_heap 5 group_tree
           group_repr group_height group_kept).
Defined.

(** C9 fails on an origin JSON does not keep: the triangle with its origin
    at (Infinity, 0), rotated, has its origin at (null, 0), here (0, 0). *)
Lemma rotate_loses_an_infinite_origin :
  origin_after infinite_triangle = Some (V infinity 0) ∧
  origin_after (d ← infinite_triangle; rotate 1 0%float None d) = Some (V 0 0) ∧
  V 0 0 ≠ V infinity 0.
Proof.
  split; [reflexivity|]. split; [reflexivity|].
  intros E. apply (f_equal (λ v, PrimFloat.eqb (x v) 0)) in E.
  vm_compute in E. discriminate E.
Qed.

Lemma rotate_keeps_every_origin_witness :
  repr group_heap 5 group_tree ∧
  height group_tree ≤ 2 ∧
  Forall (λ o, JSON_vector o = o) (all_origins group_tree) ∧
  ∃ d' h' t',
    rotate 2 0.5%float None 5 group_heap = Ok d' h' ∧
    repr h' d' t' ∧
    same_origins group_tree t' ∧
    all_origins t' = all_origins group_tree.
Proof.
  split; [exact group_repr|]. split; [exact group_height|].
  split; [exact group_origins_kept|].
  exact (rotate_keeps_every_origin 2 0.5%float None group_heap 5 group_tree
           group_repr group_height group_origins_kept).
Defined.

(** C5 fails on points JSON does not keep: the path points (Infinity, 0)
    and (Infinity, 1) of the triangle moved to infinity are (null, 0) and
    (null, 1) in the clone, so a rotation by the angle 0 about (0, 0) puts
    them at (0, 0) and (0, 1), not where the formula puts them.  With the
    pivot left out it fails on an origin JSON does not keep: the Group at
    (Infinity, 0) with the triangle as its child is turned about
    (null, 0), the origin of its clone, which leaves the points of the
    triangle where they are; about its own origin the formula gives
    others. *)
Lemma rotate_loses_infinite_points :
  (points_after 1 infinite_triangle =
     Some [V infinity 0; V infinity 0; V infinity 0; V infinity 1] ∧
   points_after 1 (d ← infinite_triangle; rotate 1 0%float (Some (V 0 0)) d) =
     Some [V 0 0; V 0 0; V 0 0; V 0 1] ∧
   map (turn_point 0%float (V 0 0))
       [V infinity 0; V infinity 0; V infinity 0; V infinity 1] ≠
     [V 0 0; V 0 0; V 0 0; V 0 1]) ∧
  (observe 2 far_group = Some far_group_tree ∧
   t_origin far_group_tree = V infinity 0 ∧
   all_points far_group_tree = [V 0 0; V 1 0; V 1 0; V 0 1] ∧
   points_after 2 (d ← far_group; rotate 2 0%float None d) =
     Some [V 0 0; V 1 0; V 1 0; V 0 1] ∧
   map (turn_point 0%float (V infinity 0)) [V 0 0; V 1 0; V 1 0; V 0 1] ≠
     [V 0 0; V 1 0; V 1 0; V 0 1]).
Proof.
  split.
  - split; [reflexivity|]. split; [reflexivity|].
    intros E.
    apply (f_equal (λ l, PrimFloat.eqb (x (default (V 0 0) (head l))) 0)) in E.
    vm_compute in E. discriminate E.
  - split; [vm_compute; reflexivity|]. split; [reflexivity|].
    split; [reflexivity|]. split; [vm_compute; reflexivity|].
    intros E.
    apply (f_equal (λ l, PrimFloat.eqb (x (default (V 0 0) (head l))) 0)) in E.
    vm_compute in E. discriminate E.
Qed.

Lemma rotate_turns_every_point_about_one_pivot_witness :
  repr far_group_heap 1 far_group_tree ∧
  height far_group_tree ≤ 2 ∧
  Forall (λ q, JSON_vector q = q) (all_points far_group_tree) ∧
  ∃ d' h' t',
    rotate 2 0.5%float (Some (V 1 1)) 1 far_group_heap = Ok d' h' ∧
    repr h' d' t' ∧
    t' = turn 0.5%float (V 1 1) (JSON_tree far_group_tree) ∧
    all_points t' =
      map (λ q, Vector2_add
                  (Vector2_rotate (Vector2_sub q (V 1 1)) 0.5%float) (V 1 1))
          (all_points far_group_tree).
Proof.
  split; [exact far_group_repr|]. split; [exact far_group_height|].
  split; [exact far_group_points_kept|].
  exact (proj1 (rotate_turns_every_point_about_one_pivot 2 0.5%float
                  far_group_heap 1 far_group_tree far_group_repr
                  far_group_height far_group_points_kept)
               (V 1 1)).
Defined.


(** C4 fails in doubles: the triangle with its origin at (3.3, 0),
    positioned at (0.1, 0), ends up at (0.10000000000000009, 0), because
    0.1 - 3.3 is rounded; positioned at (0.1, 0) once more it ends up at
    (0.1, 0), so the second call moves it again. *)
Lemma position_misses_the_target_in_doubles :
  origin_after moved_triangle = Some (V 3.3 0) ∧
  origin_after (d ← moved_triangle; position 1 (V 0.1 0) d)
    = Some (V 0.10000000000000009 0) ∧
  origin_after (d ← moved_triangle;
                d1 ← position 1 (V 0.1 0) d; position 1 (V 0.1 0) d1)
    = Some (V 0.1 0) ∧
  V 0.10000000000000009 0 ≠ V 0.1 0.
Proof.
  split; [reflexivity|]. split; [reflexivity|]. split; [reflexivity|].
  intros E. apply (f_equal (λ v, PrimFloat.eqb (x v) 0.1)) in E.
  vm_compute in E. discriminate E.
Qed.

Lemma position_is_translate_and_repeats_witness :
  repr group_heap 5 group_tree ∧
  height group_tree ≤ 2 ∧
  ∃ d1 h1 d2 h2,
    position 2 (V 3 2) 5 group_heap = Ok d1 h1 ∧
    repr h1 d1 (shift (V 3 2) group_tree) ∧
    position 2 (V 3 2) d1 h1 = Ok d2 h2 ∧
    repr h2 d2 (shift (V 3 2) group_tree) ∧
    bounding_box 2 d1 h1 = Ok (V 3 2, V 4 3) h1 ∧
    bounding_box 2 d2 h2 = Ok (V 3 2, V 4 3) h2.
Proof.
  split; [exact group_repr|]. split; [exact group_height|].
  destruct (position_is_translate_and_repeats 2 (V 3 2) group_heap 5 group_tree
              group_repr group_height)
    as (_ & d1 & h1 & d2 & h2 & E1 & Hr1 & _ & _ & E2 & Hr2 & _ & Eb1 & Eb2 & _).
  exists d1, h1, d2, h2.
  split_and!; [exact E1|exact Hr1|exact E2|exact Hr2|exact Eb1|exact Eb2].
Defined.

(** C7 fails on a repeated name: with the names ["path1"], both segments
    of a triangle get the name path1, and the second replaces the first.
    It fails on the name ["__proto__"] too: with the names ["__proto__"],
    which gives the two different names __proto__ and path1, the first
    segment is assigned to [paths["__proto__"]] and is no property of
    [paths], and the polygon has the one path path1. *)
Lemma polygon_with_a_repeated_name_loses_a_path :
  (polygon_names 2 ["path1"] = ["path1"; "path1"] ∧
   ∃ t, observe 1 (polygon [V 0 0; V 1 0; V 0 1] ["path1"]) = Some t ∧
        t_paths t = [("path1", [V 1 0; V 0 1])] ∧
        length (t_paths t) ≠ length [V 0 0; V 1 0; V 0 1] - 1) ∧
  (polygon_names 2 ["__proto__"] = ["__proto__"; "path1"] ∧
   NoDup (polygon_names 2 ["__proto__"]) ∧
   ∃ t, observe 1 (polygon [V 0 0; V 1 0; V 0 1] ["__proto__"]) = Some t ∧
        t_paths t = [("path1", [V 1 0; V 0 1])] ∧
        length (t_paths t) ≠ length [V 0 0; V 1 0; V 0 1] - 1).
Proof.
  split.
  - split; [reflexivity|].
    eexists. split; [reflexivity|]. split; [reflexivity|]. simpl. lia.
  - split; [reflexivity|].
    split; [apply (bool_decide_unpack _); vm_compute; exact I|].
    eexists. split; [reflexivity|]. split; [reflexivity|]. simpl. lia.
Qed.

Lemma polygon_validates_and_joins_consecutive_points_witness :
  3 ≤ length [V 0 0; V 1 0; V 0 1] ∧
  NoDup (polygon_names 2 ["a"]) ∧
  ("__proto__" ∉ polygon_names 2 ["a"]) ∧
  ∃ k h' o,
    polygon [V 0 0; V 1 0; V 0 1] ["a"] [] = Ok k h' ∧
    h' !! k = Some (ODiagram o) ∧
    length (paths o) = 2 ∧
    (∃ r, obj_get "a" (paths o) = Some r ∧
          h' !! r = Some (OPath (mkPath [V 0 0; V 1 0]))) ∧
    (∃ r, obj_get "path1" (paths o) = Some r ∧
          h' !! r = Some (OPath (mkPath [V 1 0; V 0 1]))).
Proof.
  assert (NoDup (polygon_names 2 ["a"])) as Hnd.
  { apply (bool_decide_unpack _). vm_compute. exact I. }
  assert ("__proto__" ∉ polygon_names 2 ["a"]) as Hproto.
  { apply (bool_decide_unpack _). vm_compute. exact I. }
  split; [simpl; lia|]. split; [exact Hnd|]. split; [exact Hproto|].
  destruct (proj2 (polygon_validates_and_joins_consecutive_points
                     [V 0 0; V 1 0; V 0 1] ["a"] [])
              ltac:(simpl; lia) Hnd Hproto)
    as (k & h' & o & E & _ & _ & Ho & _ & _ & _ & _ & _ & Hlen & Hsegs).
  exists k, h', o. split_and!; [exact E|exact Ho|exact Hlen| |].
  - destruct (Hsegs 0 (V 0 0) (V 1 0) eq_refl eq_refl)
      as (name & r & [= <-] & Hget & _ & Hr).
    by exists r.
  - destruct (Hsegs 1 (V 1 0) (V 0 1) eq_refl eq_refl)
      as (name & r & [= <-] & Hget & _ & Hr).
    by exists r.
Defined.

Lemma get_parametric_point_interpolates_witness :
  [OPath (mkPath [V 0 0; V 4 2])] !! 0 = Some (OPath (mkPath [V 0 0; V 4 2])) ∧
  get_parametric_point 0.25%float 0 [OPath (mkPath [V 0 0; V 4 2])] =
    Ok (V 1 0.5) [OPath (mkPath [V 0 0; V 4 2])].
Proof.
  split; [reflexivity|].
  exact (proj1 (proj2 (get_parametric_point_interpolates
                         [OPath (mkPath [V 0 0; V 4 2])] 0 [V 0 0; V 4 2]
                         0.25%float eq_refl))
               (V 0 0) (V 4 2) ltac:(simpl; lia) eq_refl eq_refl).
Defined.



End OnExamples.

(** ** The further properties on examples *)

Section MoreOnExamples.
Import Examples.

Lemma copy_returns_an_independent_clone_witness :
  repr group_heap 5 group_tree ∧
  height group_tree ≤ 2 ∧
  JSON_tree group_tree = group_tree ∧
  ∃ d' h',
    copy 2 5 group_heap = Ok d' h' ∧
    new_since (length group_heap) h' d' group_tree ∧
    repr h' 5 group_tree ∧
    repr h' d' group_tree.
Proof.
  split; [exact group_repr|]. split; [exact group_height|].
  split; [exact group_kept|].
  destruct (copy_returns_an_independent_clone 2 group_heap 5 group_tree
              group_repr group_height) as (d' & h' & E & Hnew & _ & Hold & Hsame).
  rewrite group_kept in Hnew.
  exists d', h'. split_and!; [exact E|exact Hnew|exact Hold|exact (Hsame group_kept)].
Defined.

Lemma copy_of_a_copy_is_the_same_tree_witness :
  repr group_heap 5 group_tree ∧
  height group_tree ≤ 2 ∧
  ∃ d1 h1 d2 h2,
    copy 2 5 group_heap = Ok d1 h1 ∧
    copy 2 d1 h1 = Ok d2 h2 ∧
    5 ≠ d1 ∧ d1 ≠ d2 ∧ 5 ≠ d2 ∧
    repr h2 d1 (JSON_tree group_tree) ∧
    repr h2 d2 (JSON_tree group_tree).
Proof.
  split; [exact group_repr|]. split; [exact group_height|].
  exact (copy_of_a_copy_is_the_same_tree 2 group_heap 5 group_tree
           group_repr group_height).
Defined.

Lemma fill_and_stroke_change_only_the_root_colour_witness :
  repr group_heap 2 triangle_tree ∧
  height triangle_tree ≤ 1 ∧
  ∃ tc,
    returns_new (copy 1 2) group_heap tc ∧
    returns_new (fill 1 "red" 2) group_heap (t_with_fill tc (Some "red")) ∧
    returns_new (stroke 1 "red" 2) group_heap (t_with_stroke tc (Some "red")).
Proof.
  split; [exact triangle_repr|]. split; [vm_compute; lia|].
  exact (fill_and_stroke_change_only_the_root_colour 1 "red" group_heap 2
           triangle_tree triangle_repr ltac:(vm_compute; lia)).
Defined.

Lemma fill_and_stroke_compose_witness :
  repr group_heap 2 triangle_tree ∧
  height triangle_tree ≤ 1 ∧
  ∃ t1 t2 t3,
    returns_new (d1 ← fill 1 "red" 2; fill 1 "blue" d1) group_heap t1 ∧
    returns_new (fill 1 "blue" 2) group_heap t1 ∧
    returns_new (d1 ← stroke 1 "red" 2; stroke 1 "blue" d1) group_heap t2 ∧
    returns_new (stroke 1 "blue" 2) group_heap t2 ∧
    returns_new (d1 ← fill 1 "red" 2; stroke 1 "blue" d1) group_heap t3 ∧
    returns_new (d1 ← stroke 1 "blue" 2; fill 1 "red" d1) group_heap t3.
Proof.
  split; [exact triangle_repr|]. split; [vm_compute; lia|].
  exact (fill_and_stroke_compose 1 "red" "blue" group_heap 2
           triangle_tree triangle_repr ltac:(vm_compute; lia)).
Defined.


Lemma add_paths_throws_exactly_on_a_group_witness :
  group_heap !! 5 =
    Some (ODiagram (mkDiagram DiagramType.Diagram [("polygon", 2); ("curve", 3)] []
                              (V 0 0) None None)) ∧
  add_paths [] [] 5 group_heap = Throw "Diagram cannot have paths" ∧
  ∃ h', add_childs [4] [] 5 group_heap = Ok tt h'.
Proof.
  split; [reflexivity|].
  destruct (add_paths_throws_exactly_on_a_group (R:=float) [] [] group_heap 5 _ eq_refl)
    as (Hthrow & _ & _).
  destruct (add_paths_throws_exactly_on_a_group (R:=float) [4] [] group_heap 5 _ eq_refl)
    as (_ & _ & Hchilds).
  split; [exact (proj2 Hthrow eq_refl)|exact Hchilds].
Defined.

Lemma get_parametric_point_on_short_paths_witness :
  [OPath (mkPath [V 3 4])] !! 0 = Some (OPath (mkPath [V 3 4])) ∧
  get_parametric_point 0.5%float 0 [OPath (mkPath [V 3 4])] =
    Ok (V 3 4) [OPath (mkPath [V 3 4])].
Proof.
  split; [reflexivity|].
  exact (proj1 (proj2 (get_parametric_point_on_short_paths
                         [OPath (mkPath [V 3 4])] 0 [V 3 4] 0.5%float eq_refl))
               (V 3 4) eq_refl).
Defined.

Lemma path_methods_return_a_new_path_witness :
  group_heap !! 4 = Some (OPath (mkPath [V 0 0; V 1 1])) ∧
  ∃ h' pts',
    Path_translate (V 2 3) 4 group_heap = Ok 6 h' ∧
    length h' = 7 ∧
    h' !! 6 = Some (OPath (mkPath pts')) ∧
    pts' !! 1 = Some (V 3 4).
Proof.
  split; [reflexivity|].
  destruct (path_methods_return_a_new_path (V 2 3) 0%float (V 0 0)
              group_heap 4 [V 0 0; V 1 1] eq_refl
              (Path_translate (V 2 3)) (λ q, Vector2_add q (V 2 3)))
    as (h' & pts' & E & Hlen & _ & Hnew & _ & Hpts).
  { right. left. }
  exists h', pts'. split_and!; [exact E|exact Hlen|exact Hnew|].
  exact (Hpts 1 (V 1 1) eq_refl).
Defined.




Lemma moves_keep_the_outline_witness :
  repr group_heap 5 group_tree ∧
  height group_tree ≤ 2 ∧
  ∃ d' h' t',
    rotate 2 0.5%float None 5 group_heap = Ok d' h' ∧
    repr h' d' t' ∧
    outline t' = outline group_tree.
Proof.
  split; [exact group_repr|]. split; [exact group_height|].
  apply (moves_keep_the_outline 2 (V 1 2) 0.5%float None group_heap 5 group_tree
           group_repr group_height (rotate 2 0.5%float None)).
  do 3 right. left.
Defined.

Lemma results_and_receivers_share_no_object_witness :
  repr group_heap 5 group_tree ∧
  height group_tree ≤ 2 ∧
  ∃ d' h',
    apply_operation 2 (Translate (V 1 2)) 5 group_heap = Ok d' h' ∧
    repr h' d' (outcome (Translate (V 1 2)) group_tree) ∧
    (∃ h2, add_childs [3] ["again"] d' h' = Ok tt h2 ∧
           repr h2 5 group_tree ∧ h2 !! 5 = group_heap !! 5) ∧
    (∃ h2, add_childs [3] ["again"] 5 h' = Ok tt h2 ∧
           repr h2 d' (outcome (Translate (V 1 2)) group_tree)).
Proof.
  split; [exact group_repr|]. split; [exact group_height|].
  exact (results_and_receivers_share_no_object 2 [3] ["again"] group_heap 5
           group_tree group_repr group_height
           (apply_operation 2 (Translate (V 1 2)))
           (outcome (Translate (V 1 2)) group_tree)
           (or_intror (ex_intro _ (Translate (V 1 2)) (conj eq_refl eq_refl)))).
Defined.
End MoreOnExamples.

Section AttachingOnExamples.
Import Examples.

Lemma every_path_of_a_polygon_can_be_evaluated_witness :
  3 ≤ length [V 0 0; V 1 0; V 0 1] ∧
  ∃ h' r,
    polygon [V 0 0; V 1 0; V 0 1] ["path1"] [] = Ok 2 h' ∧
    (∃ o, h' !! 2 = Some (ODiagram o) ∧ obj_get "path1" (paths o) = Some r) ∧
    get_parametric_point 0.5%float r h' = Ok (V 0.5 0.5) h'.
Proof.
  split; [simpl; lia|].
  destruct (every_path_of_a_polygon_can_be_evaluated
              [V 0 0; V 1 0; V 0 1] ["path1"] [] ltac:(simpl; lia))
    as (k & h' & o & E & Ho & Hall).
  pose proof E as E'. vm_compute in E'. injection E' as <- <-.
  pose proof Ho as Ho'. vm_compute in Ho'. injection Ho' as <-.
  destruct (Hall "path1" 1 eq_refl) as (i & p & q & _ & _ & Hr & Heval).
  vm_compute in Hr. injection Hr as <- <-.
  eexists _, 1. split_and!; [exact E|eexists; split; [exact Ho|reflexivity]|].
  exact (Heval 0.5%float).
Defined.

Lemma curve_repr_apart : repr_on (λ a, a ≠ 5) group_heap 3 curve_tree.
Proof.
  eapply repr_on_node; [done|reflexivity|reflexivity..| | | |].
  - apply (bool_decide_unpack _). vm_compute. exact I.
  - apply (bool_decide_unpack _). vm_compute. exact I.
  - constructor.
  - repeat constructor. done.
Qed.

Lemma add_childs_attaches_trees_witness :
  repr group_heap 5 group_tree ∧
  repr_on (λ a, a ≠ 5) group_heap 3 curve_tree ∧
  ("__proto__" ∉ (named ["again"] [curve_tree]).*1) ∧
  ∃ h',
    add_childs [3] ["again"] 5 group_heap = Ok tt h' ∧
    repr h' 5
      (Node DiagramType.Diagram
            [("polygon", triangle_tree); ("curve", curve_tree); ("again", curve_tree)]
            [] (V 0 0) None None).
Proof.
  assert ("__proto__" ∉ (named ["again"] [curve_tree]).*1) as Hproto.
  { apply (bool_decide_unpack _). vm_compute. exact I. }
  split; [exact group_repr|]. split; [exact curve_repr_apart|].
  split; [exact Hproto|].
  destruct (add_childs_attaches_trees [3] ["again"] [curve_tree] group_heap 5
              group_tree group_repr)
    as (h' & cs & E & Hrepr & _ & -> & _); [|exact Hproto|].
  { constructor; [exact curve_repr_apart|constructor]. }
  exists h'. split; [exact E|exact Hrepr].
Defined.

Lemma add_paths_attaches_paths_witness :
  repr group_heap 2 triangle_tree ∧
  t_type triangle_tree ≠ DiagramType.Diagram ∧
  group_heap !! 4 = Some (OPath (mkPath [V 0 0; V 1 1])) ∧
  ("__proto__" ∉ (named ["path0"] [[V 0 0; V 1 1]]).*1) ∧
  ∃ h',
    add_paths [4] ["path0"] 2 group_heap = Ok tt h' ∧
    repr h' 2
      (Node DiagramType.Polygon []
            [("path0", [V 0 0; V 1 1]); ("path1", [V 1 0; V 0 1])]
            (V 0 0) None None).
Proof.
  assert ("__proto__" ∉ (named ["path0"] [[V 0 0; V 1 1]]).*1) as Hproto.
  { apply (bool_decide_unpack _). vm_compute. exact I. }
  split; [exact triangle_repr|]. split; [done|]. split; [reflexivity|].
  split; [exact Hproto|].
  destruct (add_paths_attaches_paths [4] ["path0"] [[V 0 0; V 1 1]] group_heap 2
              triangle_tree triangle_repr)
    as (h' & ps & E & Hrepr & _ & ->); [done| |exact Hproto|].
  { constructor; [reflexivity|constructor]. }
  exists h'. split; [exact E|exact Hrepr].
Defined.
End AttachingOnExamples.

Section PlotsOnExamples.
Import Examples.

(** Of the seven points below the first two and the last two are runs
    inside the default range; (1, 0) stands alone between two points
    outside and is in no segment. *)
Example plotv_segments_example :
  plotv_segments default_axes_options
    [V 0 0; V 1 1; V 3 0; V 1 0; V 5 5; V 0 1; V 0 2] =
    [[V 0 0; V 1 1]; [V 0 1; V 0 2]].
Proof. vm_compute. reflexivity. Qed.

Lemma plot_draws_the_data_inside_the_range_witness :
  length [0; 1; 2]%float = length [0; 1; 0]%float ∧
  2 ≤ length (zip_with V [0; 1; 2]%float [0; 1; 0]%float) ∧
  Forall (λ p, is_inside (spread default_axes_options None) p = true)
         (zip_with V [0; 1; 2]%float [0; 1; 0]%float) ∧
  draw_plot [0; 1; 2]%float [0; 1; 0]%float = inr [[V 0 0; V 1 1; V 2 0]] ∧
  draw_plot [0; 1]%float [0]%float =
    inl "xdata and ydata must have the same length".
Proof.
  assert (Forall (λ p, is_inside (spread default_axes_options None) p = true)
            (zip_with V [0; 1; 2]%float [0; 1; 0]%float)) as Hin.
  { repeat (constructor; [vm_compute; reflexivity|]). constructor. }
  split; [reflexivity|]. split; [simpl; lia|]. split; [exact Hin|].
  destruct (plot_draws_the_data_inside_the_range default_axes_options V drawing
              draw_curve draw_combine draw_colour draw_colour draw_transform
              [0; 1; 2]%float [0; 1; 0]%float None) as (_ & Hone & _).
  destruct (plot_draws_the_data_inside_the_range default_axes_options V drawing
              draw_curve draw_combine draw_colour draw_colour draw_transform
              [0; 1]%float [0]%float None) as (Hthrow & _ & _).
  split.
  - unfold draw_plot. rewrite (Hone eq_refl ltac:(simpl; lia) Hin).
    vm_compute. reflexivity.
  - apply Hthrow. simpl. lia.
Defined.
End PlotsOnExamples.
